(** * wms-glm: the web client's formatting helpers, stores and WebSocket hook

    A shallow embedding of
    - [frontend/src/utils/format.js]   (formatDuration, parseDuration,
      cameraSchema, validateForm),
    - [frontend/src/store/cameraStore.js] (cameraStore.updateCameraStatus,
      eventStore.addEvent, eventStore.updateEvent),
    - [frontend/src/hooks/useWebSocket.js] (connect, disconnect, onMessage
      and the socket callbacks),
    - [frontend/src/utils/constants.js] (DEFAULTS),
    and a model of the specification's frame distributor, followed by the
    properties of the pipeline specification settled on them. *)

From Stdlib Require Import ZArith NArith List Ascii String Lia.
From Stdlib Require Import Decimal DecimalString DecimalN.
From stdpp Require Import base option gmap strings list fin_maps sorting.

(* ===================================================================== *)
(** * JavaScript values *)
(* ===================================================================== *)

Module Js.

(** The primitive values that travel through the stores and the socket.
    A non-primitive (object, array, function) is a reference: strict
    equality compares its identity. A string is a [string], one character
    per code unit. *)
Inductive ref_kind : Type := Plain | Array | Function.

Inductive value : Type :=
  | Undefined
  | Null
  | Bool (b : bool)
  | Num (z : Z)                    (* an integer; -0 and +0 are one value *)
  | Frac (m : Z) (k : positive)    (* the non-integer m / 2^k, m odd *)
  | Infinite (negative : bool)
  | NaN
  | Str (s : string)
  | Ref (kind : ref_kind) (address : N).

(** A plain object: own properties by name. *)
Abbreviation object := (gmap string value).

(** [a === b]. A number is equal to itself, NaN apart; a non-integer is
    kept in lowest terms, so two of them are equal when numerator and
    exponent are. *)
Definition strict_eq (a b : value) : bool :=
  match a, b with
  | Undefined, Undefined => true
  | Null, Null => true
  | Bool x, Bool y => Bool.eqb x y
  | Num x, Num y => Z.eqb x y
  | Frac m j, Frac n k => Z.eqb m n && Pos.eqb j k
  | Infinite x, Infinite y => Bool.eqb x y
  | Str x, Str y => String.eqb x y
  | Ref _ x, Ref _ y => N.eqb x y
  | _, _ => false
  end.

(** [o.k] on an object: a missing property reads as [undefined]. *)
Definition get (o : object) (k : string) : value :=
  default Undefined (o !! k).

(** [o?.k] on an object or [null]. *)
Definition get_opt (o : option object) (k : string) : value :=
  match o with
  | Some o => get o k
  | None => Undefined
  end.

(** The name zod's getParsedType gives a value. *)
Definition type_name (v : value) : string :=
  match v with
  | Undefined => "undefined"
  | Null => "null"
  | Bool _ => "boolean"
  | Num _ | Frac _ _ | Infinite _ => "number"
  | NaN => "nan"
  | Str _ => "string"
  | Ref Plain _ => "object"
  | Ref Array _ => "array"
  | Ref Function _ => "function"
  end.

End Js.

(* ===================================================================== *)
(** * utils/format.js: durations *)
(* ===================================================================== *)

Module Format.

Local Open Scope N_scope.

(** ** Numbers

    A JavaScript number is NaN, an infinity or a finite double: an integer,
    or a non-integer [m / 2^k] in lowest terms. The two zeros are one value
    here (they are equal and print alike). *)
Inductive jsnum : Type :=
  | NotANumber
  | Infinity_ (negative : bool)
  | Number_ (z : Z)
  | Fraction_ (m : Z) (k : positive).

(** *** Rounding to a double

    Every arithmetic result is the double nearest to the exact result, ties
    going to the even mantissa. For an exact result [p / q] the double is
    [m * 2^e], where [e] is the exponent of the last place (at least -1074,
    where the subnormal numbers have it) and the mantissa [m] has at most
    53 bits. *)

(** [p / (q * 2^e)] as numerator and denominator. *)
Definition scaled (p q : N) (e : Z) : N * N :=
  if (0 <=? e)%Z then (p, q * 2 ^ Z.to_N e) else (p * 2 ^ Z.to_N (- e), q).

Definition round_half_even (num den : N) : N :=
  let m := num / den in
  let r := num mod den in
  if (den <? 2 * r) || ((2 * r =? den) && N.odd m) then m + 1 else m.

(** The exponent of the last place of [p / q]: the one that leaves a
    mantissa between 2^52 and 2^53, or -1074 for a subnormal. *)
Definition exponent (p q : N) : Z :=
  let e0 := Z.max (Z.of_N (N.log2 p) - Z.of_N (N.log2 q) - 53) (-1074) in
  let '(num, den) := scaled p q e0 in
  if 2 ^ 53 <=? num / den then (e0 + 1)%Z else e0.

(** The mantissa and exponent of the double nearest to [p / q]. *)
Definition round (p q : N) : N * Z :=
  let e := exponent p q in
  let '(num, den) := scaled p q e in
  (round_half_even num den, e).

(** [Math.floor(x)] for [x = m * 2^e]; [x] itself when it is an integer. *)
Definition Math_floor (x : N * Z) : N :=
  let '(m, e) := x in
  if (0 <=? e)%Z then m * 2 ^ Z.to_N e else m / 2 ^ Z.to_N (- e).

(** [m / 2^k] in lowest terms. *)
Fixpoint lowest_terms (m : positive) (k : N) {struct m} : jsnum :=
  match k with
  | N0 => Number_ (Z.pos m)
  | Npos k' =>
      match m with
      | xO m' => lowest_terms m' (Pos.pred_N k')
      | _ => Fraction_ (Z.pos m) k'
      end
  end.

Definition dyadic (m : N) (e : Z) : jsnum :=
  match m with
  | N0 => Number_ 0
  | Npos m' =>
      if (0 <=? e)%Z then Number_ (Z.of_N (m * 2 ^ Z.to_N e))
      else lowest_terms m' (Z.to_N (- e))
  end.

(** The number nearest to [p / q], for [q > 0]: from 2^1024 on the
    rounded value is Infinity. *)
Definition nearest (p q : N) : jsnum :=
  let '(m, e) := round p q in
  if (0 <=? e)%Z && (2 ^ 1024 <=? m * 2 ^ Z.to_N e) then Infinity_ false
  else dyadic m e.

(** *** Arithmetic *)

Definition negate (x : jsnum) : jsnum :=
  match x with
  | NotANumber => NotANumber
  | Infinity_ negative => Infinity_ (negb negative)
  | Number_ z => Number_ (- z)
  | Fraction_ m k => Fraction_ (- m) k
  end.

Definition signed (negative : bool) (x : jsnum) : jsnum :=
  if negative then negate x else x.

(** The number nearest to the fraction [z / 2^k]. *)
Definition of_fraction (z : Z) (k : N) : jsnum :=
  signed (z <? 0)%Z (nearest (Z.abs_N z) (2 ^ k)).

(** A finite number as a fraction [z / 2^k]. *)
Definition fraction (x : jsnum) : option (Z * N) :=
  match x with
  | Number_ z => Some (z, 0)
  | Fraction_ m k => Some (m, Npos k)
  | _ => None
  end.

(** [a * b]. *)
Definition jmul (a b : jsnum) : jsnum :=
  match a, b with
  | NotANumber, _ | _, NotANumber => NotANumber
  | Infinity_ s, Infinity_ t => Infinity_ (xorb s t)
  | Infinity_ s, x | x, Infinity_ s =>
      match fraction x with
      | Some (z, _) => if (z =? 0)%Z then NotANumber else Infinity_ (xorb s (z <? 0)%Z)
      | None => NotANumber
      end
  | _, _ =>
      match fraction a, fraction b with
      | Some (x, j), Some (y, k) => of_fraction (x * y) (j + k)
      | _, _ => NotANumber
      end
  end.

(** [a + b]. *)
Definition jadd (a b : jsnum) : jsnum :=
  match a, b with
  | NotANumber, _ | _, NotANumber => NotANumber
  | Infinity_ s, Infinity_ t => if Bool.eqb s t then Infinity_ s else NotANumber
  | Infinity_ s, _ | _, Infinity_ s => Infinity_ s
  | _, _ =>
      match fraction a, fraction b with
      | Some (x, j), Some (y, k) =>
          of_fraction (x * 2 ^ Z.of_N k + y * 2 ^ Z.of_N j) (j + k)
      | _, _ => NotANumber
      end
  end.

(** [x || 0] on a number: NaN and 0 are falsy. *)
Definition or_zero (a : jsnum) : jsnum :=
  match a with
  | NotANumber => Number_ 0
  | _ => a
  end.

Definition isNaN (x : jsnum) : bool :=
  match x with
  | NotANumber => true
  | _ => false
  end.

(** [x >= z] and [x <= z] for an integer [z]. *)
Definition at_least (x : jsnum) (z : Z) : bool :=
  match x with
  | NotANumber => false
  | Infinity_ negative => negb negative
  | Number_ v => (z <=? v)%Z
  | Fraction_ m k => (z * 2 ^ Z.pos k <=? m)%Z
  end.

Definition at_most (x : jsnum) (z : Z) : bool :=
  match x with
  | NotANumber => false
  | Infinity_ negative => negative
  | Number_ v => (v <=? z)%Z
  | Fraction_ m k => (m <=? z * 2 ^ Z.pos k)%Z
  end.

(** ** dayjs.duration(seconds, 'seconds')

    The seconds are a non-negative integer below 2^53. dayjs multiplies
    them by 1000 and peels the units off the product with [/], [Math.floor]
    and [%], all on doubles: the product and the quotients are rounded, the
    remainders are exact. Every number met below is an integer below 2^63,
    and those that are printed are below 2^53. *)

Definition MILLISECONDS_A_SECOND : N := 1000.
Definition MILLISECONDS_A_MINUTE : N := 60 * MILLISECONDS_A_SECOND.
Definition MILLISECONDS_A_HOUR : N := 60 * MILLISECONDS_A_MINUTE.
Definition MILLISECONDS_A_DAY : N := 24 * MILLISECONDS_A_HOUR.
Definition MILLISECONDS_A_YEAR : N := 365 * MILLISECONDS_A_DAY.
Definition MILLISECONDS_A_MONTH : N := MILLISECONDS_A_YEAR / 12.

(** [a * b] for two non-negative integers: an integer again. *)
Definition times (a b : N) : N := Math_floor (round (a * b) 1).

(** [Math.floor(a / b)], dayjs' roundNumber on a non-negative quotient. *)
Definition floor_div (a b : N) : N := Math_floor (round a b).

Record duration : Type := mkDuration {
  ms : N;
  years : N;
  months : N;
  days : N;
  hours : N;
  minutes : N;
  seconds : N;
  milliseconds : N
}.

(** dayjs' parseFromMilliseconds: peel the units off, largest first. (The
    month is a twelfth of a year here; releases that take 30 days for it
    agree on the minutes and seconds below.) *)
Definition parseFromMilliseconds (total : N) : duration :=
  let r0 := total in
  let y := floor_div r0 MILLISECONDS_A_YEAR in
  let r1 := r0 mod MILLISECONDS_A_YEAR in
  let mo := floor_div r1 MILLISECONDS_A_MONTH in
  let r2 := r1 mod MILLISECONDS_A_MONTH in
  let d := floor_div r2 MILLISECONDS_A_DAY in
  let r3 := r2 mod MILLISECONDS_A_DAY in
  let h := floor_div r3 MILLISECONDS_A_HOUR in
  let r4 := r3 mod MILLISECONDS_A_HOUR in
  let mi := floor_div r4 MILLISECONDS_A_MINUTE in
  let r5 := r4 mod MILLISECONDS_A_MINUTE in
  let s := floor_div r5 MILLISECONDS_A_SECOND in
  let r6 := r5 mod MILLISECONDS_A_SECOND in
  mkDuration total y mo d h mi s r6.

Definition dayjs_duration_seconds (secs : N) : duration :=
  parseFromMilliseconds (times secs MILLISECONDS_A_SECOND).

(** [Math.floor(dur.asHours())]. *)
Definition floor_asHours (dur : duration) : N :=
  floor_div (ms dur) MILLISECONDS_A_HOUR.

(** ** Strings *)

(** [String(n)] for a non-negative integer below 2^53: its decimal
    digits. *)
Definition String_of (n : N) : string :=
  NilEmpty.string_of_uint (N.to_uint n).

Fixpoint zeros (k : nat) : string :=
  match k with
  | O => ""
  | S k' => String "0" (zeros k')
  end.

(** [s.padStart(width, '0')]. *)
Definition padStart0 (width : nat) (s : string) : string :=
  zeros (width - String.length s)%nat +:+ s.

(** [s.split(sep)] for a one-character separator. *)
Fixpoint split (sep : ascii) (s : string) : list string :=
  match s with
  | EmptyString => [EmptyString]
  | String c rest =>
      if Ascii.eqb c sep then EmptyString :: split sep rest
      else match split sep rest with
           | [] => [String c EmptyString]
           | p :: ps => String c p :: ps
           end
  end.

Fixpoint contains (c : ascii) (s : string) : bool :=
  match s with
  | EmptyString => false
  | String a rest => Ascii.eqb a c || contains c rest
  end.

(** White space that [Number] trims and [parseInt] skips, among the code
    units below 256: tab, line feed, vertical tab, form feed, carriage
    return, space and no-break space. *)
Definition is_space (a : ascii) : bool :=
  let n := N_of_ascii a in
  ((9 <=? n) && (n <=? 13)) || (n =? 32) || (n =? 160).

Definition is_digit (a : ascii) : bool :=
  let n := N_of_ascii a in (48 <=? n) && (n <=? 57).

Fixpoint skip_spaces (s : string) : string :=
  match s with
  | String a rest => if is_space a then skip_spaces rest else s
  | EmptyString => EmptyString
  end.

Fixpoint trim_end (s : string) : string :=
  match s with
  | EmptyString => EmptyString
  | String a rest =>
      match trim_end rest with
      | EmptyString => if is_space a then EmptyString else String a EmptyString
      | t => String a t
      end
  end.

Definition trim (s : string) : string := trim_end (skip_spaces s).

(** The longest run of decimal digits at the head of a string, and what
    follows it. *)
Fixpoint digit_prefix (s : string) : string :=
  match s with
  | String a rest => if is_digit a then String a (digit_prefix rest) else EmptyString
  | EmptyString => EmptyString
  end.

Fixpoint after_digits (s : string) : string :=
  match s with
  | String a rest => if is_digit a then after_digits rest else s
  | EmptyString => EmptyString
  end.

(** ** Number(s)

    The string is trimmed; the empty string is 0; then comes either a
    hexadecimal, octal or binary integer ([0x], [0o], [0b], unsigned) or an
    optional sign before [Infinity] or a decimal literal: digits, an
    optional fraction, an optional exponent. Anything else is NaN. The
    value is rounded to the nearest double (for a literal of more than 20
    significant digits the standard lets an implementation round a little
    differently). *)

Definition digit_value (a : ascii) : option N :=
  let n := N_of_ascii a in
  if (48 <=? n) && (n <=? 57) then Some (n - 48)
  else if (97 <=? n) && (n <=? 102) then Some (n - 87)
  else if (65 <=? n) && (n <=? 70) then Some (n - 55)
  else None.

Fixpoint read_digits (radix acc : N) (s : string) : option N :=
  match s with
  | EmptyString => Some acc
  | String a rest =>
      match digit_value a with
      | Some d => if d <? radix then read_digits radix (acc * radix + d) rest else None
      | None => None
      end
  end.

Definition radix_of (c : ascii) : option N :=
  if Ascii.eqb c "x" || Ascii.eqb c "X" then Some 16
  else if Ascii.eqb c "o" || Ascii.eqb c "O" then Some 8
  else if Ascii.eqb c "b" || Ascii.eqb c "B" then Some 2
  else None.

Definition non_decimal (s : string) : option N :=
  match s with
  | String "0" (String c (String d rest)) =>
      match radix_of c with
      | Some radix => read_digits radix 0 (String d rest)
      | None => None
      end
  | _ => None
  end.

Definition split_sign (s : string) : bool * string :=
  match s with
  | String "-" rest => (true, rest)
  | String "+" rest => (false, rest)
  | _ => (false, s)
  end.

(** The exponent a decimal literal ends with: none, or [e] or [E], an
    optional sign and at least one digit. *)
Definition exponent_part (s : string) : option Z :=
  match s with
  | EmptyString => Some 0%Z
  | String c rest =>
      if Ascii.eqb c "e" || Ascii.eqb c "E" then
        let '(negative, digits) := split_sign rest in
        match digits, NilEmpty.uint_of_string digits with
        | String _ _, Some d =>
            Some (if negative then - Z.of_N (N.of_uint d) else Z.of_N (N.of_uint d))%Z
        | _, _ => None
        end
      else None
  end.

(** An unsigned decimal literal as its digits [d] and a power of ten [e]:
    the literal stands for [d * 10^e]. *)
Definition decimal (s : string) : option (N * Z) :=
  let whole := digit_prefix s in
  let rest := after_digits s in
  let '(part, rest) :=
    match rest with
    | String "." r => (digit_prefix r, after_digits r)
    | _ => (EmptyString, rest)
    end in
  match whole +:+ part with
  | EmptyString => None
  | digits =>
      match NilEmpty.uint_of_string digits, exponent_part rest with
      | Some d, Some e => Some (N.of_uint d, (e - Z.of_nat (String.length part))%Z)
      | _, _ => None
      end
  end.

Definition times_ten_to (d : N) (e : Z) : jsnum :=
  if (0 <=? e)%Z then nearest (d * 10 ^ Z.to_N e) 1 else nearest d (10 ^ Z.to_N (- e)).

Definition Number (s : string) : jsnum :=
  match trim s with
  | EmptyString => Number_ 0
  | t =>
      match non_decimal t with
      | Some n => nearest n 1
      | None =>
          let '(negative, body) := split_sign t in
          if String.eqb body "Infinity" then Infinity_ negative
          else match decimal body with
               | Some (d, e) => signed negative (times_ten_to d e)
               | None => NotANumber
               end
      end
  end.

(** ** formatDuration

    The argument is [None] for [null]/[undefined] (the falsy values other
    than 0 that the guard sends to "-") and [Some s] for the number s. *)
Definition formatDuration (secs : option N) : string :=
  match secs with
  | None => "-"
  | Some s =>
      let dur := dayjs_duration_seconds s in
      let hours := floor_asHours dur in
      let minutes := minutes dur in
      let secs := seconds dur in
      if 0 <? hours then
        String_of hours +:+ ":" +:+ padStart0 2 (String_of minutes)
          +:+ ":" +:+ padStart0 2 (String_of secs)
      else
        String_of minutes +:+ ":" +:+ padStart0 2 (String_of secs)
  end.

(** ** parseDuration *)
Definition parseDuration (durationString : string) : jsnum :=
  let parts := map Number (split ":" durationString) in
  match parts with
  | [a; b; c] => jadd (jadd (jmul a (Number_ 3600)) (jmul b (Number_ 60))) c
  | [a; b] => jadd (jmul a (Number_ 60)) b
  | a :: _ => or_zero a
  | [] => Number_ 0
  end.

End Format.

(** The two shapes of a printed duration, written down from their
    description: "H:MM:SS" and "M:SS", the hours and the leading minutes in
    decimal, the other fields on two digits. *)
Module DurationShapes.

Local Open Scope N_scope.

Definition digit (n : N) : ascii := ascii_of_N (48 + n).

Definition two_digits (n : N) : string :=
  String (digit (n / 10)) (String (digit (n mod 10)) EmptyString).

Definition H_MM_SS (h m s : N) : string :=
  Format.String_of h +:+ ":" +:+ two_digits m +:+ ":" +:+ two_digits s.

Definition M_SS (m s : N) : string :=
  Format.String_of m +:+ ":" +:+ two_digits s.

End DurationShapes.

(* ===================================================================== *)
(** * utils/format.js: zod schemas and validateForm *)
(* ===================================================================== *)

Module Validation.

Import Js.

(** ** The zod combinators cameraSchema is built from *)

Inductive string_check : Type :=
  | SMin (n : nat) (message : string)        (* .min(n, message) *)
  | SMax (n : nat) (message : string)        (* .max(n, message) *)
  | SUrl (message : string).                 (* .url(message) *)

Inductive number_check : Type :=
  | NInt                                     (* .int() *)
  | NMin (z : Z) (message : string)          (* .min(z, message) *)
  | NMax (z : Z) (message : string).         (* .max(z, message) *)

Inductive ztype : Type :=
  | ZString (checks : list string_check)     (* z.string()... *)
  | ZBoolean                                 (* z.boolean() *)
  | ZNumber (checks : list number_check)     (* z.number()... *)
  | ZOptional (inner : ztype)                (* .optional() *)
  | ZDefault (inner : ztype) (dflt : value). (* .default(dflt) *)

(** One zod issue: where and what. *)
Record issue : Type := mkIssue {
  path : list string;
  message : string
}.

(** zod's default message for an invalid_type issue. *)
Definition invalid_type_message (expected : string) (v : value) : string :=
  match v with
  | Undefined => "Required"
  | _ => "Expected " +:+ expected +:+ ", received " +:+ type_name v
  end.

Section Zod.

(** [new URL(s)] succeeds: the browser's URL parser is not part of the
    repository and stays a parameter. *)
Variable isUrl : string -> bool.

(** The messages of the checks a string fails; every check is run. *)
Definition run_string_check (s : string) (c : string_check) : list string :=
  match c with
  | SMin n msg => if (String.length s <? n)%nat then [msg] else []
  | SMax n msg => if (n <? String.length s)%nat then [msg] else []
  | SUrl msg => if isUrl s then [] else [msg]
  end.

Definition number_lt (v : value) (z : Z) : bool :=
  match v with
  | Num x => (x <? z)%Z
  | Frac m k => (m <? z * 2 ^ Z.pos k)%Z
  | Infinite negative => negative
  | _ => false
  end.

Definition number_gt (v : value) (z : Z) : bool :=
  match v with
  | Num x => (z <? x)%Z
  | Frac m k => (z * 2 ^ Z.pos k <? m)%Z
  | Infinite negative => negb negative
  | _ => false
  end.

Definition is_integer (v : value) : bool :=
  match v with
  | Num _ => true
  | _ => false
  end.

Definition run_number_check (v : value) (c : number_check) : list string :=
  match c with
  | NInt => if is_integer v then [] else ["Expected integer, received float"]
  | NMin z msg => if number_lt v z then [msg] else []
  | NMax z msg => if number_gt v z then [msg] else []
  end.

(** [t.parse(v)]: the messages of the issues raised, none when [v] passes. *)
Fixpoint parse (t : ztype) (v : value) : list string :=
  match t with
  | ZString checks =>
      match v with
      | Str s => flat_map (run_string_check s) checks
      | _ => [invalid_type_message "string" v]
      end
  | ZBoolean =>
      match v with
      | Bool _ => []
      | _ => [invalid_type_message "boolean" v]
      end
  | ZNumber checks =>
      match v with
      | Num _ | Frac _ _ | Infinite _ => flat_map (run_number_check v) checks
      | _ => [invalid_type_message "number" v]
      end
  | ZOptional inner =>
      match v with
      | Undefined => []
      | _ => parse inner v
      end
  | ZDefault inner dflt =>
      match v with
      | Undefined => parse inner dflt
      | _ => parse inner v
      end
  end.

(** What [validateForm] is called with: a plain object, or anything else
    (a primitive, an array, a function). *)
Inductive input : Type :=
  | Object_ (o : object)
  | Other (v : value).

(** [z.object(shape).parse(data)]: unknown keys are stripped silently, every
    key of the shape is parsed at path [key]. *)
Definition parse_object (shape : list (string * ztype)) (data : input) : list issue :=
  match data with
  | Object_ o =>
      flat_map (fun '(key, t) => map (mkIssue [key]) (parse t (get o key))) shape
  | Other v => [mkIssue [] (invalid_type_message "object" v)]
  end.

(** [path.join('.')]. *)
Fixpoint join (sep : string) (parts : list string) : string :=
  match parts with
  | [] => ""
  | [p] => p
  | p :: rest => p +:+ sep +:+ join sep rest
  end.

Record validation : Type := mkValidation {
  success : bool;
  errors : option (gmap string string)
}.

(** [error.errors.forEach(err => errors[err.path.join('.')] = err.message)]. *)
Definition collect (issues : list issue) : gmap string string :=
  fold_left (fun acc err => <[join "." (path err) := message err]> acc) issues ∅.

(** validateForm: [schema.parse] throws a ZodError exactly when it raised
    issues, and throws nothing else, so the branch that answers
    [{general: ...}] to another kind of error is never taken. *)
Definition validateForm (shape : list (string * ztype)) (data : input) : validation :=
  match parse_object shape data with
  | [] => mkValidation true None
  | issues => mkValidation false (Some (collect issues))
  end.

(** ** cameraSchema *)
Definition cameraSchema : list (string * ztype) :=
  [ ("name", ZString [SMin 1 "Название обязательно"; SMax 100 "Максимум 100 символов"]);
    ("description", ZOptional (ZString [SMax 500 "Максимум 500 символов"]));
    ("rtsp_url", ZString [SMin 1 "RTSP URL обязателен"; SUrl "Некорректный RTSP URL"]);
    ("username", ZOptional (ZString []));
    ("password", ZOptional (ZString []));
    ("location", ZOptional (ZString [SMax 100 "Максимум 100 символов"]));
    ("recording_enabled", ZDefault ZBoolean (Bool true));
    ("motion_detection", ZDefault ZBoolean (Bool false));
    ("ptz_enabled", ZDefault ZBoolean (Bool false));
    ("onvif_enabled", ZDefault ZBoolean (Bool false));
    ("onvif_port", ZOptional (ZNumber [NInt; NMin 1 "Порт должен быть от 1 до 65535";
                                       NMax 65535 "Порт должен быть от 1 до 65535"]));
    ("onvif_path", ZOptional (ZString [])) ].

(** ** CameraForm.handleSubmit: what the form does with its data *)
Inductive submit_outcome : Type :=
  | ShowErrors (errs : option (gmap string string))  (* setErrors(validation.errors); return *)
  | CallApi (formData : object).                     (* createCamera / updateCamera *)

Definition handleSubmit (formData : object) : submit_outcome :=
  let validation := validateForm cameraSchema (Object_ formData) in
  if negb (success validation) then ShowErrors (errors validation)
  else CallApi formData.

(** ** The schema read as a predicate *)

Definition string_check_holds (s : string) (c : string_check) : Prop :=
  match c with
  | SMin n _ => (n <= String.length s)%nat
  | SMax n _ => (String.length s <= n)%nat
  | SUrl _ => isUrl s = true
  end.

Definition number_check_holds (v : value) (c : number_check) : Prop :=
  match c with
  | NInt => exists z, v = Num z
  | NMin z _ => number_lt v z = false
  | NMax z _ => number_gt v z = false
  end.

Fixpoint accepts (t : ztype) (v : value) : Prop :=
  match t with
  | ZString checks => exists s, v = Str s /\ Forall (string_check_holds s) checks
  | ZBoolean => exists b, v = Bool b
  | ZNumber checks =>
      type_name v = "number" /\ Forall (number_check_holds v) checks
  | ZOptional inner => v = Undefined \/ accepts inner v
  | ZDefault inner dflt =>
      (v = Undefined /\ accepts inner dflt) \/ (v <> Undefined /\ accepts inner v)
  end.

(** An input satisfies an object schema when it is an object and each key of
    the shape holds a value its type accepts. *)
Definition satisfies (shape : list (string * ztype)) (data : input) : Prop :=
  match data with
  | Object_ o => Forall (fun '(key, t) => accepts t (get o key)) shape
  | Other _ => False
  end.

End Zod.

End Validation.

(** ** The camera form's rules

    What cameraSchema asks of each field, written down from its
    declarations rather than from how zod evaluates them: the reading of
    "the input satisfies the schema" that validateForm is checked
    against. A field is absent when the form has no such property, or has
    [undefined] there. *)
Module CameraConfig.

Import Js.

Section Rules.

Variable isUrl : string -> bool.

(** A text of [lo] to [hi] characters. *)
Definition text (lo hi : nat) (v : value) : Prop :=
  exists s, v = Str s /\ (lo <= String.length s <= hi)%nat.

Definition any_text (v : value) : Prop := exists s, v = Str s.

(** A non-empty text that is a URL. *)
Definition url (v : value) : Prop :=
  exists s, v = Str s /\ (1 <= String.length s)%nat /\ isUrl s = true.

Definition flag (v : value) : Prop := exists b, v = Bool b.

(** An integer between 1 and 65535. *)
Definition port (v : value) : Prop := exists z, v = Num z /\ (1 <= z <= 65535)%Z.

Definition optional (rule : value -> Prop) (v : value) : Prop :=
  v = Undefined \/ rule v.

Definition rules : list (string * (value -> Prop)) :=
  [ ("name", text 1 100);
    ("description", optional (text 0 500));
    ("rtsp_url", url);
    ("username", optional any_text);
    ("password", optional any_text);
    ("location", optional (text 0 100));
    ("recording_enabled", optional flag);
    ("motion_detection", optional flag);
    ("ptz_enabled", optional flag);
    ("onvif_enabled", optional flag);
    ("onvif_port", optional port);
    ("onvif_path", optional any_text) ].

(** Every field of the form keeps its rule. *)
Definition valid (o : object) : Prop :=
  Forall (fun '(name, rule) => rule (get o name)) rules.

(** The field [name] of the form breaks its rule. *)
Definition invalid_field (o : object) (name : string) : Prop :=
  exists rule, (name, rule) ∈ rules /\ ~ rule (get o name).

(** What validateForm is given keeps the rules: it is an object, and a
    valid one. *)
Definition valid_input (data : Validation.input) : Prop :=
  match data with
  | Validation.Object_ o => valid o
  | Validation.Other _ => False
  end.

End Rules.

End CameraConfig.

(* ===================================================================== *)
(** * store/cameraStore.js and store/eventStore.js *)
(* ===================================================================== *)

(** [{...o, ...updates}]: the properties of [updates] win. *)
Definition spread (o updates : Js.object) : Js.object := updates ∪ o.

(** [{...o, status}]; spreading [null] gives no property. *)
Definition with_status (o : option Js.object) (status : Js.value) : Js.object :=
  <["status" := status]> (default ∅ o).

Module CameraStore.

Import Js.

Record state : Type := mkState {
  cameras : list object;
  selectedCamera : option object;      (* null or a camera *)
  isLoading : bool;
  error : value;
  filters : object
}.

Definition initial : state :=
  mkState [] None false Null (<["status" := Str "all"]> (<["search" := Str ""]> ∅)).

(** updateCameraStatus: zustand's [set] merges the two keys it is given
    into the state and keeps the others. *)
Definition updateCameraStatus (cameraId status : value) (st : state) : state :=
  mkState
    (map (fun c => if strict_eq (get c "id") cameraId
                   then with_status (Some c) status else c)
         (cameras st))
    (if strict_eq (get_opt (selectedCamera st) "id") cameraId
     then Some (with_status (selectedCamera st) status)
     else selectedCamera st)
    (isLoading st) (error st) (filters st).

(** The ids the API gives cameras: numbers or strings. *)
Inductive camera_id : Type :=
  | IdNum (n : Z)
  | IdStr (s : string).

Definition id_value (i : camera_id) : value :=
  match i with
  | IdNum n => Num n
  | IdStr s => Str s
  end.

(** [c'] is [c] with its status set and every other property as it was. *)
Definition only_status_changed (status : value) (c c' : object) : Prop :=
  c' !! "status" = Some status /\ forall k, k <> "status" -> c' !! k = c !! k.

End CameraStore.

Module EventStore.

Import Js.

Record state : Type := mkState {
  events : list object;
  selectedEvent : option object;
  isLoading : bool;
  error : value;
  filters : object
}.

Definition initial : state :=
  mkState [] None false Null
    (<["cameraId" := Null]> (<["eventType" := Str "all"]> (<["startDate" := Null]>
       (<["endDate" := Null]> (<["viewed" := Str "all"]> ∅))))).

(** addEvent: [events: [event, ...state.events]]. *)
Definition addEvent (event : object) (st : state) : state :=
  mkState (event :: events st) (selectedEvent st) (isLoading st) (error st) (filters st).

(** updateEvent. *)
Definition updateEvent (eventId : value) (updates : object) (st : state) : state :=
  mkState
    (map (fun e => if strict_eq (get e "id") eventId then spread e updates else e)
         (events st))
    (if strict_eq (get_opt (selectedEvent st) "id") eventId
     then Some (spread (default ∅ (selectedEvent st)) updates)
     else selectedEvent st)
    (isLoading st) (error st) (filters st).

(** The store after a run of events pushed by the socket, oldest first. *)
Definition receive (incoming : list object) (st : state) : state :=
  fold_left (fun st event => addEvent event st) incoming st.

End EventStore.

(* ===================================================================== *)
(** * utils/constants.js *)
(* ===================================================================== *)

Module DEFAULTS.

Definition WS_RECONNECT_DELAY : Z := 5000.
Definition WS_MAX_RECONNECT_ATTEMPTS : nat := 10.

End DEFAULTS.

(* ===================================================================== *)
(** * hooks/useWebSocket.js *)
(* ===================================================================== *)

Module WebSocketHook.

Import Js.

(** WebSocket.readyState. *)
Inductive readyState : Type := CONNECTING | OPEN | CLOSING | CLOSED.

(** A property of the payload that goes to the event store: an object is
    known by its properties, anything else (a primitive, an array, or
    [undefined] for a property the payload does not have) by its value. *)
Inductive property : Type :=
  | PlainObject (o : object)
  | OtherValue (v : value).

(** [JSON.parse(event.data)] when it gives an object: the properties the
    dispatcher reads, each [undefined] when the payload lacks it. The type
    is a string, as the types onMessage is called with are. *)
Record message : Type := mkMessage {
  type : string;
  camera_id : value;
  status : value;
  event : property;
  event_id : value;
  updates : property
}.

(** A call of a store's action, with its arguments. The stores are other
    modules: the hook is modelled up to the calls it makes to them. *)
Inductive store_call : Type :=
  | UpdateCameraStatus (cameraId status : value)
  | AddEvent (event : property)
  | UpdateEvent (eventId : value) (updates : property).

(** The hook's refs, the browser objects they point to, the calls made to
    the stores and a log of the handler calls made so far. Sockets,
    timeouts and handlers are known by their identity; timeout ids are
    positive, hence truthy. [arrivals] counts the messages dispatched and
    numbers the entries of [calls]: it is not in the source. *)
Record world : Type := mkWorld {
  token : option string;                          (* authStore token; None when falsy *)
  wsRef : option positive;                        (* wsRef.current *)
  reconnectTimeoutRef : option positive;          (* reconnectTimeoutRef.current *)
  messageHandlers : gmap string (list positive);  (* messageHandlersRef.current *)
  sockets : gmap positive readyState;             (* every WebSocket created *)
  timers : gmap positive Z;                       (* pending timeouts and their delay, ms *)
  next_socket : positive;
  next_timer : positive;
  store_calls : list store_call;                  (* oldest first *)
  arrivals : nat;
  calls : list (positive * nat * message)         (* handler, arrival number, argument *)
}.

Definition initial (tok : option string) : world :=
  mkWorld tok None None ∅ ∅ ∅ 1 1 [] 0 [].

Definition set_wsRef (r : option positive) (w : world) : world :=
  mkWorld (token w) r (reconnectTimeoutRef w) (messageHandlers w) (sockets w)
    (timers w) (next_socket w) (next_timer w) (store_calls w) (arrivals w) (calls w).

Definition set_sockets (m : gmap positive readyState) (w : world) : world :=
  mkWorld (token w) (wsRef w) (reconnectTimeoutRef w) (messageHandlers w) m
    (timers w) (next_socket w) (next_timer w) (store_calls w) (arrivals w) (calls w).

Definition set_timers (m : gmap positive Z) (w : world) : world :=
  mkWorld (token w) (wsRef w) (reconnectTimeoutRef w) (messageHandlers w) (sockets w)
    m (next_socket w) (next_timer w) (store_calls w) (arrivals w) (calls w).

Definition set_messageHandlers (m : gmap string (list positive)) (w : world) : world :=
  mkWorld (token w) (wsRef w) (reconnectTimeoutRef w) m (sockets w)
    (timers w) (next_socket w) (next_timer w) (store_calls w) (arrivals w) (calls w).

Definition set_token (tok : option string) (w : world) : world :=
  mkWorld tok (wsRef w) (reconnectTimeoutRef w) (messageHandlers w) (sockets w)
    (timers w) (next_socket w) (next_timer w) (store_calls w) (arrivals w) (calls w).

(** A store action is called. *)
Definition call_store (c : store_call) (w : world) : world :=
  mkWorld (token w) (wsRef w) (reconnectTimeoutRef w) (messageHandlers w) (sockets w)
    (timers w) (next_socket w) (next_timer w) (store_calls w ++ [c]) (arrivals w)
    (calls w).

(** A handler is called with the message that arrived as number [n]. *)
Definition log_call (h : positive) (n : nat) (data : message) (w : world) : world :=
  mkWorld (token w) (wsRef w) (reconnectTimeoutRef w) (messageHandlers w) (sockets w)
    (timers w) (next_socket w) (next_timer w) (store_calls w) (arrivals w)
    (calls w ++ [(h, n, data)]).

(** The message has been dealt with. *)
Definition arrived (w : world) : world :=
  mkWorld (token w) (wsRef w) (reconnectTimeoutRef w) (messageHandlers w) (sockets w)
    (timers w) (next_socket w) (next_timer w) (store_calls w) (S (arrivals w))
    (calls w).

(** [new WebSocket(url)]: a fresh socket, connecting. *)
Definition new_WebSocket (w : world) : positive * world :=
  let s := next_socket w in
  (s, mkWorld (token w) (wsRef w) (reconnectTimeoutRef w) (messageHandlers w)
        (<[s := CONNECTING]> (sockets w)) (timers w) (Pos.succ s) (next_timer w)
        (store_calls w) (arrivals w) (calls w)).

(** [setTimeout(callback, delay)]: a fresh pending timeout. The only
    callback the hook ever passes is [connect]. *)
Definition setTimeout (delay : Z) (w : world) : positive * world :=
  let t := next_timer w in
  (t, mkWorld (token w) (wsRef w) (reconnectTimeoutRef w) (messageHandlers w)
        (sockets w) (<[t := delay]> (timers w)) (next_socket w) (Pos.succ t)
        (store_calls w) (arrivals w) (calls w)).

Definition clearTimeout (t : positive) (w : world) : world :=
  set_timers (delete t (timers w)) w.

(** [socket.close()]: starts closing a socket that is connecting or open;
    the close event comes later. *)
Definition close_state (r : readyState) : readyState :=
  match r with
  | CONNECTING | OPEN => CLOSING
  | CLOSING | CLOSED => r
  end.

(** connect: the four callbacks are set on the new socket right away, so
    every socket of the world carries them. *)
Definition connect (w : world) : world :=
  match token w with
  | None => w
  | Some _ =>
      let (s, w1) := new_WebSocket w in
      set_wsRef (Some s) w1
  end.

(** The onclose callback. *)
Definition onclose (w : world) : world :=
  let (t, w1) := setTimeout 5000 w in
  mkWorld (token w1) (wsRef w1) (Some t) (messageHandlers w1) (sockets w1)
    (timers w1) (next_socket w1) (next_timer w1) (store_calls w1) (arrivals w1)
    (calls w1).

(** disconnect. *)
Definition disconnect (w : world) : world :=
  let w1 := match reconnectTimeoutRef w with
            | Some t => clearTimeout t w
            | None => w
            end in
  match wsRef w1 with
  | Some s => set_wsRef None (set_sockets (alter close_state s (sockets w1)) w1)
  | None => w1
  end.

(** onMessage(type, handler): the handler goes to the end of the list. *)
Definition onMessage (ty : string) (handler : positive) (w : world) : world :=
  set_messageHandlers
    (<[ty := default [] (messageHandlers w !! ty) ++ [handler]]> (messageHandlers w)) w.

(** [handlers.splice(handlers.indexOf(handler), 1)] when the handler is
    there. *)
Fixpoint remove_first (handler : positive) (handlers : list positive) : list positive :=
  match handlers with
  | [] => []
  | h :: rest => if Pos.eqb h handler then rest else h :: remove_first handler rest
  end.

(** The function onMessage returns. *)
Definition unsubscribe (ty : string) (handler : positive) (w : world) : world :=
  set_messageHandlers (alter (remove_first handler) ty (messageHandlers w)) w.

(** What a handler can do to the hook while it runs: call onMessage, or an
    unsubscribe function that onMessage returned. (sendMessage, the third
    function the hook gives out, changes nothing of the hook's state.) *)
Inductive hook_call : Type :=
  | CallOnMessage (ty : string) (handler : positive)
  | CallUnsubscribe (ty : string) (handler : positive).

Definition call_back (w : world) (c : hook_call) : world :=
  match c with
  | CallOnMessage ty handler => onMessage ty handler w
  | CallUnsubscribe ty handler => unsubscribe ty handler w
  end.

Section Dispatch.

(** A handler is user code: the model knows its identity, the calls it
    makes back into the hook when it is called with a message, and whether
    it then throws. *)
Variable throws : positive -> message -> bool.
Variable calls_back : positive -> message -> list hook_call.

(** [handlers.forEach(handler => handler(data))] inside the try block, on
    the list of the message's type. forEach reads the length of the list
    once, then visits the indices below it one after the other and calls
    what it finds there at that moment: the list is the very array that
    onMessage pushes to and unsubscribe splices, so a handler that
    unsubscribes moves the handlers behind it one place down. A handler
    that throws ends the walk. [todo] is the number of indices left, [k]
    the next one. *)
Fixpoint forEach (todo k n : nat) (data : message) (w : world) : world :=
  match todo with
  | O => w
  | S todo' =>
      match default [] (messageHandlers w !! type data) !! k with
      | None => forEach todo' (S k) n data w
      | Some h =>
          let w' := fold_left call_back (calls_back h data) (log_call h n data w) in
          if throws h data then w' else forEach todo' (S k) n data w'
      end
  end.


(** The onmessage callback; [None] is a payload that makes the try block
    throw before anything is dispatched (JSON.parse rejects it, or it parses
    to null). The switch has no fall-through: each case ends in [break]. *)
Definition onmessage (payload : option message) (w : world) : world :=
  match payload with
  | None => w
  | Some data =>
      if String.eqb (type data) "camera_status" then
        arrived (call_store (UpdateCameraStatus (camera_id data) (status data)) w)
      else if String.eqb (type data) "event" then
        arrived (call_store (AddEvent (event data)) w)
      else if String.eqb (type data) "event_update" then
        arrived (call_store (UpdateEvent (event_id data) (updates data)) w)
      else
        let handlers := default [] (messageHandlers w !! type data) in
        arrived (forEach (length handlers) 0 (arrivals w) data w)
  end.

(** What can happen to the hook: calls of its functions, a change of the
    auth token, and the browser's socket and timer events. *)
Inductive action : Type :=
  | Connect
  | Disconnect
  | TokenChange (tok : option string)
  | OnMessage (ty : string) (handler : positive)
  | Unsubscribe (ty : string) (handler : positive)
  | SocketOpen (s : positive)
  | SocketMessage (s : positive) (payload : option message)
  | SocketError (s : positive)
  | SocketClose (s : positive)
  | TimerFire (t : positive).

Definition same_token (a b : option string) : bool :=
  match a, b with
  | None, None => true
  | Some x, Some y => String.eqb x y
  | _, _ => false
  end.

(** One action. A browser event that cannot happen in the current state (an
    open event on a socket that is not connecting, a message on a socket
    that is not open, a close event on a closed or unknown socket, a timeout
    that is not pending) leaves the world as it is. *)
Definition step (w : world) (a : action) : world :=
  match a with
  | Connect => connect w
  | Disconnect => disconnect w
  | TokenChange tok =>
      if same_token tok (token w) then w
      else match tok with
           | Some _ => connect (set_token tok w)
           | None => disconnect (set_token tok w)
           end
  | OnMessage ty handler => onMessage ty handler w
  | Unsubscribe ty handler => unsubscribe ty handler w
  | SocketOpen s =>
      match sockets w !! s with
      | Some CONNECTING => set_sockets (<[s := OPEN]> (sockets w)) w
      | _ => w
      end
  | SocketMessage s payload =>
      match sockets w !! s with
      | Some OPEN => onmessage payload w
      | _ => w
      end
  | SocketError s => w
  | SocketClose s =>
      match sockets w !! s with
      | Some CLOSED | None => w
      | Some _ => onclose (set_sockets (<[s := CLOSED]> (sockets w)) w)
      end
  | TimerFire t =>
      match timers w !! t with
      | Some _ => connect (clearTimeout t w)
      | None => w
      end
  end.

Definition run (trace : list action) (w : world) : world :=
  fold_left step trace w.

End Dispatch.


(** [k] connection attempts in a row that fail: socket [i] closes, timeout
    [i] fires and opens socket [i+1], and so on. *)
Fixpoint failures (k : nat) (i : positive) : list action :=
  match k with
  | O => []
  | S k' => SocketClose i :: TimerFire i :: failures k' (Pos.succ i)
  end.


Definition handler_of (c : positive * nat * message) : positive := fst (fst c).
Definition arrival_of (c : positive * nat * message) : nat := snd (fst c).


(** The arrival numbers of the messages handler [h] was called with, in the
    order of the calls. *)
Definition observed (h : positive) (log : list (positive * nat * message)) : list nat :=
  map arrival_of (filter (fun c => handler_of c = h) log).




Definition status_message : message :=
  mkMessage "camera_status" Undefined (Str "online") (OtherValue Undefined) Undefined
    (OtherValue Undefined).




(** The number of the socket that is current after [failures k i]. *)
Fixpoint last_attempt (k : nat) (i : positive) : positive :=
  match k with
  | O => i
  | S k' => last_attempt k' (Pos.succ i)
  end.

(** The hook is in the middle of connection attempt [i]: socket [i] is the
    current one and is connecting, and the next socket and timeout will be
    numbered [i+1] and [i]. *)
Record attempting (w : world) (i : positive) : Prop := mkAttempting {
  att_token : is_Some (token w);
  att_ref : wsRef w = Some i;
  att_socket : sockets w !! i = Some CONNECTING;
  att_next_socket : next_socket w = Pos.succ i;
  att_next_timer : next_timer w = i
}.

(** The delay of the timeout the hook has pending in its ref, if any. *)
Definition pending_delay (w : world) : option Z :=
  t ← reconnectTimeoutRef w; timers w !! t.

(** The delay the hook puts before reconnect attempt [n+1]: the hook
    connects, [n] attempts fail in a row, and the socket is lost once more. *)
Definition reconnect_delay (n : nat) : option Z :=
  pending_delay
    (run (fun _ _ => false) (fun _ _ => [])
       (Connect :: failures n 1 ++ [SocketClose (Pos.of_succ_nat n)])
       (initial (Some "token"))).

End WebSocketHook.

(* ===================================================================== *)
(** * The frame distributor of the pipeline specification *)
(* ===================================================================== *)

Module FrameDistributor.

Local Open Scope N_scope.

(** Modelled from the spec: the Frame type (section 3). The recording
    pipeline is not among the sources at hand; a frame is its sequence
    number and timestamp, the picture is left out. *)
Record frame : Type := mkFrame {
  seq : N;
  timestamp : N
}.

(** Modelled from the spec: the overflow policies of a consumer's queue
    (section 4.2), drop-oldest, or drop-newest for the live path. *)
Inductive policy : Type := DropOldest | DropNewest.

(** Modelled from the spec: the bounded queue each attached consumer gets
    (section 4.2); the oldest frame is at the head. *)
Record channel : Type := mkChannel {
  overflow : policy;
  capacity : nat;
  queue : list frame
}.

(** Modelled from the spec: the Frame Distributor (section 4.2) fed by the
    Source Connection (sections 2 and 3). [next_seq] is the sequence number
    of the next frame the source decodes, [channels] maps the attached
    consumers to their queues and [taken] records, per consumer, the frames
    it has received so far, oldest first. *)
Record distributor : Type := mkDistributor {
  next_seq : N;
  channels : gmap N channel;
  taken : gmap N (list frame)
}.

Definition initial : distributor := mkDistributor 0 ∅ ∅.

(** Modelled from the spec: putting a frame on a bounded queue (section
    4.2). A full drop-oldest queue loses frames at its head, a full
    drop-newest queue refuses the frame; the producer never waits. *)
Definition enqueue (f : frame) (ch : channel) : channel :=
  match overflow ch with
  | DropOldest =>
      let q := queue ch ++ [f] in
      mkChannel DropOldest (capacity ch) (drop (length q - capacity ch)%nat q)
  | DropNewest =>
      if (length (queue ch) <? capacity ch)%nat
      then mkChannel DropNewest (capacity ch) (queue ch ++ [f])
      else ch
  end.

(** Modelled from the spec: what happens around the distributor (sections
    4.1, 4.2 and 8). The source publishes its next frame, [gap] sequence
    numbers after the previous one when frames were lost to decode errors or
    a reconnect (gaps are real, nothing is fabricated); a consumer attaches
    with a policy and a capacity, detaches, or takes the oldest frame of its
    queue. *)
Inductive action : Type :=
  | Publish (gap : N) (time : N)
  | Attach (consumer : N) (p : policy) (cap : nat)
  | Detach (consumer : N)
  | Take (consumer : N).

(** Modelled from the spec: one step of the distributor (section 4.2). *)
Definition step (d : distributor) (a : action) : distributor :=
  match a with
  | Publish gap time =>
      let f := mkFrame (next_seq d + gap) time in
      mkDistributor (N.succ (seq f)) (enqueue f <$> channels d) (taken d)
  | Attach c p cap =>
      mkDistributor (next_seq d) (<[c := mkChannel p cap []]> (channels d)) (taken d)
  | Detach c =>
      mkDistributor (next_seq d) (delete c (channels d)) (taken d)
  | Take c =>
      match channels d !! c with
      | Some (mkChannel p cap (f :: rest)) =>
          mkDistributor (next_seq d)
            (<[c := mkChannel p cap rest]> (channels d))
            (<[c := default [] (taken d !! c) ++ [f]]> (taken d))
      | _ => d
      end
  end.

Definition run (trace : list action) (d : distributor) : distributor :=
  fold_left step trace d.

(** The frames consumer [c] has observed, in the order it received them,
    and the frames waiting for it. *)
Definition observed (c : N) (d : distributor) : list frame :=
  default [] (taken d !! c).

Definition waiting (c : N) (d : distributor) : list frame :=
  match channels d !! c with
  | Some ch => queue ch
  | None => []
  end.

(** Strictly increasing sequence numbers. *)
Definition increasing (l : list frame) : Prop :=
  StronglySorted N.lt (map seq l).

(** What a consumer has received and what waits for it are, together, in
    increasing order and were all produced already. *)
Definition consumer_ok (d : distributor) (c : N) : Prop :=
  increasing (observed c d ++ waiting c d) /\
  Forall (fun f => seq f < next_seq d) (observed c d ++ waiting c d).

End FrameDistributor.

(* ===================================================================== *)
(** * The other actions of the stores, and the hooks that read them *)
(* ===================================================================== *)

Module StoreActions.

Import Js.

(** [!!v]. *)
Definition truthy (v : value) : bool :=
  match v with
  | Undefined | Null | NaN => false
  | Bool b => b
  | Num z => negb (z =? 0)%Z
  | Str s => negb (String.eqb s "")
  | Frac _ _ | Infinite _ | Ref _ _ => true
  end.

(** [a || b]. *)
Definition or_else (a b : value) : value := if truthy a then a else b.

(** [ids.includes(v)] compares with SameValueZero: like [===], but NaN is
    found. *)
Definition same_value_zero (a b : value) : bool :=
  match a, b with
  | NaN, NaN => true
  | _, _ => strict_eq a b
  end.

Definition includes (ids : list value) (v : value) : bool :=
  existsb (fun i => same_value_zero i v) ids.

(** How the awaited API call of an action ends: with its data, or with an
    error whose [userMessage] is given. *)
Inductive outcome (A : Type) : Type :=
  | Resolved (data : A)
  | Rejected (userMessage : value).

Arguments Resolved {A} data.
Arguments Rejected {A} userMessage.

(** What an action returns: [{success: true, camera}], [{success: true}] or
    [{success: false, error}]. *)
Inductive reply : Type :=
  | Success (camera : option object)
  | Failure (error : value).

End StoreActions.

Module CameraActions.

Import Js StoreActions CameraStore.

(** The catch branch shared by createCamera, updateCamera and deleteCamera. *)
Definition failed (fallback : string) (userMessage : value) (st : state) : state * reply :=
  (mkState (cameras st) (selectedCamera st) false
     (or_else userMessage (Str fallback)) (filters st),
   Failure (or_else userMessage (Str fallback))).

(** createCamera, once [camerasAPI.createCamera] has settled. *)
Definition createCamera (api : outcome object) (st : state) : state * reply :=
  match api with
  | Resolved camera =>
      (mkState (cameras st ++ [camera]) (selectedCamera st) false Null (filters st),
       Success (Some camera))
  | Rejected msg => failed "Ошибка создания камеры" msg st
  end.

(** updateCamera. *)
Definition updateCamera (cameraId : value) (api : outcome object) (st : state)
  : state * reply :=
  match api with
  | Resolved camera =>
      (mkState
         (map (fun c => if strict_eq (get c "id") cameraId then camera else c)
              (cameras st))
         (if strict_eq (get_opt (selectedCamera st) "id") cameraId
          then Some camera else selectedCamera st)
         false Null (filters st),
       Success (Some camera))
  | Rejected msg => failed "Ошибка обновления камеры" msg st
  end.

(** deleteCamera. *)
Definition deleteCamera (cameraId : value) (api : outcome unit) (st : state)
  : state * reply :=
  match api with
  | Resolved _ =>
      (mkState
         (List.filter (fun c => negb (strict_eq (get c "id") cameraId)) (cameras st))
         (if strict_eq (get_opt (selectedCamera st) "id") cameraId
          then None else selectedCamera st)
         false Null (filters st),
       Success None)
  | Rejected msg => failed "Ошибка удаления камеры" msg st
  end.

(** selectCamera and clearSelectedCamera. *)
Definition selectCamera (camera : option object) (st : state) : state :=
  mkState (cameras st) camera (isLoading st) (error st) (filters st).

Definition clearSelectedCamera (st : state) : state := selectCamera None st.

(** setFilters: [{...get().filters, ...filters}]. *)
Definition setFilters (new : object) (st : state) : state :=
  mkState (cameras st) (selectedCamera st) (isLoading st) (error st)
    (spread (filters st) new).

(** clearFilters. *)
Definition clearFilters (st : state) : state :=
  mkState (cameras st) (selectedCamera st) (isLoading st) (error st)
    (<["status" := Str "all"]> (<["search" := Str ""]> ∅)).

Section Filtering.

(** [String.prototype.toLowerCase] is the engine's; it stays a parameter. *)
Variable toLowerCase : string -> string.

Fixpoint starts_with (needle hay : string) : bool :=
  match needle, hay with
  | EmptyString, _ => true
  | String a n', String b h' => Ascii.eqb a b && starts_with n' h'
  | String _ _, EmptyString => false
  end.

(** [hay.includes(needle)]. *)
Fixpoint str_includes (hay needle : string) : bool :=
  starts_with needle hay ||
  match hay with
  | EmptyString => false
  | String _ rest => str_includes rest needle
  end.

(** [v.toLowerCase()]: a string method; on anything else the call throws
    ([None]). *)
Definition lower (v : value) : option string :=
  match v with
  | Str s => Some (toLowerCase s)
  | _ => None
  end.

(** The callback of getFilteredCameras for one camera; [None] when it
    throws a TypeError. The operands of [||] and [&&] are evaluated left to
    right and only as far as needed. *)
Definition camera_matches (flt c : object) : option bool :=
  let matchesStatus :=
    strict_eq (get flt "status") (Str "all") ||
    strict_eq (get c "status") (get flt "status") in
  matchesSearch ←
    (if negb (truthy (get flt "search")) then Some true
     else
       name ← lower (get c "name");
       needle ← lower (get flt "search");
       if str_includes name needle then Some true
       else if negb (truthy (get c "description")) then Some false
       else
         description ← lower (get c "description");
         needle' ← lower (get flt "search");
         Some (str_includes description needle'));
  Some (matchesStatus && matchesSearch).

(** [cameras.filter(callback)]: the callback's exception ends the filter. *)
Fixpoint filter_throwing (f : object -> option bool) (l : list object)
  : option (list object) :=
  match l with
  | [] => Some []
  | c :: rest =>
      match f c with
      | None => None
      | Some keep =>
          match filter_throwing f rest with
          | None => None
          | Some kept => Some (if keep then c :: kept else kept)
          end
      end
  end.

(** getFilteredCameras. *)
Definition getFilteredCameras (st : state) : option (list object) :=
  filter_throwing (camera_matches (filters st)) (cameras st).

End Filtering.

(** hooks/useCameras.js: the selectors over the store's camera list. *)
Definition getCameraById (cameraId : value) (st : state) : option object :=
  List.find (fun c => strict_eq (get c "id") cameraId) (cameras st).

Definition camerasWithStatus (status : string) (st : state) : list object :=
  List.filter (fun c => strict_eq (get c "status") (Str status)) (cameras st).

Definition getOnlineCameras : state -> list object := camerasWithStatus "online".
Definition getOfflineCameras : state -> list object := camerasWithStatus "offline".
Definition getErrorCameras : state -> list object := camerasWithStatus "error".

End CameraActions.

Module EventActions.

Import Js StoreActions EventStore.

(** [{...e, viewed: true}]. *)
Definition viewed (e : option object) : object :=
  <["viewed" := Bool true]> (default ∅ e).

(** markAsViewed, once [eventsAPI.markAsViewed] has settled. *)
Definition markAsViewed (eventId : value) (api : outcome unit) (st : state)
  : state * reply :=
  match api with
  | Resolved _ =>
      (mkState
         (map (fun e => if strict_eq (get e "id") eventId then viewed (Some e) else e)
              (events st))
         (if strict_eq (get_opt (selectedEvent st) "id") eventId
          then Some (viewed (selectedEvent st)) else selectedEvent st)
         (isLoading st) (error st) (filters st),
       Success None)
  | Rejected msg =>
      (mkState (events st) (selectedEvent st) (isLoading st)
         (or_else msg (Str "Ошибка отметки события")) (filters st),
       Failure (or_else msg (Str "Ошибка отметки события")))
  end.

(** markManyAsViewed. *)
Definition markManyAsViewed (eventIds : list value) (api : outcome unit) (st : state)
  : state * reply :=
  match api with
  | Resolved _ =>
      (mkState
         (map (fun e => if includes eventIds (get e "id") then viewed (Some e) else e)
              (events st))
         (match selectedEvent st with
          | Some sel =>
              if includes eventIds (get sel "id") then Some (viewed (Some sel))
              else Some sel
          | None => None
          end)
         (isLoading st) (error st) (filters st),
       Success None)
  | Rejected msg =>
      (mkState (events st) (selectedEvent st) (isLoading st)
         (or_else msg (Str "Ошибка отметки событий")) (filters st),
       Failure (or_else msg (Str "Ошибка отметки событий")))
  end.

(** deleteEvent. *)
Definition deleteEvent (eventId : value) (api : outcome unit) (st : state)
  : state * reply :=
  match api with
  | Resolved _ =>
      (mkState
         (List.filter (fun e => negb (strict_eq (get e "id") eventId)) (events st))
         (if strict_eq (get_opt (selectedEvent st) "id") eventId
          then None else selectedEvent st)
         false Null (filters st),
       Success None)
  | Rejected msg =>
      (mkState (events st) (selectedEvent st) false
         (or_else msg (Str "Ошибка удаления события")) (filters st),
       Failure (or_else msg (Str "Ошибка удаления события")))
  end.

(** hooks/useEvents.js: the selectors over the store's event list. The
    limit of getRecentEvents is a non-negative integer. *)
Definition getEventById (eventId : value) (st : state) : option object :=
  List.find (fun e => strict_eq (get e "id") eventId) (events st).

Definition getEventsByCamera (cameraId : value) (st : state) : list object :=
  List.filter (fun e => strict_eq (get e "cameraId") cameraId) (events st).

Definition getUnviewedEvents (st : state) : list object :=
  List.filter (fun e => negb (truthy (get e "viewed"))) (events st).

Definition getRecentEvents (limit : nat) (st : state) : list object :=
  take limit (events st).

End EventActions.

(* ===================================================================== *)
(** * hooks/useWebSocket.js: sendMessage and what the hook returns *)
(* ===================================================================== *)

Module WebSocketUse.

Import WebSocketHook.


(** sendMessage: the socket the message is written to, or [None] when the
    hook only warns that the socket is not connected. *)
Definition sendMessage (w : world) : option positive :=
  match wsRef w with
  | Some s =>
      match sockets w !! s with
      | Some OPEN => Some s
      | _ => None
      end
  | None => None
  end.

(** [isConnected], when the hook renders in this state. *)
Definition isConnected (w : world) : bool :=
  match sendMessage w with
  | Some _ => true
  | None => false
  end.

(** The action gives the hook a token. *)
Definition logs_in (a : action) : bool :=
  match a with
  | TokenChange (Some _) => true
  | _ => false
  end.

(** Socket numbers are handed out in increasing order: every socket of the
    world was created before the next one to come. *)
Definition numbered (w : world) : Prop :=
  forall s, is_Some (sockets w !! s) -> (s < next_socket w)%positive.

(** The sockets of [w'] are those of [w], perhaps in another state. *)
Definition same_sockets (w w' : world) : Prop :=
  token w' = token w /\ next_socket w' = next_socket w /\
  forall s, is_Some (sockets w' !! s) <-> is_Some (sockets w !! s).

End WebSocketUse.

(* ===================================================================== *)
(** * utils/format.js: validateField, loginSchema, parseInt and isValidPort *)
(* ===================================================================== *)

Module ValidationUse.

Import Js Validation.

(** [shape[field]] on the keys the schema declares. *)
Fixpoint shape_lookup (field : string) (shape : list (string * ztype)) : option ztype :=
  match shape with
  | [] => None
  | (key, t) :: rest => if String.eqb key field then Some t else shape_lookup field rest
  end.

(** The property names every plain object inherits from Object.prototype:
    [shape[field]] is truthy for them although the schema has no such key. *)
Definition inherited_names : list string :=
  [ "constructor"; "hasOwnProperty"; "isPrototypeOf"; "propertyIsEnumerable";
    "toLocaleString"; "toString"; "valueOf"; "__proto__";
    "__defineGetter__"; "__defineSetter__"; "__lookupGetter__"; "__lookupSetter__" ].

Record field_validation : Type := mkFieldValidation {
  field_success : bool;
  field_error : option string
}.

(** [message || 'Ошибка валидации']. *)
Definition or_generic (message : string) : string :=
  if String.eqb message "" then "Ошибка валидации" else message.

Section Fields.

Variable isUrl : string -> bool.

(** validateField: the first issue's message when the field's schema
    rejects the value; success when the shape has no such field; the generic
    error when [shape[field]] is an inherited property, whose [parse] is not
    a function. *)
Definition validateField (shape : list (string * ztype)) (field : string) (v : value)
  : field_validation :=
  match shape_lookup field shape with
  | Some t =>
      match parse isUrl t v with
      | [] => mkFieldValidation true None
      | first :: _ => mkFieldValidation false (Some (or_generic first))
      end
  | None =>
      if existsb (String.eqb field) inherited_names
      then mkFieldValidation false (Some "Ошибка валидации")
      else mkFieldValidation true None
  end.

End Fields.

(** loginSchema. *)
Definition loginSchema : list (string * ztype) :=
  [ ("username", ZString [SMin 1 "Имя пользователя обязательно"; SMin 3 "Минимум 3 символа"]);
    ("password", ZString [SMin 1 "Пароль обязателен"; SMin 6 "Минимум 6 символов"]) ].

End ValidationUse.

Module FormatUse.

Import Format.

Local Open Scope N_scope.

(** How many times a character occurs in a string. *)
Fixpoint occurrences (c : ascii) (s : string) : nat :=
  match s with
  | EmptyString => O
  | String a rest => ((if Ascii.eqb a c then 1 else 0) + occurrences c rest)%nat
  end.

(** [parseInt(s, 10)] on a string: leading white space is skipped, a sign
    is read, then the digits up to the first other character; the result is
    NaN when no digit is found there, and the double nearest to the number
    the digits write otherwise (beyond 20 significant digits the standard
    lets an implementation round a little differently). *)
Definition parseInt (s : string) : jsnum :=
  let '(negative, body) := split_sign (skip_spaces s) in
  match digit_prefix body with
  | EmptyString => NotANumber
  | digits =>
      match NilEmpty.uint_of_string digits with
      | Some d => signed negative (nearest (N.of_uint d) 1)
      | None => NotANumber
      end
  end.

(** isValidPort, on a string. *)
Definition isValidPort (port : string) : bool :=
  let num := parseInt port in
  negb (isNaN num) && at_least num 1 && at_most num 65535.

End FormatUse.

(* ===================================================================== *)
(** * utils/format.js: the validators written with regular expressions *)
(* ===================================================================== *)

Module RegExp.

(** The regular expressions of the validators use classes, sequence,
    alternative and counted or unbounded repetition, anchored at both ends
    and without flags; whether [test] accepts a string is then a matter of
    the regular language alone. *)
Inductive regex : Type :=
  | Never
  | Empty
  | Class (p : ascii -> bool)
  | Seq (r1 r2 : regex)
  | Alt (r1 r2 : regex)
  | Star (r : regex).

(** [r?], [r+], [r{n}], [r{0,n}] and [r{lo,hi}]. *)
Definition Opt (r : regex) : regex := Alt Empty r.
Definition Plus (r : regex) : regex := Seq r (Star r).

Fixpoint Times (n : nat) (r : regex) : regex :=
  match n with
  | O => Empty
  | S n' => Seq r (Times n' r)
  end.

Fixpoint UpTo (n : nat) (r : regex) : regex :=
  match n with
  | O => Empty
  | S n' => Opt (Seq r (UpTo n' r))
  end.

Definition Between (lo hi : nat) (r : regex) : regex :=
  Seq (Times lo r) (UpTo (hi - lo) r).

Fixpoint nullable (r : regex) : bool :=
  match r with
  | Never => false
  | Empty => true
  | Class _ => false
  | Seq r1 r2 => nullable r1 && nullable r2
  | Alt r1 r2 => nullable r1 || nullable r2
  | Star _ => true
  end.

(** What is left of [r] to match after the character [a]. *)
Fixpoint deriv (a : ascii) (r : regex) : regex :=
  match r with
  | Never => Never
  | Empty => Never
  | Class p => if p a then Empty else Never
  | Seq r1 r2 =>
      if nullable r1 then Alt (Seq (deriv a r1) r2) (deriv a r2)
      else Seq (deriv a r1) r2
  | Alt r1 r2 => Alt (deriv a r1) (deriv a r2)
  | Star r' => Seq (deriv a r') (Star r')
  end.

(** [/^r$/.test(s)]. *)
Fixpoint test (r : regex) (s : string) : bool :=
  match s with
  | EmptyString => nullable r
  | String a rest => test (deriv a r) rest
  end.

(** The strings a regular expression matches in full. *)
Inductive lang : regex -> string -> Prop :=
  | lang_Empty : lang Empty EmptyString
  | lang_Class p a : p a = true -> lang (Class p) (String a EmptyString)
  | lang_Seq r1 r2 s1 s2 : lang r1 s1 -> lang r2 s2 -> lang (Seq r1 r2) (s1 +:+ s2)
  | lang_Alt_l r1 r2 s : lang r1 s -> lang (Alt r1 r2) s
  | lang_Alt_r r1 r2 s : lang r2 s -> lang (Alt r1 r2) s
  | lang_Star_nil r : lang (Star r) EmptyString
  | lang_Star_cons r s1 s2 : lang r s1 -> lang (Star r) s2 -> lang (Star r) (s1 +:+ s2).

End RegExp.

Module Validators.

Import RegExp Format FormatUse.

Local Open Scope N_scope.

(** A character class given by a range of code units, [[lo-hi]]. *)
Definition in_range (lo hi : N) (a : ascii) : bool :=
  (lo <=? N_of_ascii a) && (N_of_ascii a <=? hi).

Definition chr (c : ascii) : regex := Class (Ascii.eqb c).
Definition digit : regex := Class is_digit.                        (* \d *)

(** [/^(\d{1,3}\.){3}\d{1,3}$/]. *)
Definition ipRegex : regex :=
  Seq (Times 3 (Seq (Between 1 3 digit) (chr "."))) (Between 1 3 digit).

(** Four fields written with dots between them. *)
Definition dotted (a b c d : string) : string :=
  a +:+ "." +:+ b +:+ "." +:+ c +:+ "." +:+ d.

(** isValidIP, on a string. *)
Definition isValidIP (ip : string) : bool :=
  if negb (test ipRegex ip) then false
  else forallb (fun octet =>
                  let num := parseInt octet in
                  at_least num 0 && at_most num 255)
               (split "." ip).

(** [/^([01]?[0-9]|2[0-3]):[0-5][0-9]$/], the hours, then the minutes. *)
Definition hourRegex : regex :=
  Alt (Seq (Opt (Class (in_range 48 49))) (Class (in_range 48 57)))
      (Seq (chr "2") (Class (in_range 48 51))).

Definition minuteRegex : regex :=
  Seq (Class (in_range 48 53)) (Class (in_range 48 57)).

Definition timeRegex : regex :=
  Seq hourRegex (Seq (chr ":") minuteRegex).

(** isValidTime, on a string. *)
Definition isValidTime (time : string) : bool := test timeRegex time.

(** [[^\s@]], among the code units below 256. *)
Definition not_space_or_at (a : ascii) : bool :=
  negb (is_space a) && negb (Ascii.eqb a "@").

(** [/^[^\s@]+@[^\s@]+\.[^\s@]+$/]. *)
Definition emailRegex : regex :=
  Seq (Plus (Class not_space_or_at))
      (Seq (chr "@")
           (Seq (Plus (Class not_space_or_at))
                (Seq (chr ".") (Plus (Class not_space_or_at))))).

(** isValidEmail, on a string. *)
Definition isValidEmail (email : string) : bool := test emailRegex email.

(** Every character of the text is in the class. *)
Fixpoint all_chars (p : ascii -> bool) (s : string) : bool :=
  match s with
  | EmptyString => true
  | String a rest => p a && all_chars p rest
  end.

(** A text of [lo] to [hi] decimal digits. *)
Definition digits_between (lo hi : nat) (s : string) : Prop :=
  (lo <= String.length s <= hi)%nat /\ all_chars is_digit s = true.

End Validators.

(* ===================================================================== *)
(** * Properties *)
(* ===================================================================== *)

Example formatDuration_3725 : Format.formatDuration (Some 3725%N) = "1:02:05".
Proof. reflexivity. Qed.
Example formatDuration_59 : Format.formatDuration (Some 59%N) = "0:59".
Proof. reflexivity. Qed.
Example parseDuration_013045 : Format.parseDuration "01:30:45" = Format.Number_ 5445.
Proof. reflexivity. Qed.

Section DurationRoundTrip.

Import Format DurationShapes.
Local Open Scope N_scope.


Lemma pow2_pos (k : N) : 0 < 2 ^ k.
Proof. apply N.neq_0_lt_0, N.pow_nonzero. lia. Qed.

Lemma log2_bounds (a : N) : 0 < a -> 2 ^ N.log2 a <= a < 2 ^ (N.log2 a + 1).
Proof. intros H. rewrite N.add_1_r. by apply N.log2_spec. Qed.

Lemma round_half_even_cases (num den : N) :
  round_half_even num den = num / den \/
  (round_half_even num den = num / den + 1 /\ den <= 2 * (num mod den)).
Proof.
  unfold round_half_even.
  destruct (N.ltb_spec den (2 * (num mod den))); simpl; [right; lia|].
  destruct (N.eqb_spec (2 * (num mod den)) den); simpl; [|by left].
  destruct (N.odd (num / den)); [right; lia | by left].
Qed.

Lemma round_half_even_exact (a den : N) :
  0 < den -> round_half_even (a * den) den = a.
Proof.
  intros Hden. unfold round_half_even.
  rewrite N.div_mul, N.Div0.mod_mul by lia.
  replace (2 * 0) with 0 by lia.
  destruct (N.ltb_spec den 0); [lia|].
  destruct (N.eqb_spec 0 den); [lia|]. done.
Qed.

Lemma round_half_even_0 (den : N) : 0 < den -> round_half_even 0 den = 0.
Proof.
  intros Hden. replace 0 with (0 * den) at 1 by lia.
  by apply round_half_even_exact.
Qed.

Lemma round_half_even_1 (a : N) : round_half_even a 1 = a.
Proof.
  replace a with (a * 1) at 1 by lia. by apply round_half_even_exact.
Qed.

(** For a dividend below 2^53, the exponent of the last place is negative
    or the divisor is 1. *)
Lemma exponent_small (p q : N) :
  0 < p < 2 ^ 53 -> 0 < q ->
  exists k : N,
    exponent p q = (- Z.of_N k)%Z /\
    (k = 0 -> q = 1) /\
    (2 ^ 52 <= p * 2 ^ k / q \/ k = 1074).
Proof.
  intros [Hp0 Hp] Hq. unfold exponent.
  destruct (log2_bounds p Hp0) as [Hlp1 Hlp2].
  destruct (log2_bounds q Hq) as [Hlq1 Hlq2].
  assert (N.log2 p <= 52) as Hlp.
  { apply N.lt_succ_r. apply (N.pow_lt_mono_r_iff 2); [lia|]. simpl. lia. }
  set (lp := N.log2 p) in *. set (lq := N.log2 q) in *.
  set (e0 := Z.max (Z.of_N lp - Z.of_N lq - 53) (-1074)).
  assert (e0 < 0)%Z as He0 by lia.
  set (k0 := Z.to_N (- e0)).
  assert (e0 = - Z.of_N k0)%Z as He0k by lia.
  assert (1 <= k0 <= 1074) as Hk0 by lia.
  unfold scaled. destruct (Z.leb_spec 0 e0) as [|_]; [lia|]. fold k0.
  assert (2 ^ 52 <= p * 2 ^ k0 / q \/ k0 = 1074) as Hnormal.
  { destruct (decide (k0 = 1074)) as [|Hne]; [by right|]. left.
    assert (k0 = 53 + lq - lp) as Hk by lia.
    apply N.div_le_lower_bound; [lia|].
    assert (2 ^ (lq + 1) * 2 ^ 52 <= p * 2 ^ k0); [|nia].
    rewrite <- N.pow_add_r.
    replace (lq + 1 + 52) with (lp + k0) by lia.
    rewrite N.pow_add_r. apply N.mul_le_mono_r. done. }
  destruct (N.leb_spec (2 ^ 53) (p * 2 ^ k0 / q)) as [Hbig|Hsmall].
  - exists (k0 - 1). split; [lia|].
    assert (p * 2 ^ k0 = p * 2 ^ (k0 - 1) * 2) as Hdouble.
    { replace k0 with (k0 - 1 + 1) at 1 by lia. rewrite N.pow_add_r. simpl. lia. }
    assert (p * 2 ^ (k0 - 1) / q * 2 <= p * 2 ^ k0 / q <= p * 2 ^ (k0 - 1) / q * 2 + 1)
      as Hhalf.
    { rewrite Hdouble. clear -Hq.
      set (a := p * 2 ^ (k0 - 1)).
      pose proof (N.div_mod a q ltac:(lia)) as Ha.
      pose proof (N.mod_lt a q ltac:(lia)) as Hr.
      set (d := a / q) in *. set (r := a mod q) in *.
      split.
      - apply N.div_le_lower_bound; [lia|]. lia.
      - apply N.lt_succ_r. apply N.Div0.div_lt_upper_bound. lia. }
    split.
    + intros Hk. assert (k0 = 1) as Hk1 by lia. rewrite Hk1 in Hbig.
      simpl in Hbig. change (2 ^ 1) with 2 in Hbig.
      assert (2 ^ 53 * q <= p * 2).
      { pose proof (N.Div0.mul_div_le (p * 2) q). nia. }
      assert (q < 2) by nia. lia.
    + left. change (2 ^ 53) with (2 ^ 52 * 2) in Hbig. lia.
  - exists k0. split; [done|]. split; [lia | done].
Qed.

(** Dividing two integers in doubles and taking the floor is the integer
    quotient, as long as the dividend is below 2^53. *)
Lemma Math_floor_round (p q : N) :
  p < 2 ^ 53 -> 0 < q -> Math_floor (round p q) = p / q.
Proof.
  intros Hp Hq.
  destruct (decide (p = 0)) as [->|Hp0].
  { unfold round. generalize (exponent 0 q). intros e. unfold scaled, Math_floor.
    assert (forall den, 0 < den -> round_half_even 0 den = 0) as Hzero.
    { intros den Hden. replace 0 with (0 * den) at 1 by lia.
      by apply round_half_even_exact. }
    pose proof (pow2_pos (Z.to_N e)) as Hpow.
    rewrite N.Div0.div_0_l.
    destruct (0 <=? e)%Z; rewrite ?N.mul_0_l.
    - rewrite Hzero by (apply N.mul_pos_pos; lia). by destruct (0 <=? e)%Z.
    - rewrite Hzero by done. by destruct (0 <=? e)%Z. }
  destruct (exponent_small p q) as (k & He & Hk0 & Hnormal); [lia | done |].
  assert (round p q = (round_half_even (p * 2 ^ k) (if decide (k = 0) then 1 else q),
                       (- Z.of_N k)%Z)) as ->.
  { unfold round. rewrite He. unfold scaled.
    destruct (decide (k = 0)) as [->|Hk].
    - rewrite (Hk0 eq_refl). simpl. change (2 ^ 0) with 1. by rewrite !N.mul_1_r.
    - destruct (Z.leb_spec 0 (- Z.of_N k)) as [|_]; [lia|].
      by replace (Z.to_N (- - Z.of_N k)) with k by lia. }
  assert (forall m, Math_floor (m, (- Z.of_N k)%Z) = m / 2 ^ k) as ->.
  { intros m. unfold Math_floor. destruct (Z.leb_spec 0 (- Z.of_N k)).
    - assert (k = 0) as -> by lia. simpl. rewrite N.div_1_r. lia.
    - by replace (Z.to_N (- - Z.of_N k)) with k by lia. }
  destruct (decide (k = 0)) as [->|Hk].
  - rewrite (Hk0 eq_refl). change (2 ^ 0) with 1.
    rewrite round_half_even_exact by lia. by rewrite !N.div_1_r.
  - pose proof (pow2_pos k) as Hpow.
    assert (p * 2 ^ k / q / 2 ^ k = p / q) as Hfloor.
    { rewrite N.Div0.div_div. rewrite N.Div0.div_mul_cancel_r; lia. }
    destruct (round_half_even_cases (p * 2 ^ k) q) as [-> | [-> Hup]]; [done|].
    rewrite <- Hfloor.
    set (a := p * 2 ^ k) in *. set (m := a / q) in *.
    (* m + 1 is a multiple of 2^k only if the quotient is too large *)
    pose proof (N.div_mod a q ltac:(lia)) as Ha. fold m in Ha.
    pose proof (N.mod_lt a q ltac:(lia)) as Hr.
    pose proof (N.div_mod m (2 ^ k) ltac:(lia)) as Hm.
    pose proof (N.mod_lt m (2 ^ k) ltac:(lia)) as Hmr.
    destruct (decide (m mod 2 ^ k + 1 = 2 ^ k)) as [Hfull|Hnot].
    + exfalso.
      set (n := m / 2 ^ k + 1).
      assert (m + 1 = n * 2 ^ k) as Hn by (unfold n; lia).
      (* r = q - 2^k * d with d = n q - p >= 1 *)
      assert (a + q = n * 2 ^ k * q + a mod q) as Hsum by nia.
      assert (p < n * q) as Hlt.
      { apply (N.mul_lt_mono_pos_r (2 ^ k)); [lia|]. fold a. nia. }
      assert (2 ^ k * 2 * (n * q - p) <= q) as Hq2.
      { assert (2 ^ k * (n * q - p) + a mod q = q); [|lia].
        rewrite N.mul_sub_distr_l. unfold a in Hsum. nia. }
      destruct Hnormal as [Hnorm | ->].
      * fold a m in Hnorm.
        assert (2 ^ 52 + 1 <= n * 2 ^ k) as Hbig by lia.
        assert (2 ^ 53 + 2 <= n * (2 ^ k * 2)) as Hbig2.
        { change (2 ^ 53) with (2 ^ 52 * 2). lia. }
        assert (n * (2 ^ k * 2) * (n * q - p) <= n * q) as H1.
        { rewrite <- N.mul_assoc. apply N.mul_le_mono_l. lia. }
        assert ((2 ^ 53 + 2) * (n * q - p) <= n * q) as H2.
        { etransitivity; [|exact H1]. apply N.mul_le_mono_r. done. }
        assert (1 <= n * q - p) as Hd by lia.
        set (d := n * q - p) in *.
        assert (n * q = p + d) as Hnq by lia.
        rewrite Hnq in H2. clear -H2 Hd Hp.
        change (2 ^ 53) with 9007199254740992 in *. nia.
      * assert (m < 2 ^ 53).
        { apply N.Div0.div_lt_upper_bound. unfold a.
          assert (2 ^ 1074 * 2 <= q) as Hqbig.
          { assert (1 <= n * q - p) by lia.
            etransitivity; [|exact Hq2]. nia. }
          nia. }
        assert (1 <= n) by (unfold n; lia).
        assert (2 ^ 53 < 2 ^ 1074) by (apply N.pow_lt_mono_r; lia).
        nia.
    + clear -Hm Hmr Hnot Hpow.
      symmetry. apply (N.div_unique (m + 1) (2 ^ k) (m / 2 ^ k) (m mod 2 ^ k + 1)); lia.
Qed.

Lemma lowest_terms_shift (k : N) : forall a m : positive,
  Npos a = Npos m * 2 ^ k -> lowest_terms a k = Number_ (Z.pos m).
Proof.
  induction k as [|k IH] using N.peano_ind; intros a m Ha.
  - rewrite N.pow_0_r, N.mul_1_r in Ha. injection Ha as ->. by destruct m.
  - rewrite N.pow_succ_r', N.mul_assoc, (N.mul_comm (N.pos m)), <- N.mul_assoc in Ha.
    destruct (N.pos m * 2 ^ k) as [|a'] eqn:Ha'; [done|].
    simpl in Ha. injection Ha as ->.
    destruct k as [|k']; simpl.
    + by apply (IH a' m).
    + rewrite Pos.pred_N_succ. by apply (IH a' m).
Qed.

(** An integer below 2^53 is a double. *)
Lemma nearest_small (p : N) : p < 2 ^ 53 -> nearest p 1 = Number_ (Z.of_N p).
Proof.
  intros Hp. destruct (decide (p = 0)) as [->|Hp0].
  { unfold nearest, round. generalize (exponent 0 1). intros e. unfold scaled.
    pose proof (pow2_pos (Z.to_N e)) as Hpow.
    destruct (0 <=? e)%Z eqn:E; cbv beta iota; rewrite E.
    - rewrite round_half_even_0 by (apply N.mul_pos_pos; lia).
      rewrite N.mul_0_l. by change (2 ^ 1024 <=? 0) with false.
    - by rewrite N.mul_0_l, round_half_even_0 by lia. }
  destruct (exponent_small p 1) as (k & He & _ & _); [lia | lia |].
  assert (round p 1 = (p * 2 ^ k, (- Z.of_N k)%Z)) as Hround.
  { unfold round. rewrite He. unfold scaled.
    destruct (Z.leb_spec 0 (- Z.of_N k)).
    - assert (k = 0) as -> by lia. simpl. change (2 ^ 0) with 1.
      rewrite !N.mul_1_r. by rewrite round_half_even_1.
    - replace (Z.to_N (- - Z.of_N k)) with k by lia.
      by rewrite round_half_even_1. }
  unfold nearest. rewrite Hround.
  pose proof (pow2_pos k) as Hpow.
  destruct (decide (k = 0)) as [->|Hk].
  - simpl. rewrite !N.pow_0_r, !N.mul_1_r.
    destruct (N.leb_spec (2 ^ 1024) p) as [Hbig|_].
    { assert (2 ^ 53 < 2 ^ 1024) by (apply N.pow_lt_mono_r; lia). lia. }
    unfold dyadic. destruct p; [done|]. simpl. by rewrite Pos.mul_1_r.
  - destruct (Z.leb_spec 0 (- Z.of_N k)) as [|_]; [lia|]. simpl.
    unfold dyadic. destruct (p * 2 ^ k) as [|a] eqn:Ha; [nia|].
    destruct (Z.leb_spec 0 (- Z.of_N k)) as [|_]; [lia|].
    replace (Z.to_N (- - Z.of_N k)) with k by lia.
    destruct p as [|m]; [done|]. by apply lowest_terms_shift.
Qed.

(** An integer from 2^53 on is rounded to a double that is no smaller
    than 2^53, or to Infinity. *)
Lemma nearest_large (p : N) :
  2 ^ 53 <= p ->
  nearest p 1 = Infinity_ false \/
  exists z, nearest p 1 = Number_ z /\ (2 ^ 53 <= z)%Z.
Proof.
  intros Hp.
  assert (0 < p) as Hp0.
  { pose proof (pow2_pos 53). lia. }
  destruct (log2_bounds p Hp0) as [Hlp1 Hlp2].
  assert (53 <= N.log2 p) as Hlp.
  { apply N.lt_succ_r. rewrite <- N.add_1_r.
    apply (N.pow_lt_mono_r_iff 2); [lia|]. lia. }
  set (lp := N.log2 p) in *.
  assert (exponent p 1 = Z.of_N (lp - 52)) as He.
  { unfold exponent. fold lp. change (N.log2 1) with 0.
    replace (Z.max (Z.of_N lp - Z.of_N 0 - 53) (-1074)) with (Z.of_N (lp - 53)) by lia.
    unfold scaled. destruct (Z.leb_spec 0 (Z.of_N (lp - 53))); [|lia].
    rewrite N2Z.id, N.mul_1_l.
    destruct (N.leb_spec (2 ^ 53) (p / 2 ^ (lp - 53))) as [|Hsmall]; [lia|].
    exfalso.
    assert (2 ^ lp = 2 ^ (lp - 53) * 2 ^ 53) as Hsplit.
    { rewrite <- N.pow_add_r. f_equal. lia. }
    pose proof (pow2_pos (lp - 53)) as Hpow.
    pose proof (N.div_mod p (2 ^ (lp - 53)) ltac:(lia)) as Hdiv.
    pose proof (N.mod_lt p (2 ^ (lp - 53)) ltac:(lia)) as Hmod.
    rewrite Hsplit in Hlp1.
    set (d := 2 ^ (lp - 53)) in *. set (x := p / d) in *. set (r := p mod d) in *.
    clearbody d x r. clear -Hlp1 Hsmall Hdiv Hmod. nia. }
  assert ((0 <=? Z.of_N (lp - 52))%Z = true) as E by (apply Z.leb_le; lia).
  unfold nearest, round. rewrite He. unfold scaled. rewrite E. cbv beta iota.
  rewrite E, N2Z.id, N.mul_1_l. simpl andb.
  set (m := round_half_even p (2 ^ (lp - 52))).
  destruct (2 ^ 1024 <=? m * 2 ^ (lp - 52)); [by left|]. right.
  pose proof (pow2_pos (lp - 52)) as Hpow.
  assert (2 ^ 52 <= m) as Hm.
  { assert (2 ^ 52 <= p / 2 ^ (lp - 52)) as Hq.
    { apply N.div_le_lower_bound; [lia|].
      rewrite <- N.pow_add_r. replace (lp - 52 + 52) with lp by lia. done. }
    unfold m. destruct (round_half_even_cases p (2 ^ (lp - 52))) as [-> | [-> _]]; lia. }
  unfold dyadic. destruct m as [|m'] eqn:Hm'; [by compute in Hm|].
  rewrite E, N2Z.id. eexists. split; [done|].
  assert (2 ^ 53 <= N.pos m' * 2 ^ (lp - 52)).
  { change (2 ^ 53) with (2 ^ 52 * 2 ^ 1).
    apply N.mul_le_mono; [done|]. apply N.pow_le_mono_r; lia. }
  change (2 ^ 53)%Z with (Z.of_N (2 ^ 53)). lia.
Qed.

Lemma jmul_small (a b : N) :
  a * b < 2 ^ 53 ->
  jmul (Number_ (Z.of_N a)) (Number_ (Z.of_N b)) = Number_ (Z.of_N (a * b)).
Proof.
  intros H. unfold jmul. simpl. unfold of_fraction.
  destruct (Z.ltb_spec (Z.of_N a * Z.of_N b) 0); [lia|]. simpl.
  change (2 ^ 0) with 1.
  replace (Z.abs_N (Z.of_N a * Z.of_N b)) with (a * b) by lia.
  by apply nearest_small.
Qed.

Lemma jadd_small (a b : N) :
  a + b < 2 ^ 53 ->
  jadd (Number_ (Z.of_N a)) (Number_ (Z.of_N b)) = Number_ (Z.of_N (a + b)).
Proof.
  intros H. unfold jadd. simpl. unfold of_fraction.
  rewrite !Z.mul_1_r.
  destruct (Z.ltb_spec (Z.of_N a + Z.of_N b) 0); [lia|]. simpl.
  change (2 ^ 0) with 1.
  replace (Z.abs_N (Z.of_N a + Z.of_N b)) with (a + b) by lia.
  by apply nearest_small.
Qed.


Lemma split_without_sep sep s :
  contains sep s = false -> split sep s = [s].
Proof.
  induction s as [|a s IH]; simpl; [done|].
  destruct (Ascii.eqb a sep); simpl; [done|].
  intros H. by rewrite (IH H).
Qed.

Lemma split_at_sep sep s t :
  contains sep s = false ->
  split sep (s +:+ String sep t) = s :: split sep t.
Proof.
  induction s as [|a s IH]; simpl.
  - intros _. by rewrite Ascii.eqb_refl.
  - destruct (Ascii.eqb a sep); simpl; [done|].
    intros H. by rewrite (IH H).
Qed.

Lemma contains_append c s t :
  contains c (s +:+ t) = contains c s || contains c t.
Proof.
  induction s as [|a s IH]; simpl; [done|].
  by rewrite IH, orb_assoc.
Qed.

Lemma contains_zeros k : contains ":" (zeros k) = false.
Proof. induction k; simpl; auto. Qed.

Lemma contains_digits d : contains ":" (NilEmpty.string_of_uint d) = false.
Proof. induction d; simpl; auto. Qed.

Lemma contains_String_of n : contains ":" (String_of n) = false.
Proof. apply contains_digits. Qed.

Lemma contains_padStart0 w n : contains ":" (padStart0 w (String_of n)) = false.
Proof.
  unfold padStart0. by rewrite contains_append, contains_zeros, contains_String_of.
Qed.

(** What Number makes of a run of decimal digits. *)
Lemma trim_digits (d : Decimal.uint) :
  trim (NilEmpty.string_of_uint d) = NilEmpty.string_of_uint d.
Proof.
  unfold trim.
  assert (skip_spaces (NilEmpty.string_of_uint d) = NilEmpty.string_of_uint d) as ->.
  { by destruct d. }
  induction d; simpl; try done; rewrite IHd; by destruct d.
Qed.

Lemma non_decimal_digits (d : Decimal.uint) :
  non_decimal (NilEmpty.string_of_uint d) = None.
Proof.
  destruct d as [|d|d|d|d|d|d|d|d|d|d]; try done;
    destruct d as [|d|d|d|d|d|d|d|d|d|d]; try done; by destruct d.
Qed.

Lemma digit_prefix_all (d : Decimal.uint) :
  digit_prefix (NilEmpty.string_of_uint d) = NilEmpty.string_of_uint d /\
  after_digits (NilEmpty.string_of_uint d) = EmptyString.
Proof. induction d; simpl; try done; destruct IHd as [-> ->]; done. Qed.

Lemma append_empty (s : string) : s +:+ EmptyString = s.
Proof.
  induction s as [|a s IH]; [done|].
  change (String a (s +:+ EmptyString) = String a s). by rewrite IH.
Qed.

Lemma Number_digits (d : Decimal.uint) :
  Number (NilEmpty.string_of_uint d) = nearest (N.of_uint d) 1.
Proof.
  unfold Number. rewrite trim_digits.
  destruct (NilEmpty.string_of_uint d) as [|c rest] eqn:Hd.
  { by destruct d. }
  rewrite <- Hd. rewrite non_decimal_digits.
  assert (split_sign (NilEmpty.string_of_uint d) = (false, NilEmpty.string_of_uint d)) as ->.
  { by destruct d. }
  assert (String.eqb (NilEmpty.string_of_uint d) "Infinity" = false) as ->.
  { by destruct d. }
  unfold decimal. destruct (digit_prefix_all d) as [-> ->].
  rewrite append_empty, Hd. cbv beta iota. rewrite <- Hd, NilEmpty.usu.
  unfold times_ten_to. simpl. by rewrite N.mul_1_r.
Qed.

Lemma zeros_digits (k : nat) (d : Decimal.uint) :
  zeros k +:+ NilEmpty.string_of_uint d
  = NilEmpty.string_of_uint (Nat.iter k Decimal.D0 d) /\
  N.of_uint (Nat.iter k Decimal.D0 d) = N.of_uint d.
Proof.
  induction k as [|k [IH1 IH2]]; [done|]. split.
  - change (String "0" (zeros k +:+ NilEmpty.string_of_uint d)
            = NilEmpty.string_of_uint (Decimal.D0 (Nat.iter k Decimal.D0 d))).
    by rewrite IH1.
  - simpl. exact IH2.
Qed.

Lemma Number_String_of n : Number (String_of n) = nearest n 1.
Proof.
  unfold String_of. by rewrite Number_digits, DecimalN.Unsigned.of_to.
Qed.

Lemma Number_padStart0 w n : Number (padStart0 w (String_of n)) = nearest n 1.
Proof.
  unfold padStart0, String_of.
  destruct (zeros_digits (w - String.length (NilEmpty.string_of_uint (N.to_uint n)))
              (N.to_uint n)) as [-> Hv].
  by rewrite Number_digits, Hv, DecimalN.Unsigned.of_to.
Qed.

(** Below 2^53 milliseconds dayjs computes with exact integers. *)
Lemma duration_components s :
  s * 1000 < 2 ^ 53 ->
  let dur := dayjs_duration_seconds s in
  floor_asHours dur = s / 3600 /\
  minutes dur = (s / 60) mod 60 /\
  seconds dur = s mod 60.
Proof.
  intros Hs.
  assert (times s MILLISECONDS_A_SECOND = s * 1000) as Hms.
  { unfold times. change MILLISECONDS_A_SECOND with 1000.
    rewrite Math_floor_round by (done || lia). apply N.div_1_r. }
  unfold dayjs_duration_seconds, parseFromMilliseconds, floor_asHours, floor_div.
  rewrite Hms. simpl.
  change MILLISECONDS_A_SECOND with 1000.
  change MILLISECONDS_A_MINUTE with 60000.
  change MILLISECONDS_A_HOUR with 3600000.
  change MILLISECONDS_A_DAY with 86400000.
  change MILLISECONDS_A_MONTH with 2628000000.
  change MILLISECONDS_A_YEAR with 31536000000.
  change (2 ^ 53) with 9007199254740992 in Hs.
  assert (forall a b, a <= s * 1000 -> 0 < b -> Math_floor (round a b) = a / b) as Hdiv.
  { intros a b Ha Hb. apply Math_floor_round; [|done].
    change (2 ^ 53) with 9007199254740992. lia. }
  rewrite !Hdiv; try lia;
    try (repeat split; zify; Z.to_euclidean_division_equations; lia);
    zify; Z.to_euclidean_division_equations; lia.
Qed.

Lemma padStart0_two_digits (n : N) :
  n < 60 -> padStart0 2 (String_of n) = two_digits n.
Proof.
  intros Hn.
  assert (forallb (fun k => String.eqb (padStart0 2 (String_of (N.of_nat k)))
                                       (two_digits (N.of_nat k)))
                  (seq 0 60) = true) as Hall by (vm_compute; reflexivity).
  rewrite forallb_forall in Hall.
  specialize (Hall (N.to_nat n)). rewrite N2Nat.id in Hall.
  apply String.eqb_eq, Hall, in_seq. lia.
Qed.


(** C9, as the code has it. For every whole number of seconds [s] whose
    milliseconds are below 2^53 (about 285,000 years), formatDuration
    prints "M:SS" when [s] is less than an hour and "H:MM:SS" otherwise,
    minutes and seconds on two digits, and parseDuration reads [s] back
    from what was printed. *)
Theorem parseDuration_formatDuration (s : N) :
  s * 1000 < 2 ^ 53 ->
  formatDuration (Some s)
  = (if s <? 3600 then M_SS (s / 60) (s mod 60)
     else H_MM_SS (s / 3600) (s / 60 mod 60) (s mod 60)) /\
  parseDuration (formatDuration (Some s)) = Number_ (Z.of_N s).
Proof.
  intros Hs.
  assert (s < 2 ^ 53) as Hs53 by (change (2 ^ 53) with 9007199254740992 in *; lia).
  change (2 ^ 53) with 9007199254740992 in *.
  assert (forall n, n <= s -> nearest n 1 = Number_ (Z.of_N n)) as Hnear.
  { intros n Hn. apply nearest_small. change (2 ^ 53) with 9007199254740992. lia. }
  assert ((s / 60) mod 60 < 60 /\ s mod 60 < 60) as [Hm60 Hs60].
  { split; apply N.mod_lt; lia. }
  unfold formatDuration.
  destruct (duration_components s) as (Hh & Hm & Hsec).
  { change (2 ^ 53) with 9007199254740992. lia. }
  rewrite Hh, Hm, Hsec. clear Hh Hm Hsec.
  rewrite !padStart0_two_digits by done.
  assert ((0 <? s / 3600) = negb (s <? 3600)) as ->.
  { destruct (N.ltb_spec 0 (s / 3600)), (N.ltb_spec s 3600); simpl; try done;
      zify; Z.to_euclidean_division_equations; lia. }
  destruct (N.ltb_spec s 3600) as [Hlt|Hge]; simpl negb; cbv iota.
  - assert (s / 60 mod 60 = s / 60) as Hmin.
    { zify; Z.to_euclidean_division_equations; lia. }
    rewrite Hmin. split; [done|].
    unfold M_SS, parseDuration. rewrite <- (padStart0_two_digits (s mod 60)) by done.
    repeat match goal with
           | |- context [ ":" +:+ ?x ] => change (":" +:+ x) with (String ":" x)
           end.
    rewrite split_at_sep by apply contains_String_of.
    rewrite split_without_sep by apply contains_padStart0.
    simpl map. rewrite Number_String_of, Number_padStart0.
    rewrite !Hnear by (zify; Z.to_euclidean_division_equations; lia).
    change 60%Z with (Z.of_N 60).
    rewrite jmul_small, jadd_small;
      try (change (2 ^ 53) with 9007199254740992;
           zify; Z.to_euclidean_division_equations; lia).
    f_equal. zify; Z.to_euclidean_division_equations; lia.
  - split; [done|].
    unfold H_MM_SS, parseDuration.
    rewrite <- (padStart0_two_digits (s mod 60)) by done.
    rewrite <- (padStart0_two_digits (s / 60 mod 60)) by done.
    repeat match goal with
           | |- context [ ":" +:+ ?x ] => change (":" +:+ x) with (String ":" x)
           end.
    rewrite split_at_sep by apply contains_String_of.
    rewrite split_at_sep by apply contains_padStart0.
    rewrite split_without_sep by apply contains_padStart0.
    simpl map. rewrite Number_String_of, !Number_padStart0.
    rewrite !Hnear by (zify; Z.to_euclidean_division_equations; lia).
    change 60%Z with (Z.of_N 60). change 3600%Z with (Z.of_N 3600).
    rewrite !jmul_small;
      try (change (2 ^ 53) with 9007199254740992;
           zify; Z.to_euclidean_division_equations; lia).
    rewrite !jadd_small;
      try (change (2 ^ 53) with 9007199254740992;
           zify; Z.to_euclidean_division_equations; lia).
    f_equal. zify; Z.to_euclidean_division_equations; lia.
Qed.

End DurationRoundTrip.

(** The theorem at work, on 1 h 2 min 5 s. *)
Lemma parseDuration_formatDuration_witness :
  Format.formatDuration (Some 3725%N) = "1:02:05" /\
  Format.parseDuration (Format.formatDuration (Some 3725%N)) = Format.Number_ 3725.
Proof.
  exact (parseDuration_formatDuration 3725%N eq_refl).
Defined.

(** C9, as stated, fails: it holds for the seconds whose milliseconds a
    double holds exactly, not for every integer. 72,057,594,037,929 s is
    itself a double, but its milliseconds are rounded down by 8: the second
    printed is 08 where 09 is due, and what is read back is one second
    short. *)
Lemma parseDuration_formatDuration_rounded :
  Format.nearest 72057594037929 1 = Format.Number_ 72057594037929 /\
  Format.times 72057594037929 1000 = 72057594037928992%N /\
  Format.formatDuration (Some 72057594037929%N) = "20015998343:52:08" /\
  Format.parseDuration (Format.formatDuration (Some 72057594037929%N))
  = Format.Number_ 72057594037928.
Proof. vm_compute. repeat split; reflexivity. Qed.

Section CameraValidation.

Import Js Validation ValidationUse.

Variable isUrl : string -> bool.

Lemma flat_map_nil_Forall {A B} (f : A -> list B) (l : list A) :
  flat_map f l = [] <-> Forall (fun x => f x = []) l.
Proof.
  induction l as [|x l IH]; simpl.
  - split; [constructor | done].
  - split.
    + intros H. apply app_eq_nil in H as [Hx Hl].
      constructor; [done | by apply IH].
    + intros H. inversion H as [|? ? Hx Hl]; subst.
      rewrite Hx. simpl. by apply IH.
Qed.

Lemma run_string_check_nil s c :
  run_string_check isUrl s c = [] <-> string_check_holds isUrl s c.
Proof.
  destruct c as [n msg|n msg|msg]; simpl.
  - destruct (Nat.ltb_spec (String.length s) n); split; (done || lia).
  - destruct (Nat.ltb_spec n (String.length s)); split; (done || lia).
  - destruct (isUrl s); split; done.
Qed.

Lemma run_number_check_nil v c :
  type_name v = "number" ->
  run_number_check v c = [] <-> number_check_holds v c.
Proof.
  intros Hty. destruct c as [|z msg|z msg]; simpl.
  - destruct v; simpl in *; try discriminate; split; try done;
      try (intros [z' ?]; discriminate); eauto.
  - destruct (number_lt v z); split; done.
  - destruct (number_gt v z); split; done.
Qed.

Lemma parse_nil_accepts t v : parse isUrl t v = [] <-> accepts isUrl t v.
Proof.
  revert v. induction t as [checks| |checks|inner IH|inner IH dflt]; intros v; simpl.
  - destruct v; try (split; [done | by intros (s' & ? & _)]).
    rewrite flat_map_nil_Forall. split.
    + intros H. exists s. split; [done|].
      eapply Forall_impl; [exact H|]. intros c. apply run_string_check_nil.
    + intros (s' & [= <-] & H).
      eapply Forall_impl; [exact H|]. intros c. apply run_string_check_nil.
  - destruct v; try (split; [done | by intros (b' & ?)]).
    split; eauto.
  - destruct v; try (split; [done | by intros [? _]]);
      try (rewrite flat_map_nil_Forall; split;
           [ intros H; split; [done|];
             eapply Forall_impl; [exact H|]; intros c; by apply run_number_check_nil
           | intros [_ H];
             eapply Forall_impl; [exact H|]; intros c; by apply run_number_check_nil ]).
    destruct kind; split; try done; by intros [? _].
  - destruct v; rewrite ?IH; try (split; [by right | by intros [? | ?]]).
    split; [by left | done].
  - destruct v; rewrite ?IH; try (split; [by right | by intros [[? _] | [_ ?]]]).
    split; [by left | by intros [[_ ?] | [? _]]].
Qed.

Lemma parse_object_nil_satisfies shape data :
  parse_object isUrl shape data = [] <-> satisfies isUrl shape data.
Proof.
  destruct data as [o|v]; simpl; [|done].
  rewrite flat_map_nil_Forall. apply Forall_iff. intros [key t].
  rewrite <- parse_nil_accepts.
  destruct (parse isUrl t (get o key)); simpl; split; done.
Qed.

Lemma collect_from_nonempty (issues : list issue) (acc : gmap string string) :
  acc <> ∅ ->
  fold_left (fun acc err => <[join "." (path err) := message err]> acc) issues acc <> ∅.
Proof.
  revert acc. induction issues as [|err issues IH]; intros acc Hacc; simpl; [done|].
  apply IH. apply insert_non_empty.
Qed.

Lemma collect_nonempty (issues : list issue) :
  issues <> [] -> collect issues <> ∅.
Proof.
  destruct issues as [|err issues]; [done|]. intros _.
  unfold collect. simpl. apply collect_from_nonempty, insert_non_empty.
Qed.

Lemma validateForm_cases shape data :
  (parse_object isUrl shape data = [] /\
   validateForm isUrl shape data = mkValidation true None) \/
  (parse_object isUrl shape data <> [] /\
   validateForm isUrl shape data =
     mkValidation false (Some (collect (parse_object isUrl shape data)))).
Proof.
  unfold validateForm. destruct (parse_object isUrl shape data); [by left | by right].
Qed.

(** The issues of one key leave the key's last message in the map. *)
Lemma collect_key (key : string) (msgs : list string) (acc : gmap string string) :
  fold_left (fun acc err => <[join "." (path err) := message err]> acc)
    (map (mkIssue [key]) msgs) acc
  = match last msgs with
    | Some m => <[key := m]> acc
    | None => acc
    end.
Proof.
  revert acc. induction msgs as [|m msgs IH]; intros acc; simpl; [done|].
  rewrite IH. destruct msgs as [|m' msgs]; simpl; [done|].
  destruct (last (m' :: msgs)) eqn:E; [apply insert_insert_eq|].
  by apply last_None in E.
Qed.

Lemma shape_lookup_absent (key : string) (shape : list (string * ztype)) :
  key ∉ map fst shape -> shape_lookup key shape = None.
Proof.
  induction shape as [|[k t] shape IH]; simpl; [done|].
  intros Hn. apply not_elem_of_cons in Hn as [Hk Hrest].
  destruct (String.eqb_spec k key); [congruence | by apply IH].
Qed.

Lemma collect_shape (shape : list (string * ztype)) (o : object)
    (acc : gmap string string) (key : string) :
  NoDup (map fst shape) ->
  fold_left (fun acc err => <[join "." (path err) := message err]> acc)
    (parse_object isUrl shape (Object_ o)) acc !! key
  = match shape_lookup key shape with
    | Some t =>
        match last (parse isUrl t (get o key)) with
        | Some m => Some m
        | None => acc !! key
        end
    | None => acc !! key
    end.
Proof.
  revert acc. induction shape as [|[k t] shape IH]; intros acc Hnd; simpl; [done|].
  apply NoDup_cons in Hnd as [Hk Hnd].
  rewrite fold_left_app, collect_key, IH by done.
  destruct (String.eqb_spec k key) as [->|Hne].
  - rewrite shape_lookup_absent by done.
    destruct (last (parse isUrl t (get o key))); [apply lookup_insert_eq | done].
  - destruct (shape_lookup key shape) as [t'|].
    + destruct (last (parse isUrl t' (get o key))); [done|].
      destruct (last (parse isUrl t (get o k))); [by apply lookup_insert_ne | done].
    + destruct (last (parse isUrl t (get o k))); [by apply lookup_insert_ne | done].
Qed.

Lemma text_rule (lo hi : nat) (m1 m2 : string) (v : value) :
  CameraConfig.text lo hi v <-> parse isUrl (ZString [SMin lo m1; SMax hi m2]) v = [].
Proof.
  unfold CameraConfig.text.
  destruct v as [| |b|z|m k|n| |s|kind a]; simpl;
    try (split; [by intros (? & ? & _) | done]).
  destruct (Nat.ltb_spec (String.length s) lo), (Nat.ltb_spec hi (String.length s));
    simpl; (split; [intros (s' & [= <-] & ?); (done || lia) | try done]).
  intros _. exists s. split; [done | lia].
Qed.

Lemma text_max_rule (hi : nat) (m : string) (v : value) :
  CameraConfig.text 0 hi v <-> parse isUrl (ZString [SMax hi m]) v = [].
Proof.
  unfold CameraConfig.text.
  destruct v as [| |b|z|m' k|n| |s|kind a]; simpl;
    try (split; [by intros (? & ? & _) | done]).
  destruct (Nat.ltb_spec hi (String.length s));
    simpl; (split; [intros (s' & [= <-] & ?); (done || lia) | try done]).
  intros _. exists s. split; [done | lia].
Qed.

Lemma any_text_rule (v : value) :
  CameraConfig.any_text v <-> parse isUrl (ZString []) v = [].
Proof.
  unfold CameraConfig.any_text.
  destruct v as [| |b|z|m k|n| |s|kind a]; simpl;
    try (split; [by intros (? & ?) | done]).
  split; [done | eauto].
Qed.

Lemma url_rule (m1 m2 : string) (v : value) :
  CameraConfig.url isUrl v <-> parse isUrl (ZString [SMin 1 m1; SUrl m2]) v = [].
Proof.
  unfold CameraConfig.url.
  destruct v as [| |b|z|m k|n| |s|kind a]; simpl;
    try (split; [by intros (? & ? & _) | done]).
  destruct (Nat.ltb_spec (String.length s) 1), (isUrl s) eqn:Hurl;
    simpl; (split; [intros (s' & [= <-] & ? & ?); (done || lia || congruence) | try done]).
  intros _. exists s. split; [done|]. split; [lia | done].
Qed.

Lemma flag_rule (v : value) :
  CameraConfig.flag v <-> parse isUrl ZBoolean v = [].
Proof.
  unfold CameraConfig.flag.
  destruct v as [| |b|z|m k|n| |s|kind a]; simpl;
    try (split; [by intros (? & ?) | done]).
  split; [done | eauto].
Qed.

Lemma port_rule (m1 m2 : string) (v : value) :
  CameraConfig.port v <-> parse isUrl (ZNumber [NInt; NMin 1 m1; NMax 65535 m2]) v = [].
Proof.
  unfold CameraConfig.port.
  destruct v as [| |b|z|m k|n| |s|kind a]; simpl;
    try (split; [by intros (? & ? & _) | done]).
  destruct (Z.ltb_spec z 1), (Z.ltb_spec 65535 z);
    simpl; (split; [intros (z' & [= <-] & ?); (done || lia) | try done]).
  intros _. exists z. split; [done | lia].
Qed.

Lemma optional_rule (rule : value -> Prop) (t : ztype) (v : value) :
  (forall v, rule v <-> parse isUrl t v = []) ->
  CameraConfig.optional rule v <-> parse isUrl (ZOptional t) v = [].
Proof.
  intros H. unfold CameraConfig.optional. simpl.
  destruct v; rewrite ?H; try (split; [by intros [?|?] | by right]).
  split; [done | by left].
Qed.

Lemma optional_flag_rule (dflt : bool) (v : value) :
  CameraConfig.optional CameraConfig.flag v
  <-> parse isUrl (ZDefault ZBoolean (Bool dflt)) v = [].
Proof.
  unfold CameraConfig.optional. change (parse isUrl (ZDefault ZBoolean (Bool dflt)) v)
    with (match v with Undefined => [] | _ => parse isUrl ZBoolean v end).
  destruct v; rewrite ?flag_rule; try (split; [by intros [?|?] | by right]).
  split; [done | by left].
Qed.

(** Each rule of the form is what the schema's type for the field lets
    through. *)
Lemma rules_cameraSchema :
  Forall2 (fun r t => fst r = fst t /\
                      forall v, snd r v <-> parse isUrl (snd t) v = [])
          (CameraConfig.rules isUrl) cameraSchema.
Proof.
  unfold CameraConfig.rules, cameraSchema.
  repeat (constructor; [split; [done|]; intros v; cbn [fst snd];
    first [ apply text_rule | apply url_rule | apply optional_flag_rule
          | apply optional_rule; intros v';
            first [ apply text_max_rule | apply any_text_rule | apply port_rule ] ]|]).
  constructor.
Qed.

Lemma rules_valid (o : object) :
  CameraConfig.valid isUrl o <-> parse_object isUrl cameraSchema (Object_ o) = [].
Proof.
  unfold CameraConfig.valid, parse_object. rewrite flat_map_nil_Forall.
  generalize rules_cameraSchema. generalize (CameraConfig.rules isUrl), cameraSchema.
  intros rs ts H.
  induction H as [|[n rule] [key t] rs ts [Hn Hrule] _ IH]; [done|].
  simpl in Hn, Hrule. subst key. rewrite !Forall_cons, IH, Hrule.
  destruct (parse isUrl t (get o n)); simpl; split; intros [? ?]; done.
Qed.

Lemma rules_invalid_field (o : object) (name : string) :
  CameraConfig.invalid_field isUrl o name <->
  exists t, shape_lookup name cameraSchema = Some t /\ parse isUrl t (get o name) <> [].
Proof.
  assert (NoDup (map fst cameraSchema)) as Hnd.
  { apply (bool_decide_unpack (NoDup (map fst cameraSchema))). vm_compute. reflexivity. }
  unfold CameraConfig.invalid_field. revert Hnd.
  generalize rules_cameraSchema. generalize (CameraConfig.rules isUrl), cameraSchema.
  intros rs ts H.
  induction H as [|[n rule] [key t] rs ts [Hn Hrule] _ IH]; intros Hnd.
  { split; [intros (? & H & _); inversion H | by intros (? & ? & _)]. }
  simpl in Hn, Hrule. subst key. simpl in Hnd. apply NoDup_cons in Hnd as [Hfresh Hnd].
  simpl. destruct (String.eqb_spec n name) as [->|Hne].
  - split.
    + intros (rule' & Hin & Hbad). apply elem_of_cons in Hin as [[= <-]|Hin].
      * exists t. split; [done|]. by rewrite <- Hrule.
      * exfalso. destruct (proj1 (IH Hnd)) as (t' & Hlook & _); [by exists rule'|].
        by rewrite shape_lookup_absent in Hlook.
    + intros (t' & [= <-] & Hbad). exists rule. split; [by left|]. by rewrite Hrule.
  - rewrite <- (IH Hnd). split.
    + intros (rule' & Hin & Hbad). apply elem_of_cons in Hin as [[= -> ->]|Hin]; [done|].
      eauto.
    + intros (rule' & Hin & Hbad). exists rule'. split; [by right | done].
Qed.

(** C5. An invalid camera configuration is rejected at validation time with
    per-field errors, and nothing is applied. For every input that keeps
    the form's rules, validateForm returns [success = true] with
    [errors = null] and handleSubmit passes the whole form to the API. For
    every input that breaks them, validateForm returns [success = false]
    with a non-empty error map, and handleSubmit only shows these errors
    (it makes no createCamera / updateCamera call). When the input is an
    object, the error map has an entry for a name exactly when that field
    breaks its rule, and the entry is the message of the last check the
    field fails; when the input is not an object, the map holds zod's type
    message under the empty path. validateForm itself reads and writes no
    store: it is a function of the schema and the input. *)
Theorem validateForm_cameraSchema_all_or_nothing (data : input) :
  (CameraConfig.valid_input isUrl data /\
   validateForm isUrl cameraSchema data = mkValidation true None /\
   forall formData, data = Object_ formData ->
     handleSubmit isUrl formData = CallApi formData)
  \/
  (~ CameraConfig.valid_input isUrl data /\
   exists errs : gmap string string,
     validateForm isUrl cameraSchema data = mkValidation false (Some errs) /\
     errs <> ∅ /\
     match data with
     | Object_ o =>
         (forall name, is_Some (errs !! name) <-> CameraConfig.invalid_field isUrl o name) /\
         (forall name msg, errs !! name = Some msg ->
            exists t, shape_lookup name cameraSchema = Some t /\
                      last (parse isUrl t (get o name)) = Some msg)
     | Other v => errs = {[ "" := invalid_type_message "object" v ]}
     end /\
     forall formData, data = Object_ formData ->
       handleSubmit isUrl formData = ShowErrors (Some errs)).
Proof.
  assert (NoDup (map fst cameraSchema)) as Hnd.
  { apply (bool_decide_unpack (NoDup (map fst cameraSchema))). vm_compute. reflexivity. }
  assert (CameraConfig.valid_input isUrl data <->
          parse_object isUrl cameraSchema data = []) as Hvalid.
  { destruct data as [o|v]; [apply rules_valid | done]. }
  destruct (validateForm_cases cameraSchema data) as [[Hp Hv] | [Hp Hv]].
  - left. split; [by apply Hvalid|]. split; [done|].
    intros formData ->. unfold handleSubmit. by rewrite Hv.
  - right. split; [by rewrite Hvalid|].
    eexists. split; [done|]. split; [by apply collect_nonempty|]. split.
    + destruct data as [o|v]; [|done].
      assert (forall name,
                collect (parse_object isUrl cameraSchema (Object_ o)) !! name
                = t ← shape_lookup name cameraSchema; last (parse isUrl t (get o name)))
        as Hentry.
      { intros name. unfold collect. rewrite collect_shape by done.
        rewrite lookup_empty. destruct (shape_lookup name cameraSchema) as [t|]; [|done].
        simpl. by destruct (last (parse isUrl t (get o name))). }
      split.
      * intros name. rewrite Hentry, rules_invalid_field.
        destruct (shape_lookup name cameraSchema) as [t|]; simpl.
        -- split.
           ++ intros [msg Hmsg]. exists t. split; [done|]. intros Hnil.
              by rewrite Hnil in Hmsg.
           ++ intros (t' & [= <-] & Hbad).
              destruct (last (parse isUrl t (get o name))) eqn:E; [eauto|].
              by apply last_None in E.
        -- split; [by intros [? ?] | by intros (? & ? & _)].
      * intros name msg. rewrite Hentry.
        destruct (shape_lookup name cameraSchema) as [t|]; simpl; [eauto | done].
    + intros formData ->. unfold handleSubmit. by rewrite Hv.
Qed.

End CameraValidation.

Example validateForm_accepts_camera :
  Validation.handleSubmit (fun _ => true)
    (<["name" := Js.Str "Gate"]> (<["rtsp_url" := Js.Str "rtsp://10.0.0.7/stream"]>
       (<["onvif_port" := Js.Num 80]> ∅)))
  = Validation.CallApi
      (<["name" := Js.Str "Gate"]> (<["rtsp_url" := Js.Str "rtsp://10.0.0.7/stream"]>
         (<["onvif_port" := Js.Num 80]> ∅))).
Proof. vm_compute. reflexivity. Qed.

Example validateForm_port_as_text :
  Validation.validateForm (fun _ => true) Validation.cameraSchema
    (Validation.Object_
       (<["name" := Js.Str "Gate"]> (<["rtsp_url" := Js.Str "rtsp://10.0.0.7/stream"]>
          (<["onvif_port" := Js.Str "80"]> ∅))))
  = Validation.mkValidation false
      (Some (<["onvif_port" := "Expected number, received string"]> ∅)).
Proof. vm_compute. reflexivity. Qed.

Example validateForm_empty_form :
  Validation.validateForm (fun _ => false) Validation.cameraSchema
    (Validation.Object_ (<["name" := Js.Str ""]> (<["rtsp_url" := Js.Str ""]> ∅)))
  = Validation.mkValidation false
      (Some (<["name" := "Название обязательно"]>
             (<["rtsp_url" := "Некорректный RTSP URL"]> ∅))).
Proof. vm_compute. reflexivity. Qed.

Section StoreProperties.

Import Js.

Lemma with_status_only_status (c : object) status :
  CameraStore.only_status_changed status c (with_status (Some c) status).
Proof.
  unfold CameraStore.only_status_changed, with_status. simpl. split.
  - apply lookup_insert_eq.
  - intros k Hk. by apply lookup_insert_ne.
Qed.

Import CameraStore.

Lemma updated_camera (cameraId status : value) (c : object) :
  let c' := if strict_eq (get c "id") cameraId
            then with_status (Some c) status else c in
  (strict_eq (get c "id") cameraId = true -> only_status_changed status c c') /\
  (strict_eq (get c "id") cameraId = false -> c' = c).
Proof.
  simpl. destruct (strict_eq (get c "id") cameraId); split; try done.
  intros _. apply with_status_only_status.
Qed.

(** The frame of a status update, for every value the store is given for
    an id. [updateCameraStatus id status] keeps the list's length and
    order, sets only the status property of each camera whose id is [id]
    (its other properties keep their values), leaves every other camera as
    it was, treats a selected camera the same way, leaves isLoading, error
    and filters alone, and leaves the camera list unchanged when no camera
    has the id. A null selection stays null, unless the id is [undefined]:
    then the selection becomes the object [{status}]. *)
Lemma updateCameraStatus_frame (st : state) (cameraId status : value) :
  let st' := updateCameraStatus cameraId status st in
  length (cameras st') = length (cameras st) /\
  (forall n c, cameras st !! n = Some c ->
     exists c', cameras st' !! n = Some c' /\
       (strict_eq (get c "id") cameraId = true -> only_status_changed status c c') /\
       (strict_eq (get c "id") cameraId = false -> c' = c)) /\
  match selectedCamera st with
  | Some c =>
      exists c', selectedCamera st' = Some c' /\
        (strict_eq (get c "id") cameraId = true -> only_status_changed status c c') /\
        (strict_eq (get c "id") cameraId = false -> c' = c)
  | None =>
      selectedCamera st'
      = if strict_eq Undefined cameraId then Some (<["status" := status]> ∅) else None
  end /\
  isLoading st' = isLoading st /\
  error st' = error st /\
  filters st' = filters st /\
  ((forall c, c ∈ cameras st -> strict_eq (get c "id") cameraId = false) ->
   cameras st' = cameras st).
Proof.
  simpl. split; [apply length_map|]. split.
  { intros n c Hn. eexists. split.
    - rewrite list_lookup_fmap, Hn. simpl. reflexivity.
    - apply updated_camera. }
  split.
  { destruct (selectedCamera st) as [c|] eqn:Hsel; simpl; [|done].
    eexists. split; [|apply (updated_camera cameraId status c)].
    by destruct (strict_eq (get c "id") cameraId). }
  do 3 (split; [done|]).
  intros Hnone. induction (cameras st) as [|c l IH]; simpl; [done|].
  rewrite IH by (intros c' Hc'; apply Hnone; by right).
  rewrite Hnone; [done | by left].
Qed.

(** C10, as stated, fails. A status update whose id is [undefined] on a
    store with no camera selected selects something: [null?.id] is
    [undefined], which is the id given, so the selection becomes the
    object [{status}], which is no camera of the store. The cameras are
    left as they are when each of them has an id. The hook's dispatcher
    makes this very call for a camera_status message that carries no
    camera_id. *)
Theorem updateCameraStatus_undefined_id
    (cams : list object) (loading : bool) (err : value) (fs : object) (status : value) :
  let st := mkState cams None loading err fs in
  let st' := updateCameraStatus Undefined status st in
  selectedCamera st = None /\
  selectedCamera st' = Some (<["status" := status]> ∅) /\
  ((forall c, c ∈ cams -> get c "id" <> Undefined) -> cameras st' = cams) /\
  (forall throws calls_back w,
     WebSocketHook.store_calls
       (WebSocketHook.onmessage throws calls_back (Some WebSocketHook.status_message) w)
     = WebSocketHook.store_calls w
       ++ [WebSocketHook.UpdateCameraStatus Undefined (Str "online")]).
Proof.
  simpl. do 2 (split; [done|]). split; [|done].
  intros Hids. induction cams as [|c l IH]; simpl; [done|].
  rewrite IH by (intros c' Hc'; apply Hids; by right).
  assert (get c "id" <> Undefined) as Hc by (apply Hids; by left).
  by destruct (get c "id").
Qed.

End StoreProperties.

Section EventBuffer.

Import Js EventStore.

Lemma receive_events (incoming : list object) (st : state) :
  events (receive incoming st) = rev incoming ++ events st.
Proof.
  unfold receive. revert st.
  induction incoming as [|e incoming IH]; intros st; simpl; [done|].
  rewrite IH. simpl. by rewrite <- app_assoc.
Qed.

(** C4, as the code has it. addEvent puts the new event in front of the
    stored list and drops nothing: the list grows by exactly one, the other
    fields of the store keep their values, and after any run of incoming
    events the store holds all of them, newest first, in front of what it
    held before. *)
Theorem addEvent_grows_by_one (event : object) (incoming : list object) (st : state) :
  events (addEvent event st) = event :: events st /\
  length (events (addEvent event st)) = S (length (events st)) /\
  selectedEvent (addEvent event st) = selectedEvent st /\
  isLoading (addEvent event st) = isLoading st /\
  error (addEvent event st) = error st /\
  filters (addEvent event st) = filters st /\
  events (receive incoming st) = rev incoming ++ events st /\
  length (events (receive incoming st)) = (length incoming + length (events st))%nat.
Proof.
  repeat (split; [done|]). split; [apply receive_events|].
  by rewrite receive_events, length_app, length_rev.
Qed.

(** C4, as stated, fails: no capacity bounds the stored list. For every
    candidate capacity, that many events plus one overflow it. *)
Lemma addEvent_unbounded :
  ~ exists capacity : nat, forall incoming : list object,
      length (events (receive incoming initial)) <= capacity.
Proof.
  intros [capacity H].
  specialize (H (replicate (S capacity) (∅ : object))).
  rewrite receive_events, length_app, length_rev, length_replicate in H.
  simpl in H. lia.
Qed.

End EventBuffer.

Section Reconnect.

Import WebSocketHook.

Variable throws : positive -> message -> bool.
Variable calls_back : positive -> message -> list hook_call.

Lemma SocketClose_schedules (w : world) (s : positive) (r : readyState) :
  sockets w !! s = Some r -> r <> CLOSED ->
  let w' := step throws calls_back w (SocketClose s) in
  reconnectTimeoutRef w' = Some (next_timer w) /\
  timers w' !! next_timer w = Some 5000%Z /\
  pending_delay w' = Some 5000%Z.
Proof.
  intros Hs Hr. simpl. rewrite Hs.
  destruct r; try done; unfold pending_delay; simpl;
    by rewrite lookup_insert_eq.
Qed.

Lemma failed_attempt (w : world) (i : positive) :
  attempting w i ->
  attempting (step throws calls_back (step throws calls_back w (SocketClose i))
                (TimerFire i))
             (Pos.succ i).
Proof.
  intros [[tok Htok] Href Hsock Hns Hnt].
  destruct w as [tk ws rt mh ss ts ns nt sc ar cl]; simpl in *; subst.
  rewrite Hsock. simpl. rewrite lookup_insert_eq. simpl.
  split; simpl; try done.
  by rewrite lookup_insert_eq.
Qed.

Lemma last_attempt_nat k i : Pos.to_nat (last_attempt k i) = (k + Pos.to_nat i)%nat.
Proof.
  revert i. induction k as [|k IH]; intros i; simpl; [done|].
  rewrite IH, Pos2Nat.inj_succ. lia.
Qed.

Lemma last_attempt_1 k : last_attempt k 1 = Pos.of_succ_nat k.
Proof.
  apply Pos2Nat.inj. rewrite last_attempt_nat, SuccNat2Pos.id_succ.
  change (Pos.to_nat 1) with 1%nat. lia.
Qed.

Lemma failures_keep_attempting (k : nat) (i : positive) (w : world) :
  attempting w i ->
  attempting (run throws calls_back (failures k i) w) (last_attempt k i).
Proof.
  revert i w. induction k as [|k IH]; intros i w Hw; simpl; [done|].
  apply IH. by apply failed_attempt.
Qed.

Lemma connect_attempting tok :
  attempting (step throws calls_back (initial (Some tok)) Connect) 1.
Proof. split; simpl; done. Qed.

Lemma run_app (t1 t2 : list action) (w : world) :
  run throws calls_back (t1 ++ t2) w = run throws calls_back t2 (run throws calls_back t1 w).
Proof. unfold run. apply fold_left_app. Qed.

Lemma attempts_after_failures (n : nat) tok :
  attempting (run throws calls_back (Connect :: failures n 1) (initial (Some tok)))
             (Pos.of_succ_nat n).
Proof.
  rewrite <- last_attempt_1. simpl.
  apply failures_keep_attempting, connect_attempting.
Qed.

End Reconnect.

Lemma reconnect_delay_5000 (n : nat) :
  WebSocketHook.reconnect_delay n = Some 5000%Z.
Proof.
  unfold WebSocketHook.reconnect_delay.
  change (WebSocketHook.Connect :: WebSocketHook.failures n 1 ++ [WebSocketHook.SocketClose (Pos.of_succ_nat n)])
    with ((WebSocketHook.Connect :: WebSocketHook.failures n 1) ++ [WebSocketHook.SocketClose (Pos.of_succ_nat n)]).
  rewrite run_app.
  destruct (attempts_after_failures (fun _ _ => false) (fun _ _ => []) n "token") as [_ _ Hs _ _].
  assert (WebSocketHook.CONNECTING <> WebSocketHook.CLOSED) as Hne by done.
  destruct (SocketClose_schedules (fun _ _ => false) (fun _ _ => []) _ _ _ Hs Hne) as (_ & _ & H).
  exact H.
Qed.

Section ReconnectPolicy.

Import WebSocketHook.

(** C1, as the code has it. Every connection loss schedules the next
    connection attempt after the same 5000 ms (DEFAULTS.WS_RECONNECT_DELAY),
    however many attempts have failed before: whatever the state of the
    hook, the close event of a socket that was not yet closed leaves one
    timeout of 5000 ms in reconnectTimeoutRef, and the delay before reconnect
    attempt n+1 is 5000 ms for every n. There is no growth, no jitter, no
    cap, and the hook keeps no attempt counter to reset. *)
Theorem reconnect_delay_constant :
  (forall n, reconnect_delay n = Some DEFAULTS.WS_RECONNECT_DELAY) /\
  (forall throws calls_back w s r,
     sockets w !! s = Some r -> r <> CLOSED ->
     pending_delay (step throws calls_back w (SocketClose s)) = Some DEFAULTS.WS_RECONNECT_DELAY).
Proof.
  split.
  - apply reconnect_delay_5000.
  - intros throws calls_back w s r Hs Hr.
    by destruct (SocketClose_schedules throws calls_back w s r Hs Hr) as (_ & _ & H).
Qed.

(** C1, as stated, fails: no reconnect attempt waits longer than the one
    before it, so the delay is not an increasing function of the attempt
    number; the first two delays are both 5000 ms. *)
Lemma reconnect_delay_not_increasing :
  reconnect_delay 0 = Some 5000%Z /\
  reconnect_delay 1 = Some 5000%Z /\
  ~ exists n d d',
      reconnect_delay n = Some d /\ reconnect_delay (S n) = Some d' /\ (d < d')%Z.
Proof.
  split; [apply reconnect_delay_5000|]. split; [apply reconnect_delay_5000|].
  intros (n & d & d' & Hd & Hd' & Hlt).
  rewrite reconnect_delay_5000 in Hd, Hd'. simplify_eq. lia.
Qed.

(** C2 on the code. After eleven connection attempts that failed in a row,
    one more than DEFAULTS.WS_MAX_RECONNECT_ATTEMPTS, the hook has not
    stopped: it has opened socket 12 and is connecting again, and so it does
    after any number of failed attempts. *)
Theorem retries_beyond_max_attempts :
  let tries := S DEFAULTS.WS_MAX_RECONNECT_ATTEMPTS in
  let w := run (fun _ _ => false) (fun _ _ => []) (Connect :: failures tries 1)
               (initial (Some "token")) in
  wsRef w = Some 12%positive /\
  sockets w !! 12%positive = Some CONNECTING /\
  forall (n : nat) throws calls_back tok,
    attempting (run throws calls_back (Connect :: failures n 1) (initial (Some tok)))
               (Pos.of_succ_nat n).
Proof.
  split; [|split].
  - apply (attempts_after_failures (fun _ _ => false) (fun _ _ => []) 11 "token").
  - apply (attempts_after_failures (fun _ _ => false) (fun _ _ => []) 11 "token").
  - intros n throws calls_back tok. apply attempts_after_failures.
Qed.

(** C3 on the code. (1) The hook connects, the socket opens, disconnect() is
    called: the ref is cleared and the socket is closing, with no timeout
    pending. The close event of that socket then runs onclose, which
    schedules a reconnect, and when the timeout fires a new socket is opened.
    (2) With two sockets alive (the token changed while connected) and both
    lost, two timeouts are pending; disconnect() clears only the one in
    reconnectTimeoutRef, and the other one still fires and reconnects. *)
Theorem reconnects_after_disconnect :
  let stopped := run (fun _ _ => false) (fun _ _ => []) [Connect; SocketOpen 1; Disconnect]
                     (initial (Some "token")) in
  let closed := step (fun _ _ => false) (fun _ _ => []) stopped (SocketClose 1) in
  let fired := step (fun _ _ => false) (fun _ _ => []) closed (TimerFire 1) in
  (wsRef stopped = None /\ sockets stopped !! 1%positive = Some CLOSING /\
   timers stopped = ∅) /\
  (reconnectTimeoutRef closed = Some 1%positive /\
   timers closed !! 1%positive = Some 5000%Z) /\
  (wsRef fired = Some 2%positive /\ sockets fired !! 2%positive = Some CONNECTING) /\
  let two := run (fun _ _ => false) (fun _ _ => [])
                 [Connect; TokenChange (Some "other"); SocketClose 1; SocketClose 2]
                 (initial (Some "token")) in
  let stopped2 := step (fun _ _ => false) (fun _ _ => []) two Disconnect in
  let fired2 := step (fun _ _ => false) (fun _ _ => []) stopped2 (TimerFire 1) in
  (timers two !! 1%positive = Some 5000%Z /\ timers two !! 2%positive = Some 5000%Z) /\
  (timers stopped2 !! 1%positive = Some 5000%Z /\ timers stopped2 !! 2%positive = None) /\
  (wsRef fired2 = Some 3%positive /\ sockets fired2 !! 3%positive = Some CONNECTING).
Proof. vm_compute. repeat split; reflexivity. Qed.

End ReconnectPolicy.

Section Dispatcher.

Import WebSocketHook.

Variable throws : positive -> message -> bool.
Variable calls_back : positive -> message -> list hook_call.



(** What a dispatch leaves alone: everything but the handler lists and the
    call log. *)
Definition untouched (w w' : world) : Prop :=
  token w' = token w /\ wsRef w' = wsRef w /\
  reconnectTimeoutRef w' = reconnectTimeoutRef w /\
  sockets w' = sockets w /\ timers w' = timers w /\
  next_socket w' = next_socket w /\ next_timer w' = next_timer w /\
  store_calls w' = store_calls w /\ arrivals w' = arrivals w.

Lemma untouched_trans (w1 w2 w3 : world) :
  untouched w1 w2 -> untouched w2 w3 -> untouched w1 w3.
Proof. unfold untouched. intros H1 H2. destruct_and!. repeat split; congruence. Qed.

Lemma calls_back_untouched (l : list hook_call) (w : world) :
  untouched w (fold_left call_back l w) /\ calls (fold_left call_back l w) = calls w.
Proof.
  revert w. induction l as [|c l IH]; intros w; simpl; [by repeat split|].
  destruct (IH (call_back w c)) as [H1 H2]. split.
  - eapply untouched_trans; [|exact H1]. by destruct c.
  - rewrite H2. by destruct c.
Qed.


(** A walk leaves the connection and the stores alone and adds to the log
    one call per handler it finds, all for the message being dispatched. *)
Lemma forEach_log (todo k n : nat) (data : message) (w : world) :
  untouched w (forEach throws calls_back todo k n data w) /\
  exists called,
    calls (forEach throws calls_back todo k n data w)
    = calls w ++ map (fun h => (h, n, data)) called /\
    length called <= todo.
Proof.
  revert k w. induction todo as [|todo IH]; intros k w; simpl.
  { split; [by repeat split|]. exists []. split; [by rewrite app_nil_r | done]. }
  destruct (default [] (messageHandlers w !! type data) !! k) as [h|].
  - destruct (calls_back_untouched (calls_back h data) (log_call h n data w))
      as [Hsame Hcalls].
    assert (untouched w (fold_left call_back (calls_back h data) (log_call h n data w)))
      as Hsame'.
    { eapply untouched_trans; [|exact Hsame]. by repeat split. }
    destruct (throws h data).
    + split; [done|]. exists [h]. rewrite Hcalls. split; [done | simpl; lia].
    + destruct (IH (S k) (fold_left call_back (calls_back h data) (log_call h n data w)))
        as [Hrest (called & Hcalled & Hlen)].
      split; [by eapply untouched_trans|].
      exists (h :: called). rewrite Hcalled, Hcalls. simpl.
      split; [by rewrite <- app_assoc | lia].
  - destruct (IH (S k) w) as [Hrest (called & Hcalled & Hlen)].
    split; [done|]. exists called. split; [done | lia].
Qed.












End Dispatcher.



Section FrameOrder.

Import FrameDistributor.
Local Open Scope N_scope.

Lemma increasing_app_l (l1 l2 : list frame) :
  increasing (l1 ++ l2) -> increasing l1.
Proof.
  unfold increasing. rewrite map_app. apply StronglySorted_app_1_l.
Qed.

Lemma increasing_drop_waiting (obs q : list frame) (k : nat) :
  increasing (obs ++ q) -> increasing (obs ++ drop k q).
Proof.
  unfold increasing. rewrite !map_app.
  rewrite <- (take_drop k q) at 1. rewrite map_app.
  rewrite !StronglySorted_app. intros (Hcross & Hobs & _ & Htake & Hdrop).
  split; [|done]. intros x1 x2 H1 H2. apply Hcross; [done|].
  apply elem_of_app. by right.
Qed.

Lemma increasing_snoc (l : list frame) (f : frame) :
  increasing l -> Forall (fun g => seq g < seq f) l -> increasing (l ++ [f]).
Proof.
  unfold increasing. intros Hl Hlt. rewrite map_app.
  apply StronglySorted_app_2; [|done|repeat constructor].
  intros x1 x2 H1 H2. apply list_elem_of_fmap in H1 as (g & -> & Hg).
  apply list_elem_of_singleton in H2 as ->.
  rewrite Forall_forall in Hlt. by apply Hlt.
Qed.

Lemma Forall_drop_waiting (P : frame -> Prop) (obs q : list frame) (k : nat) :
  Forall P (obs ++ q) -> Forall P (obs ++ drop k q).
Proof.
  rewrite !Forall_app. intros [Ho Hq]. split; [done|]. by apply Forall_drop.
Qed.

(** Both overflow policies leave on the queue a part of the old queue
    followed, perhaps, by the new frame. *)
Lemma enqueue_queue (f : frame) (ch : channel) :
  queue (enqueue f ch) = queue ch \/
  exists k, queue (enqueue f ch) = drop k (queue ch ++ [f]).
Proof.
  unfold enqueue. destruct (overflow ch); simpl.
  - right. eauto.
  - destruct (length (queue ch) <? capacity ch)%nat; simpl; [|by left].
    right. by exists 0%nat.
Qed.

Lemma consumer_ok_publish (d : distributor) (c : N) (gap time : N) :
  consumer_ok d c -> consumer_ok (step d (Publish gap time)) c.
Proof.
  intros [Hinc Hlt]. unfold consumer_ok, observed, waiting in *. simpl.
  rewrite lookup_fmap.
  set (f := mkFrame (next_seq d + gap) time).
  assert (forall l : list frame, Forall (fun g => seq g < next_seq d) l ->
            Forall (fun g => seq g < N.succ (next_seq d + gap)) l) as Hweak.
  { intros l Hl. eapply Forall_impl; [exact Hl|]. intros g Hg. simpl in *. lia. }
  destruct (channels d !! c) as [ch|]; simpl.
  - destruct (enqueue_queue f ch) as [-> | [k ->]].
    + split; [done | by apply Hweak].
    + split.
      * apply increasing_drop_waiting. rewrite app_assoc.
        apply increasing_snoc; [done|].
        eapply Forall_impl; [exact Hlt|]. intros g Hg. simpl in *. lia.
      * apply Forall_drop_waiting. rewrite app_assoc. apply Forall_app.
        split; [by apply Hweak|]. repeat constructor. simpl. lia.
  - split; [done | by apply Hweak].
Qed.

Lemma consumer_ok_emptied (d d' : distributor) (c : N) :
  consumer_ok d c ->
  observed c d' = observed c d -> waiting c d' = [] -> next_seq d' = next_seq d ->
  consumer_ok d' c.
Proof.
  intros [Hinc Hlt] Ho Hw Hn. unfold consumer_ok. rewrite Ho, Hw, Hn.
  rewrite <- (drop_all (waiting c d)).
  split; [by apply increasing_drop_waiting | by apply Forall_drop_waiting].
Qed.

Lemma consumer_ok_step (d : distributor) (a : action) (c : N) :
  consumer_ok d c -> consumer_ok (step d a) c.
Proof.
  intros Hok. destruct a as [gap time|c' p cap|c'|c'].
  - by apply consumer_ok_publish.
  - destruct (decide (c' = c)) as [->|Hne].
    + apply (consumer_ok_emptied d); try done.
      unfold waiting. simpl. by rewrite lookup_insert_eq.
    + unfold consumer_ok, observed, waiting in *. simpl.
      by rewrite lookup_insert_ne.
  - destruct (decide (c' = c)) as [->|Hne].
    + apply (consumer_ok_emptied d); try done.
      unfold waiting. simpl. by rewrite lookup_delete_eq.
    + unfold consumer_ok, observed, waiting in *. simpl.
      by rewrite lookup_delete_ne.
  - simpl. destruct (channels d !! c') as [[p cap [|f rest]]|] eqn:Hch; try done.
    destruct (decide (c' = c)) as [->|Hne].
    + unfold consumer_ok, observed, waiting in *. simpl.
      rewrite !lookup_insert_eq. simpl. rewrite Hch in Hok. simpl in Hok.
      by rewrite <- app_assoc.
    + unfold consumer_ok, observed, waiting in *. simpl.
      by rewrite !lookup_insert_ne.
Qed.

Lemma consumer_ok_run (trace : list action) (d : distributor) (c : N) :
  consumer_ok d c -> consumer_ok (run trace d) c.
Proof.
  revert d. induction trace as [|a trace IH]; intros d Hd; simpl; [done|].
  by apply IH, consumer_ok_step.
Qed.

Lemma consumer_ok_initial (c : N) : consumer_ok initial c.
Proof. split; constructor. Qed.

(** C7. For every consumer of the frame distributor and every execution
    (frames published with or without gaps, consumers attaching, detaching
    and taking frames in any interleaving, queues overflowing under either
    drop policy), the sequence numbers of the frames the consumer has
    observed are strictly increasing: frames may be missing, none is out of
    order. *)
Theorem observed_frames_increasing (trace : list action) (c : N) :
  StronglySorted N.lt (map seq (observed c (run trace initial))).
Proof.
  destruct (consumer_ok_run trace initial c (consumer_ok_initial c)) as [H _].
  by apply increasing_app_l in H.
Qed.

End FrameOrder.

Example drop_oldest_leaves_gaps :
  FrameDistributor.seq <$>
    FrameDistributor.observed 7
      (FrameDistributor.run
         [FrameDistributor.Attach 7 FrameDistributor.DropOldest 2;
          FrameDistributor.Publish 0 10; FrameDistributor.Publish 0 20;
          FrameDistributor.Publish 3 30; FrameDistributor.Take 7;
          FrameDistributor.Publish 0 40; FrameDistributor.Publish 0 50;
          FrameDistributor.Take 7; FrameDistributor.Take 7]
         FrameDistributor.initial)
  = [1%N; 6%N; 7%N].
Proof. vm_compute. reflexivity. Qed.

(* ===================================================================== *)
(** * Further properties of the stores and their selectors *)
(* ===================================================================== *)

Section CameraCatalogue.

Import Js StoreActions CameraStore CameraActions.

Lemma strict_eq_trans_false (a i j : value) :
  strict_eq a j = true -> strict_eq j i = false -> strict_eq a i = false.
Proof.
  destruct a, j; simpl; try done; destruct i; simpl; try done.
  - intros H1 H2. apply Bool.eqb_prop in H1. by subst.
  - intros H1 H2. apply Z.eqb_eq in H1. by subst.
  - intros H1 H2. apply andb_true_iff in H1 as [H1 H1'].
    apply Z.eqb_eq in H1. apply Pos.eqb_eq in H1'. by subst.
  - intros H1 H2. apply Bool.eqb_prop in H1. by subst.
  - intros H1 H2. apply String.eqb_eq in H1. by subst.
  - intros H1 H2. apply N.eqb_eq in H1. by subst.
Qed.

Lemma find_app_none {A} (f : A -> bool) (l1 l2 : list A) :
  List.find f l1 = None -> List.find f (l1 ++ l2) = List.find f l2.
Proof.
  induction l1 as [|x l1 IH]; simpl; [done|].
  destruct (f x); [done | apply IH].
Qed.

Lemma find_none_iff (cameraId : value) (l : list object) :
  (forall c, c ∈ l -> strict_eq (get c "id") cameraId = false) ->
  List.find (fun c => strict_eq (get c "id") cameraId) l = None.
Proof.
  induction l as [|c l IH]; intros H; simpl; [done|].
  rewrite (H c) by (by left). apply IH. intros c' Hc'. apply H. by right.
Qed.

Lemma filter_keeps_all (cameraId : value) (l : list object) :
  (forall c, c ∈ l -> strict_eq (get c "id") cameraId = false) ->
  List.filter (fun c => negb (strict_eq (get c "id") cameraId)) l = l.
Proof.
  induction l as [|c l IH]; intros H; simpl; [done|].
  rewrite (H c) by (by left). simpl. f_equal. apply IH.
  intros c' Hc'. apply H. by right.
Qed.

(** X1. A camera created with an id no stored camera has is found by
    getCameraById under that id, and deleting that id afterwards gives back
    the camera list as it was before the creation. *)
Theorem createCamera_lookup_delete (camera : object) (cameraId : value) (st : state) :
  strict_eq (get camera "id") cameraId = true ->
  (forall c, c ∈ cameras st -> strict_eq (get c "id") cameraId = false) ->
  let st' := fst (createCamera (Resolved camera) st) in
  getCameraById cameraId st' = Some camera /\
  cameras (fst (deleteCamera cameraId (Resolved tt) st')) = cameras st.
Proof.
  intros Hid Hfresh. simpl. split.
  - unfold getCameraById. simpl.
    rewrite find_app_none by (by apply find_none_iff).
    simpl. by rewrite Hid.
  - rewrite List.filter_app. simpl. rewrite Hid. simpl.
    rewrite filter_keeps_all by done. apply app_nil_r.
Qed.

Lemma createCamera_lookup_delete_witness :
  let camera : object := <["id" := Num 7]> (<["name" := Str "Gate"]> ∅) in
  getCameraById (Num 7) (fst (createCamera (Resolved camera) initial)) = Some camera /\
  cameras (fst (deleteCamera (Num 7) (Resolved tt)
                 (fst (createCamera (Resolved camera) initial)))) = [].
Proof.
  apply (createCamera_lookup_delete
           (<["id" := Num 7]> (<["name" := Str "Gate"]> ∅)) (Num 7) initial).
  - reflexivity.
  - intros c Hc. inversion Hc.
Defined.

Lemma find_filter_other (i j : value) (l : list object) :
  strict_eq j i = false ->
  List.find (fun c => strict_eq (get c "id") j)
    (List.filter (fun c => negb (strict_eq (get c "id") i)) l)
  = List.find (fun c => strict_eq (get c "id") j) l.
Proof.
  intros Hji. induction l as [|c l IH]; simpl; [done|].
  destruct (strict_eq (get c "id") j) eqn:Hcj.
  - rewrite (strict_eq_trans_false _ _ _ Hcj Hji). simpl. by rewrite Hcj.
  - destruct (strict_eq (get c "id") i); simpl; [done|]. by rewrite Hcj.
Qed.

Lemma find_filter_same (i : value) (l : list object) :
  List.find (fun c => strict_eq (get c "id") i)
    (List.filter (fun c => negb (strict_eq (get c "id") i)) l) = None.
Proof.
  induction l as [|c l IH]; simpl; [done|].
  destruct (strict_eq (get c "id") i) eqn:E; simpl; [done|]. by rewrite E.
Qed.

(** X2. After a successful deleteCamera, getCameraById finds nothing under
    the deleted id and finds under every other id what it found before;
    the remaining cameras keep their order; the selection is cleared
    exactly when the selected camera had the deleted id. *)
Theorem deleteCamera_forgets_only_that_id (cameraId : value) (st : state) :
  let st' := fst (deleteCamera cameraId (Resolved tt) st) in
  getCameraById cameraId st' = None /\
  (forall other, strict_eq other cameraId = false ->
     getCameraById other st' = getCameraById other st) /\
  cameras st' `sublist_of` cameras st /\
  (forall c, c ∈ cameras st' <->
     c ∈ cameras st /\ strict_eq (get c "id") cameraId = false) /\
  selectedCamera st' =
    (if strict_eq (get_opt (selectedCamera st) "id") cameraId
     then None else selectedCamera st).
Proof.
  simpl. unfold getCameraById. simpl.
  split; [apply find_filter_same|]. split; [intros; by apply find_filter_other|].
  split; [|split; [|done]].
  - induction (cameras st) as [|c l IH]; simpl; [done|].
    destruct (strict_eq (get c "id") cameraId); simpl;
      [by apply sublist_cons | by apply sublist_skip].
  - intros c. rewrite list_elem_of_In, List.filter_In, <- list_elem_of_In.
    by rewrite negb_true_iff.
Qed.

End CameraCatalogue.

Section CameraUpdates.

Import Js StoreActions CameraStore CameraActions.

Lemma find_replaced (cameraId : value) (camera : object) (l : list object) :
  strict_eq (get camera "id") cameraId = true ->
  (exists c, c ∈ l /\ strict_eq (get c "id") cameraId = true) ->
  List.find (fun c => strict_eq (get c "id") cameraId)
    (map (fun c => if strict_eq (get c "id") cameraId then camera else c) l)
  = Some camera.
Proof.
  intros Hid. induction l as [|c l IH]; intros (c0 & Hin & Hc0); [inversion Hin|].
  simpl. destruct (strict_eq (get c "id") cameraId) eqn:E.
  - by rewrite Hid.
  - rewrite E. apply IH. exists c0. split; [|done].
    apply elem_of_cons in Hin as [->|Hin]; [congruence | done].
Qed.

Lemma map_replace_none (cameraId : value) (camera : object) (l : list object) :
  (forall c, c ∈ l -> strict_eq (get c "id") cameraId = false) ->
  map (fun c => if strict_eq (get c "id") cameraId then camera else c) l = l.
Proof.
  induction l as [|c l IH]; intros H; simpl; [done|].
  rewrite (H c) by (by left). f_equal. apply IH.
  intros c' Hc'. apply H. by right.
Qed.

(** X3. A successful updateCamera keeps the number and order of cameras and
    puts the camera the API returned in the place of every camera with the
    given id, the others staying as they were. When no stored camera has
    the id the list is unchanged although the call succeeded; when one has
    it and the returned camera carries the same id, getCameraById then
    returns the returned camera. *)
Theorem updateCamera_replaces_in_place (cameraId : value) (camera : object) (st : state) :
  let st' := fst (updateCamera cameraId (Resolved camera) st) in
  length (cameras st') = length (cameras st) /\
  (forall n c, cameras st !! n = Some c ->
     cameras st' !! n
     = Some (if strict_eq (get c "id") cameraId then camera else c)) /\
  ((forall c, c ∈ cameras st -> strict_eq (get c "id") cameraId = false) ->
   cameras st' = cameras st) /\
  (strict_eq (get camera "id") cameraId = true ->
   (exists c, c ∈ cameras st /\ strict_eq (get c "id") cameraId = true) ->
   getCameraById cameraId st' = Some camera).
Proof.
  simpl. split; [apply length_map|]. split; [|split].
  - intros n c Hn. change (@map object object) with (@fmap list _ object object).
    by rewrite list_lookup_fmap, Hn.
  - apply map_replace_none.
  - intros Hid Hex. unfold getCameraById. simpl. by apply find_replaced.
Qed.

(** X4. A camera action whose API call fails (createCamera, updateCamera or
    deleteCamera) leaves the camera list, the selection and the filters as
    they were, ends with isLoading false and stores and returns the same
    non-empty error text: the server's userMessage when it is truthy, the
    action's own text otherwise. A later successful call of the action wipes
    the error: the store ends up exactly as if the failure had not
    happened. *)
Theorem failed_camera_action_keeps_data
    (userMessage cameraId : value) (camera : object) (st : state) :
  Forall (fun '(failure, retry, direct) =>
            cameras (fst failure) = cameras st /\
            selectedCamera (fst failure) = selectedCamera st /\
            filters (fst failure) = filters st /\
            isLoading (fst failure) = false /\
            truthy (error (fst failure)) = true /\
            snd failure = Failure (error (fst failure)) /\
            (truthy userMessage = true -> error (fst failure) = userMessage) /\
            retry = direct)
    [ (createCamera (Rejected userMessage) st,
       createCamera (Resolved camera) (fst (createCamera (Rejected userMessage) st)),
       createCamera (Resolved camera) st);
      (updateCamera cameraId (Rejected userMessage) st,
       updateCamera cameraId (Resolved camera)
         (fst (updateCamera cameraId (Rejected userMessage) st)),
       updateCamera cameraId (Resolved camera) st);
      (deleteCamera cameraId (Rejected userMessage) st,
       deleteCamera cameraId (Resolved tt)
         (fst (deleteCamera cameraId (Rejected userMessage) st)),
       deleteCamera cameraId (Resolved tt) st) ].
Proof.
  repeat constructor; simpl; unfold or_else;
    try (destruct (truthy userMessage) eqn:E; done).
Qed.

End CameraUpdates.

Section CameraFilters.

Import Js StoreActions CameraStore CameraActions.

Variable toLowerCase : string -> string.

Lemma filter_throwing_total (f : object -> bool) (l : list object) :
  filter_throwing (fun c => Some (f c)) l = Some (List.filter f l).
Proof.
  induction l as [|c l IH]; simpl; [done|]. rewrite IH. by destruct (f c).
Qed.

Lemma filter_throwing_ext (f g : object -> option bool) (l : list object) :
  (forall c, f c = g c) -> filter_throwing f l = filter_throwing g l.
Proof.
  intros H. induction l as [|c l IH]; simpl; [done|]. by rewrite H, IH.
Qed.

Lemma filter_true (l : list object) : List.filter (fun _ => true) l = l.
Proof. induction l as [|c l IH]; simpl; [done | by rewrite IH]. Qed.

(** X5. With the filters cleared, getFilteredCameras returns every camera
    and cannot throw. With only a status filter set on top of that, it
    returns the cameras whose status is exactly that text, which for
    "online", "offline" and "error" is what getOnlineCameras,
    getOfflineCameras and getErrorCameras of useCameras return; the status
    "all" selects every camera. *)
Theorem getFilteredCameras_by_status (status : string) (st : state) :
  getFilteredCameras toLowerCase (clearFilters st) = Some (cameras st) /\
  getFilteredCameras toLowerCase
    (setFilters (<["status" := Str status]> ∅) (clearFilters st))
  = Some (if String.eqb status "all" then cameras st
          else camerasWithStatus status st) /\
  getFilteredCameras toLowerCase
    (setFilters (<["status" := Str "online"]> ∅) (clearFilters st))
  = Some (getOnlineCameras st) /\
  getFilteredCameras toLowerCase
    (setFilters (<["status" := Str "offline"]> ∅) (clearFilters st))
  = Some (getOfflineCameras st) /\
  getFilteredCameras toLowerCase
    (setFilters (<["status" := Str "error"]> ∅) (clearFilters st))
  = Some (getErrorCameras st).
Proof.
  assert (forall s,
    getFilteredCameras toLowerCase
      (setFilters (<["status" := Str s]> ∅) (clearFilters st))
    = Some (if String.eqb s "all" then cameras st else camerasWithStatus s st)) as Hs.
  { intros s. unfold getFilteredCameras. simpl.
    rewrite (filter_throwing_ext _
      (fun c => Some (String.eqb s "all" || strict_eq (get c "status") (Str s)))).
    - rewrite filter_throwing_total. f_equal.
      destruct (String.eqb s "all"); simpl; [apply filter_true | done].
    - intros c. unfold camera_matches, spread, get.
      rewrite lookup_union_l' by (rewrite lookup_insert_eq; by eexists).
      rewrite lookup_insert_eq. simpl.
      rewrite lookup_union_r by (by rewrite lookup_insert_ne).
      rewrite lookup_insert_ne, lookup_insert_eq by done. simpl.
      by rewrite andb_true_r. }
  split; [|split; [apply Hs|split; [apply Hs|split; apply Hs]]].
  unfold getFilteredCameras. simpl.
  rewrite (filter_throwing_ext _ (fun c => Some true)).
  - rewrite filter_throwing_total. by rewrite filter_true.
  - intros c. unfold camera_matches, get.
    rewrite lookup_insert_eq, lookup_insert_ne, lookup_insert_eq by done. done.
Qed.

Lemma filter_throwing_sublist (f : object -> option bool) (l kept : list object) :
  filter_throwing f l = Some kept -> kept `sublist_of` l.
Proof.
  revert kept. induction l as [|c l IH]; intros kept; simpl.
  - by intros [= <-].
  - destruct (f c) as [keep|]; [|done].
    destruct (filter_throwing f l) as [kept'|]; [|done].
    intros [= <-]. destruct keep; [apply sublist_skip | apply sublist_cons]; by apply IH.
Qed.

Lemma filter_throwing_throws (f : object -> option bool) (l : list object) (c : object) :
  c ∈ l -> f c = None -> filter_throwing f l = None.
Proof.
  induction l as [|c' l IH]; intros Hin Hc; [inversion Hin|].
  simpl. apply elem_of_cons in Hin as [<-|Hin].
  - by rewrite Hc.
  - destruct (f c'); [|done]. by rewrite (IH Hin Hc).
Qed.

(** X6. What getFilteredCameras returns is always a part of the camera
    list in its original order. When a search text is set and some camera
    has a name that is not a string (missing, null, a number), the call
    throws instead of returning, whatever the status filter says. *)
Theorem getFilteredCameras_search_needs_names (st : state) :
  (forall kept, getFilteredCameras toLowerCase st = Some kept ->
     kept `sublist_of` cameras st) /\
  (truthy (get (filters st) "search") = true ->
   (exists c, c ∈ cameras st /\ forall name, get c "name" <> Str name) ->
   getFilteredCameras toLowerCase st = None).
Proof.
  split.
  - intros kept. apply filter_throwing_sublist.
  - intros Hsearch (c & Hin & Hname). unfold getFilteredCameras.
    apply (filter_throwing_throws _ _ c Hin).
    unfold camera_matches. rewrite Hsearch. simpl.
    destruct (get c "name") eqn:E; simpl; try done.
    by destruct (Hname s).
Qed.

End CameraFilters.

Section EventBookkeeping.

Import Js StoreActions EventStore EventActions.

Lemma viewed_is_viewed (e : object) : truthy (get (viewed (Some e)) "viewed") = true.
Proof. unfold viewed, get. simpl. by rewrite lookup_insert_eq. Qed.

Lemma viewed_keeps_id (e : object) : get (viewed (Some e)) "id" = get e "id".
Proof. unfold viewed, get. simpl. by rewrite lookup_insert_ne. Qed.

(** X7. After a successful markAsViewed, the unviewed events of useEvents
    are the events that were unviewed before, less those with the marked
    id, in the same order; events with another id keep their viewed flag. *)
Theorem markAsViewed_unviewed (eventId : value) (st : state) :
  getUnviewedEvents (fst (markAsViewed eventId (Resolved tt) st))
  = List.filter (fun e => negb (strict_eq (get e "id") eventId))
      (getUnviewedEvents st).
Proof.
  unfold getUnviewedEvents. simpl.
  induction (events st) as [|e l IH]; simpl; [done|].
  destruct (strict_eq (get e "id") eventId) eqn:E.
  - rewrite viewed_is_viewed. simpl.
    destruct (truthy (get e "viewed")); simpl; [done|]. by rewrite E.
  - destruct (truthy (get e "viewed")); simpl; [done|]. rewrite E. simpl.
    by rewrite IH.
Qed.

Lemma same_value_zero_id (v : value) (i : CameraStore.camera_id) :
  same_value_zero (CameraStore.id_value i) v = strict_eq v (CameraStore.id_value i).
Proof.
  destruct i as [n|s]; destruct v; simpl; try done.
  - apply Z.eqb_sym.
  - apply String.eqb_sym.
Qed.

Lemma viewed_twice (e : object) : viewed (Some (viewed (Some e))) = viewed (Some e).
Proof. unfold viewed. simpl. apply insert_insert_eq. Qed.

Lemma mark_event_step (i : CameraStore.camera_id) (ids : list value) (e : object) :
  let marked := if strict_eq (get e "id") (CameraStore.id_value i)
                then viewed (Some e) else e in
  (if includes (CameraStore.id_value i :: ids) (get e "id") then viewed (Some e) else e)
  = (if includes ids (get marked "id") then viewed (Some marked) else marked).
Proof.
  simpl. rewrite same_value_zero_id.
  destruct (strict_eq (get e "id") (CameraStore.id_value i)); simpl.
  - rewrite viewed_keeps_id, viewed_twice. by destruct (includes ids (get e "id")).
  - done.
Qed.

(** X8. Marking a list of events as viewed in one markManyAsViewed call
    leaves the store exactly as marking them one after the other with
    markAsViewed does (ids being numbers or strings, all calls
    succeeding). *)
Theorem markManyAsViewed_one_by_one (ids : list CameraStore.camera_id) (st : state) :
  fst (markManyAsViewed (map CameraStore.id_value ids) (Resolved tt) st)
  = fold_left (fun st i => fst (markAsViewed (CameraStore.id_value i) (Resolved tt) st))
      ids st.
Proof.
  revert st. induction ids as [|i ids IH]; intros st.
  - simpl. destruct st as [evs sel l e f]. simpl. f_equal.
    + by rewrite map_id.
    + by destruct sel.
  - simpl fold_left. rewrite <- IH. simpl. f_equal.
    + rewrite map_map. apply map_ext. intros e. apply mark_event_step.
    + destruct (selectedEvent st) as [sel|] eqn:Hsel; simpl.
      * pose proof (mark_event_step i (map CameraStore.id_value ids) sel) as H.
        simpl in H.
        destruct (strict_eq (get sel "id") (CameraStore.id_value i)); simpl.
        -- destruct (same_value_zero (CameraStore.id_value i) (get sel "id")
                     || includes (map CameraStore.id_value ids) (get sel "id"));
             destruct (includes (map CameraStore.id_value ids)
                         (get (viewed (Some sel)) "id")); congruence.
        -- destruct (same_value_zero (CameraStore.id_value i) (get sel "id")
                     || includes (map CameraStore.id_value ids) (get sel "id"));
             destruct (includes (map CameraStore.id_value ids) (get sel "id"));
             congruence.
      * by destruct i.
Qed.

(** X9. Events pushed through addEvent come out of getRecentEvents newest
    first: once at least [limit] events have arrived, getRecentEvents
    returns the last [limit] arrivals in reverse order of arrival, whatever
    the store held before, and it never returns more than [limit] events. *)
Theorem getRecentEvents_after_receive (limit : nat) (incoming : list object) (st : state) :
  limit <= length incoming ->
  getRecentEvents limit (receive incoming st)
  = rev (drop (length incoming - limit) incoming) /\
  length (getRecentEvents limit (receive incoming st)) = limit.
Proof.
  intros Hle. unfold getRecentEvents.
  rewrite receive_events.
  rewrite take_app_le by (rewrite length_rev; lia).
  split.
  - apply firstn_rev.
  - rewrite length_take, length_rev. lia.
Qed.

End EventBookkeeping.

Section EventUpdates.

Import Js StoreActions EventStore.

Lemma spread_keeps_id (e updates : object) :
  updates !! "id" = None -> get (spread e updates) "id" = get e "id".
Proof. intros H. unfold spread, get. by rewrite lookup_union_r. Qed.

Lemma spread_spread (e u1 u2 : object) :
  spread (spread e u1) u2 = spread e (u2 ∪ u1).
Proof. unfold spread. apply (assoc_L (∪)). Qed.

(** X10. Two updateEvent calls for the same event id act as one call with
    the two sets of updates merged, the later one winning, as long as the
    first set of updates does not carry an "id" of its own. *)
Theorem updateEvent_twice (eventId : value) (u1 u2 : object) (st : state) :
  u1 !! "id" = None ->
  updateEvent eventId u2 (updateEvent eventId u1 st)
  = updateEvent eventId (u2 ∪ u1) st.
Proof.
  intros Hid. unfold updateEvent. simpl. f_equal.
  - rewrite map_map. apply map_ext. intros e.
    destruct (strict_eq (get e "id") eventId) eqn:E.
    + by rewrite (spread_keeps_id e u1 Hid), E, spread_spread.
    + by rewrite E.
  - destruct (selectedEvent st) as [sel|]; simpl.
    + destruct (strict_eq (get sel "id") eventId) eqn:E; simpl.
      * by rewrite (spread_keeps_id sel u1 Hid), E, spread_spread.
      * by rewrite E.
    + destruct eventId; simpl; try done.
      rewrite (spread_keeps_id ∅ u1 Hid). unfold get at 1.
      rewrite lookup_empty. simpl. by rewrite spread_spread.
Qed.

Lemma updateEvent_twice_witness :
  updateEvent (Num 1) (<["viewed" := Bool true]> ∅)
    (updateEvent (Num 1) (<["priority" := Str "high"]> ∅)
       (addEvent (<["id" := Num 1]> ∅) initial))
  = updateEvent (Num 1)
      ((<["viewed" := Bool true]> ∅) ∪ (<["priority" := Str "high"]> ∅))
      (addEvent (<["id" := Num 1]> ∅) initial).
Proof.
  apply (updateEvent_twice (Num 1) (<["priority" := Str "high"]> ∅)
           (<["viewed" := Bool true]> ∅)).
  reflexivity.
Defined.

Lemma getRecentEvents_after_receive_witness :
  EventActions.getRecentEvents 2
    (receive [<["id" := Num 1]> ∅; <["id" := Num 2]> ∅; <["id" := Num 3]> ∅] initial)
  = [<["id" := Num 3]> ∅; <["id" := Num 2]> ∅].
Proof.
  apply (proj1 (getRecentEvents_after_receive 2
           [<["id" := Num 1]> ∅; <["id" := Num 2]> ∅; <["id" := Num 3]> ∅] initial
           ltac:(simpl; lia))).
Defined.

End EventUpdates.

(* ===================================================================== *)
(** * Further properties of the WebSocket hook *)
(* ===================================================================== *)

Section Subscriptions.

Import WebSocketHook WebSocketUse.

Variable throws : positive -> message -> bool.
Variable calls_back : positive -> message -> list hook_call.





End Subscriptions.

Section Connections.

Import WebSocketHook WebSocketUse.

Variable throws : positive -> message -> bool.
Variable calls_back : positive -> message -> list hook_call.

Lemma onmessage_connection (payload : option message) (w : world) :
  token (onmessage throws calls_back payload w) = token w /\
  wsRef (onmessage throws calls_back payload w) = wsRef w /\
  sockets (onmessage throws calls_back payload w) = sockets w /\
  timers (onmessage throws calls_back payload w) = timers w /\
  next_socket (onmessage throws calls_back payload w) = next_socket w.
Proof.
  destruct payload as [data|]; [|done]. unfold onmessage.
  destruct (String.eqb (type data) "camera_status"); [done|].
  destruct (String.eqb (type data) "event"); [done|].
  destruct (String.eqb (type data) "event_update"); [done|].
  destruct (forEach_log throws calls_back
              (length (default [] (messageHandlers w !! type data))) 0
              (arrivals w) data w) as [Hsame _].
  unfold untouched in Hsame. simpl. by destruct_and!.
Qed.

Lemma is_Some_insert_known {V} (m : gmap positive V) (s s' : positive) (v : V) :
  is_Some (m !! s) -> is_Some (<[s := v]> m !! s') <-> is_Some (m !! s').
Proof.
  intros Hs. destruct (decide (s = s')) as [<-|Hne].
  - rewrite lookup_insert_eq. split; [done | by eexists].
  - by rewrite lookup_insert_ne.
Qed.

Lemma is_Some_alter {V} (f : V -> V) (m : gmap positive V) (s s' : positive) :
  is_Some (alter f s m !! s') <-> is_Some (m !! s').
Proof.
  destruct (decide (s = s')) as [<-|Hne].
  - rewrite lookup_alter_eq. by rewrite fmap_is_Some.
  - by rewrite lookup_alter_ne.
Qed.

Lemma disconnect_same_sockets (w : world) : same_sockets w (disconnect w).
Proof.
  unfold disconnect, same_sockets.
  destruct (reconnectTimeoutRef w); simpl; destruct (wsRef w); simpl;
    (split; [done|]; split; [done|]; intros x; try apply is_Some_alter; done).
Qed.

Lemma step_without_token (w : world) (a : action) :
  token w = None -> logs_in a = false -> same_sockets w (step throws calls_back w a).
Proof.
  intros Htok Ha. destruct a as [| |tok|ty h|ty h|s|s payload|s|s|t]; simpl.
  - unfold connect. by rewrite Htok.
  - apply disconnect_same_sockets.
  - destruct tok; [done|]. by rewrite Htok.
  - done.
  - done.
  - destruct (sockets w !! s) as [[]|] eqn:Hs; try done.
    repeat split; try done; simpl; apply is_Some_insert_known; by rewrite Hs.
  - destruct (sockets w !! s) as [[]|] eqn:Hs; try done.
    destruct (onmessage_connection payload w) as (H1 & _ & H2 & _ & H3).
    unfold same_sockets. by rewrite H1, H2, H3.
  - done.
  - destruct (sockets w !! s) as [[]|] eqn:Hs; try done;
      repeat split; try done; simpl; apply is_Some_insert_known; by rewrite Hs.
  - destruct (timers w !! t); [|done]. unfold connect. simpl. by rewrite Htok.
Qed.

(** X12. While there is no token, no socket is ever created: whatever the
    hook is asked to do and whatever the browser reports (connect calls,
    close events, reconnect timeouts firing, messages), as long as no action
    brings a token the set of sockets stays the same and the token stays
    absent. In particular a reconnect timeout left over after a logout fires
    without opening anything. *)
Theorem no_token_no_new_socket (trace : list action) (w : world) :
  token w = None ->
  Forall (fun a => logs_in a = false) trace ->
  token (run throws calls_back trace w) = None /\
  next_socket (run throws calls_back trace w) = next_socket w /\
  forall s, is_Some (sockets (run throws calls_back trace w) !! s) <-> is_Some (sockets w !! s).
Proof.
  revert w. induction trace as [|a trace IH]; intros w Htok Hall; simpl; [done|].
  inversion Hall as [|? ? Ha Hrest]; subst.
  destruct (step_without_token w a Htok Ha) as (H1 & H2 & H3).
  destruct (IH (step throws calls_back w a)) as (G1 & G2 & G3); [congruence | done |].
  split; [done|]. split; [congruence|]. intros s. by rewrite G3, H3.
Qed.

(** X13. sendMessage writes to a socket only when the hook's current socket
    is open. Nothing is sent after disconnect(), right after connect() (the
    new socket is still connecting), or once the current socket has closed;
    the message is then dropped with a warning, it is not queued. After the
    open event of the current socket, sendMessage writes to that socket. *)
Theorem sendMessage_only_when_open (w : world) :
  sendMessage (disconnect w) = None /\
  (is_Some (token w) -> sendMessage (connect w) = None) /\
  (forall s, wsRef w = Some s ->
     sendMessage (step throws calls_back w (SocketClose s)) = None) /\
  (forall s, wsRef w = Some s -> sockets w !! s = Some CONNECTING ->
     sendMessage (step throws calls_back w (SocketOpen s)) = Some s).
Proof.
  split; [|split; [|split]].
  - unfold disconnect, sendMessage.
    destruct (reconnectTimeoutRef w); simpl; destruct (wsRef w) eqn:E; simpl;
      rewrite ?E; done.
  - intros [tok Htok]. unfold connect, sendMessage. rewrite Htok. simpl.
    by rewrite lookup_insert_eq.
  - intros s Hs. unfold sendMessage. simpl.
    destruct (sockets w !! s) as [[]|] eqn:E; simpl; rewrite Hs;
      rewrite ?lookup_insert_eq, ?E; done.
  - intros s Hs Hc. unfold sendMessage. simpl. rewrite Hc. simpl.
    by rewrite Hs, lookup_insert_eq.
Qed.

Lemma step_numbered (w : world) (a : action) :
  numbered w -> numbered (step throws calls_back w a).
Proof.
  assert (forall w0, numbered w0 -> numbered (connect w0)) as Hconnect.
  { intros w0 H0. unfold connect. destruct (token w0) as [tk|]; [|done].
    intros x. simpl. destruct (decide (next_socket w0 = x)) as [<-|Hne].
    - intros _. lia.
    - rewrite lookup_insert_ne by done. intros Hx. specialize (H0 x Hx). lia. }
  assert (forall w0, numbered w0 -> numbered (disconnect w0)) as Hdisconnect.
  { intros w0 H0 s Hs. destruct (disconnect_same_sockets w0) as (_ & -> & H).
    apply H0. by apply H. }
  intros Hw. destruct a as [| |tok|ty h|ty h|s|s payload|s|s|t]; simpl.
  - by apply Hconnect.
  - by apply Hdisconnect.
  - destruct (same_token tok (token w)); [done|].
    destruct tok; [by apply Hconnect | by apply Hdisconnect].
  - done.
  - done.
  - destruct (sockets w !! s) as [[]|] eqn:Hs; try done.
    intros s'. simpl. rewrite is_Some_insert_known by (by rewrite Hs). apply Hw.
  - destruct (sockets w !! s) as [[]|] eqn:Hs; try done.
    destruct (onmessage_connection payload w) as (_ & _ & H2 & _ & H3).
    intros s'. rewrite H2, H3. apply Hw.
  - done.
  - destruct (sockets w !! s) as [[]|] eqn:Hs; try done;
      intros s'; simpl; rewrite is_Some_insert_known by (by rewrite Hs); apply Hw.
  - destruct (timers w !! t); [|done]. by apply Hconnect.
Qed.

Lemma run_numbered (trace : list action) (w : world) :
  numbered w -> numbered (run throws calls_back trace w).
Proof.
  revert w. induction trace as [|a trace IH]; intros w Hw; simpl; [done|].
  by apply IH, step_numbered.
Qed.

Lemma initial_numbered tok : numbered (initial tok).
Proof. intros s [r Hr]. simpl in Hr. by rewrite lookup_empty in Hr. Qed.

Lemma token_change_keeps_socket (w : world) (s : positive) (r : readyState)
    (tok' : string) :
  numbered w ->
  sockets w !! s = Some r ->
  token w <> Some tok' ->
  sockets (connect w) !! s = Some r /\
  sockets (step throws calls_back w (TokenChange (Some tok'))) !! s = Some r /\
  wsRef (step throws calls_back w (TokenChange (Some tok'))) = Some (next_socket w) /\
  sockets (step throws calls_back w (TokenChange (Some tok'))) !! next_socket w = Some CONNECTING /\
  next_socket w <> s.
Proof.
  intros Hnum Hs Htok.
  assert (next_socket w <> s) as Hne.
  { specialize (Hnum s). rewrite Hs in Hnum. specialize (Hnum ltac:(by eexists)). lia. }
  assert (same_token (Some tok') (token w) = false) as Hdiff.
  { destruct (token w) as [t|]; [|done]. simpl.
    destruct (String.eqb_spec tok' t); [by subst | done]. }
  change (step throws calls_back w (TokenChange (Some tok')))
    with (if same_token (Some tok') (token w) then w
          else connect (set_token (Some tok') w)).
  rewrite Hdiff. unfold connect. simpl.
  rewrite lookup_insert_eq, lookup_insert_ne by done.
  repeat split; try done.
  destruct (token w); [|done]. simpl. by rewrite lookup_insert_ne.
Qed.

(** X14. connect() never closes or replaces an earlier socket. In every
    state the hook can reach, a socket keeps its state across a connect()
    call, and when the token changes to a different one the hook opens a
    new socket and moves its ref to it while the previous socket stays as
    it was (open, if it was open): the old connection is left running. *)
Theorem connect_leaves_old_socket (trace : list action) (tok : option string)
    (s : positive) (r : readyState) (tok' : string) :
  let w := run throws calls_back trace (initial tok) in
  sockets w !! s = Some r ->
  token w <> Some tok' ->
  let w' := step throws calls_back w (TokenChange (Some tok')) in
  sockets (connect w) !! s = Some r /\
  sockets w' !! s = Some r /\
  wsRef w' = Some (next_socket w) /\
  sockets w' !! next_socket w = Some CONNECTING /\
  next_socket w <> s.
Proof.
  intros w Hs Htok w'. apply token_change_keeps_socket; try done.
  apply run_numbered, initial_numbered.
Qed.

End Connections.

Section ConnectionExamples.

Import WebSocketHook WebSocketUse.

Lemma no_token_no_new_socket_witness :
  let logged_out := run (fun _ _ => false) (fun _ _ => []) [Connect; SocketOpen 1; TokenChange None]
                      (initial (Some "token")) in
  let later := run (fun _ _ => false) (fun _ _ => []) [SocketClose 1; TimerFire 1; Connect] logged_out in
  token later = None /\
  next_socket later = next_socket logged_out /\
  forall s, is_Some (sockets later !! s) <-> is_Some (sockets logged_out !! s).
Proof.
  intros logged_out later.
  apply (no_token_no_new_socket (fun _ _ => false) (fun _ _ => [])
           [SocketClose 1; TimerFire 1; Connect] logged_out).
  - vm_compute. reflexivity.
  - repeat constructor.
Defined.

Lemma connect_leaves_old_socket_witness :
  let w := run (fun _ _ => false) (fun _ _ => []) [Connect; SocketOpen 1] (initial (Some "token")) in
  let w' := step (fun _ _ => false) (fun _ _ => []) w (TokenChange (Some "other")) in
  sockets (connect w) !! 1%positive = Some OPEN /\
  sockets w' !! 1%positive = Some OPEN /\
  wsRef w' = Some 2%positive /\
  sockets w' !! 2%positive = Some CONNECTING /\
  2%positive <> 1%positive.
Proof.
  apply (connect_leaves_old_socket (fun _ _ => false) (fun _ _ => []) [Connect; SocketOpen 1] (Some "token")
           1%positive OPEN "other").
  - reflexivity.
  - discriminate.
Defined.

End ConnectionExamples.

(* ===================================================================== *)
(** * Further properties of validation and formatting *)
(* ===================================================================== *)

Section FieldMessages.

Import Js Validation ValidationUse.

Variable isUrl : string -> bool.

(** The form's error map holds, for a declared field, the message of the
    last issue its value raises. *)
Lemma validateForm_field_error
    (shape : list (string * ztype)) (o : object) (key : string) (t : ztype) :
  NoDup (map fst shape) ->
  shape_lookup key shape = Some t ->
  default ∅ (errors (validateForm isUrl shape (Object_ o))) !! key
  = last (parse isUrl t (get o key)).
Proof.
  intros Hnd Hkey. unfold validateForm.
  destruct (parse_object isUrl shape (Object_ o)) as [|i l] eqn:E.
  - simpl. rewrite lookup_empty.
    pose proof (collect_shape isUrl shape o ∅ key Hnd) as H.
    rewrite E, Hkey in H. simpl in H. rewrite lookup_empty in H.
    by destruct (last (parse isUrl t (get o key))).
  - simpl. unfold collect. rewrite <- E.
    rewrite (collect_shape isUrl shape o ∅ key Hnd), Hkey.
    destruct (last (parse isUrl t (get o key))); [done | apply lookup_empty].
Qed.

(** X15. When a field of the form fails several checks of its schema,
    validateForm reports the message of the last failed check for that
    field and validateField the message of the first one; a field that
    fails no check has no entry in the error map. (The keys of a shape are
    distinct, as the keys of a JavaScript object are.) *)
Theorem form_reports_last_field_reports_first
    (shape : list (string * ztype)) (o : object) (key : string) (t : ztype) :
  NoDup (map fst shape) ->
  shape_lookup key shape = Some t ->
  let issues := parse isUrl t (get o key) in
  default ∅ (errors (validateForm isUrl shape (Object_ o))) !! key = last issues /\
  field_error (validateField isUrl shape key (get o key)) = or_generic <$> head issues /\
  (field_success (validateField isUrl shape key (get o key)) = true <-> issues = []).
Proof.
  intros Hnd Hkey issues. split; [|split].
  - by apply validateForm_field_error.
  - unfold validateField. rewrite Hkey. subst issues.
    by destruct (parse isUrl t (get o key)).
  - unfold validateField. rewrite Hkey. subst issues.
    by destruct (parse isUrl t (get o key)).
Qed.

End FieldMessages.

Lemma form_reports_last_field_reports_first_witness :
  default ∅ (Validation.errors
               (Validation.validateForm (fun _ => false) Validation.cameraSchema
                  (Validation.Object_ (<["rtsp_url" := Js.Str ""]> ∅)))) !! "rtsp_url"
  = Some "Некорректный RTSP URL" /\
  ValidationUse.field_error
    (ValidationUse.validateField (fun _ => false) Validation.cameraSchema "rtsp_url"
       (Js.Str ""))
  = Some "RTSP URL обязателен".
Proof.
  destruct (form_reports_last_field_reports_first (fun _ => false)
              Validation.cameraSchema (<["rtsp_url" := Js.Str ""]> ∅) "rtsp_url"
              (Validation.ZString [Validation.SMin 1 "RTSP URL обязателен";
                                   Validation.SUrl "Некорректный RTSP URL"]))
    as (H1 & H2 & _).
  - apply (bool_decide_unpack (NoDup (map fst Validation.cameraSchema))).
    vm_compute. reflexivity.
  - reflexivity.
  - split; [exact H1 | exact H2].
Defined.

Section FormAndFields.

Import Js Validation ValidationUse.

Variable isUrl : string -> bool.

Lemma shape_lookup_elem (key : string) (t : ztype) (shape : list (string * ztype)) :
  shape_lookup key shape = Some t -> (key, t) ∈ shape.
Proof.
  induction shape as [|[k t'] shape IH]; simpl; [done|].
  destruct (String.eqb_spec k key) as [->|Hne].
  - intros [= ->]. by left.
  - intros H. right. by apply IH.
Qed.

Lemma elem_shape_lookup (key : string) (t : ztype) (shape : list (string * ztype)) :
  NoDup (map fst shape) -> (key, t) ∈ shape -> shape_lookup key shape = Some t.
Proof.
  induction shape as [|[k t'] shape IH]; intros Hnd Hin; [inversion Hin|].
  apply NoDup_cons in Hnd as [Hk Hnd]. simpl.
  apply elem_of_cons in Hin as [[= -> ->]|Hin].
  - by rewrite String.eqb_refl.
  - destruct (String.eqb_spec k key) as [->|Hne]; [|by apply IH].
    exfalso. apply Hk. apply list_elem_of_fmap. by exists (key, t).
Qed.

(** X16. A form passes validateForm exactly when each field the schema
    declares passes validateField on the form's value for it. A field the
    schema does not declare always passes validateField, except that the
    names every object inherits (toString, constructor, ...) fail with the
    generic message. *)
Theorem validateForm_iff_every_field (shape : list (string * ztype)) (o : object) :
  NoDup (map fst shape) ->
  (success (validateForm isUrl shape (Object_ o)) = true <->
   forall key t, shape_lookup key shape = Some t ->
     field_success (validateField isUrl shape key (get o key)) = true) /\
  (forall field v, shape_lookup field shape = None ->
     validateField isUrl shape field v =
       if existsb (String.eqb field) inherited_names
       then mkFieldValidation false (Some "Ошибка валидации")
       else mkFieldValidation true None).
Proof.
  intros Hnd. split.
  - assert (success (validateForm isUrl shape (Object_ o)) = true <->
            parse_object isUrl shape (Object_ o) = []) as ->.
    { unfold validateForm. by destruct (parse_object isUrl shape (Object_ o)). }
    simpl. rewrite flat_map_nil_Forall, Forall_forall. split.
    + intros H key t Hkey. unfold validateField. rewrite Hkey.
      specialize (H (key, t) (shape_lookup_elem _ _ _ Hkey)). simpl in H.
      by destruct (parse isUrl t (get o key)).
    + intros H [key t] Hin.
      specialize (H key t (elem_shape_lookup _ _ _ Hnd Hin)).
      unfold validateField in H. rewrite (elem_shape_lookup _ _ _ Hnd Hin) in H.
      by destruct (parse isUrl t (get o key)).
  - intros field v Hnone. unfold validateField. by rewrite Hnone.
Qed.

(** X17. The login form is valid exactly when the user name is a string of
    at least 3 characters and the password a string of at least 6. The
    messages "Имя пользователя обязательно" and "Пароль обязателен" of the
    first checks never reach the form's error map: an empty field also fails
    the length check that follows, whose message replaces them. *)
Theorem loginSchema_valid_iff (o : object) :
  (success (validateForm isUrl loginSchema (Object_ o)) = true <->
   exists username password,
     o !! "username" = Some (Str username) /\ o !! "password" = Some (Str password) /\
     3 <= String.length username /\ 6 <= String.length password) /\
  default ∅ (errors (validateForm isUrl loginSchema (Object_ o))) !! "username"
    <> Some "Имя пользователя обязательно" /\
  default ∅ (errors (validateForm isUrl loginSchema (Object_ o))) !! "password"
    <> Some "Пароль обязателен".
Proof.
  assert (NoDup (map fst loginSchema)) as Hnd.
  { apply (bool_decide_unpack (NoDup (map fst loginSchema))). vm_compute. reflexivity. }
  split; [|split].
  - assert (success (validateForm isUrl loginSchema (Object_ o)) = true <->
            satisfies isUrl loginSchema (Object_ o)) as ->.
    { rewrite <- parse_object_nil_satisfies. unfold validateForm.
      by destruct (parse_object isUrl loginSchema (Object_ o)). }
    unfold satisfies, loginSchema, get. split.
    + rewrite !Forall_cons. simpl. intros ((u & Hu & Hcu) & (pw & Hp & Hcp) & _).
      rewrite !Forall_cons in Hcu, Hcp. simpl in Hcu, Hcp.
      destruct (o !! "username") as [vu|]; simpl in Hu; [|done].
      destruct (o !! "password") as [vp|]; simpl in Hp; [|done]. subst.
      exists u, pw. repeat split; try done; lia.
    + intros (u & pw & Hu & Hp & Hlu & Hlp).
      rewrite !Forall_cons. simpl. rewrite Hu, Hp. simpl.
      split; [|split; [|constructor]]; eexists; (split; [done|]);
        repeat constructor; simpl; lia.
  - rewrite (validateForm_field_error isUrl loginSchema o "username"
                (ZString [SMin 1 "Имя пользователя обязательно"; SMin 3 "Минимум 3 символа"])
                Hnd eq_refl).
    simpl. destruct (get o "username") as [| | | | | | |s|k a]; simpl; try done;
      try (by destruct k).
    destruct (String.length s <? 1) eqn:E1, (String.length s <? 3) eqn:E3; simpl; try done.
    apply Nat.ltb_lt in E1. apply Nat.ltb_ge in E3. lia.
  - rewrite (validateForm_field_error isUrl loginSchema o "password"
                (ZString [SMin 1 "Пароль обязателен"; SMin 6 "Минимум 6 символов"])
                Hnd eq_refl).
    simpl. destruct (get o "password") as [| | | | | | |s|k a]; simpl; try done;
      try (by destruct k).
    destruct (String.length s <? 1) eqn:E1, (String.length s <? 6) eqn:E3; simpl; try done.
    apply Nat.ltb_lt in E1. apply Nat.ltb_ge in E3. lia.
Qed.

End FormAndFields.

Section DurationFields.

Import Format FormatUse.
Local Open Scope N_scope.

(** X18. parseDuration reads any fields of decimal digits, canonical or
    not: three fields give hours, minutes and seconds, two give minutes and
    seconds, one gives seconds. The fields are not range-checked ("1:75:90"
    is read as 1 h + 75 min + 90 s) and an empty field counts as 0. The sum
    is exact as long as it stays below 2^53. *)
Theorem parseDuration_digit_fields (h m sec : Decimal.uint) :
  N.of_uint h * 3600 + N.of_uint m * 60 + N.of_uint sec < 2 ^ 53 ->
  parseDuration (NilEmpty.string_of_uint h +:+ ":" +:+ NilEmpty.string_of_uint m
                 +:+ ":" +:+ NilEmpty.string_of_uint sec)
  = Number_ (Z.of_N (N.of_uint h * 3600 + N.of_uint m * 60 + N.of_uint sec)) /\
  parseDuration (NilEmpty.string_of_uint m +:+ ":" +:+ NilEmpty.string_of_uint sec)
  = Number_ (Z.of_N (N.of_uint m * 60 + N.of_uint sec)) /\
  parseDuration (NilEmpty.string_of_uint sec) = Number_ (Z.of_N (N.of_uint sec)).
Proof.
  intros Hsum. change (2 ^ 53) with 9007199254740992 in Hsum.
  assert (forall n, n <= N.of_uint h * 3600 + N.of_uint m * 60 + N.of_uint sec ->
                    n < 2 ^ 53) as Hsmall.
  { intros n Hn. change (2 ^ 53) with 9007199254740992. lia. }
  unfold parseDuration.
  repeat match goal with
         | |- context [ ":" +:+ ?x ] => change (":" +:+ x) with (String ":" x)
         end.
  rewrite !split_at_sep, !split_without_sep by apply contains_digits.
  simpl map. rewrite !Number_digits.
  rewrite !nearest_small by (apply Hsmall; lia).
  change 60%Z with (Z.of_N 60). change 3600%Z with (Z.of_N 3600).
  rewrite !jmul_small by (apply Hsmall; lia).
  rewrite !jadd_small by (apply Hsmall; lia).
  done.
Qed.

Lemma split_length (sep : ascii) (s : string) :
  length (split sep s) = S (occurrences sep s).
Proof.
  induction s as [|a s IH]; simpl; [done|].
  destruct (Ascii.eqb a sep); simpl; [by rewrite IH|].
  destruct (split sep s) as [|p ps]; simpl in *; [done | by rewrite <- IH].
Qed.

(** X19. parseDuration can answer NaN only for a text with exactly one or
    two colons. A text without colon, or with three colons or more, is
    read through its first field alone, and what is not a number there
    counts as 0. *)
Theorem parseDuration_NaN_only_with_two_or_three_fields (s : string) :
  (occurrences ":" s <> 1%nat -> occurrences ":" s <> 2%nat ->
   parseDuration s = or_zero (Number (hd EmptyString (split ":" s))) /\
   parseDuration s <> NotANumber) /\
  (parseDuration s = NotANumber ->
   occurrences ":" s = 1%nat \/ occurrences ":" s = 2%nat).
Proof.
  pose proof (split_length ":" s) as Hlen.
  assert (occurrences ":" s <> 1%nat -> occurrences ":" s <> 2%nat ->
          parseDuration s = or_zero (Number (hd EmptyString (split ":" s))) /\
          parseDuration s <> NotANumber) as Hfirst.
  { intros H1 H2. unfold parseDuration.
    destruct (split ":" s) as [|a [|b [|c [|e rest]]]]; simpl in *;
      try lia; (split; [done|]); by destruct (Number a). }
  split; [exact Hfirst|].
  intros Hnan.
  destruct (decide (occurrences ":" s = 1%nat)) as [|H1]; [by left|].
  destruct (decide (occurrences ":" s = 2%nat)) as [|H2]; [by right|].
  by destruct (Hfirst H1 H2) as [_ Hne].
Qed.

Lemma skip_spaces_app (ws s : string) :
  skip_spaces ws = EmptyString -> skip_spaces (ws +:+ s) = skip_spaces s.
Proof.
  induction ws as [|a ws IH]; simpl; [done|].
  destruct (is_space a); [apply IH | done].
Qed.

Lemma digit_prefix_digits (d : Decimal.uint) (tail : string) :
  digit_prefix (NilEmpty.string_of_uint d +:+ tail)
  = NilEmpty.string_of_uint d +:+ digit_prefix tail.
Proof. induction d; simpl; by rewrite ?IHd. Qed.

Lemma parseInt_digit_first (c : ascii) (rest : string) :
  is_digit c = true ->
  parseInt (String c rest)
  = match NilEmpty.uint_of_string (digit_prefix (String c rest)) with
    | Some d => nearest (N.of_uint d) 1
    | None => NotANumber
    end.
Proof.
  destruct c as [[] [] [] [] [] [] [] []]; try discriminate; intros _; reflexivity.
Qed.

Lemma digits_head (d : Decimal.uint) :
  d <> Decimal.Nil ->
  exists c rest, NilEmpty.string_of_uint d = String c rest /\ is_digit c = true.
Proof. destruct d; [done|..]; intros _; simpl; eauto. Qed.

Lemma parseInt_leading_digits (ws : string) (d : Decimal.uint) (tail : string) :
  skip_spaces ws = EmptyString ->
  d <> Decimal.Nil ->
  digit_prefix tail = EmptyString ->
  parseInt (ws +:+ NilEmpty.string_of_uint d +:+ tail) = nearest (N.of_uint d) 1.
Proof.
  intros Hws Hd Htail.
  destruct (digits_head d Hd) as (c & rest & Hstr & Hc).
  assert (parseInt (ws +:+ NilEmpty.string_of_uint d +:+ tail)
          = parseInt (NilEmpty.string_of_uint d +:+ tail)) as ->.
  { unfold parseInt. by rewrite skip_spaces_app. }
  pose proof (digit_prefix_digits d tail) as Hprefix.
  rewrite Htail, append_empty in Hprefix.
  rewrite Hstr in Hprefix |- *.
  change (String c rest +:+ tail) with (String c (rest +:+ tail)) in *.
  rewrite parseInt_digit_first, Hprefix by done.
  by rewrite <- Hstr, NilEmpty.usu.
Qed.

(** Whether a rounded integer lies between 1 and a bound below 2^53 can be
    told from the integer itself. *)
Lemma nearest_between (n : N) (hi : Z) :
  (0 <= hi < 2 ^ 53)%Z ->
  negb (isNaN (nearest n 1)) && at_least (nearest n 1) 1 && at_most (nearest n 1) hi
  = (1 <=? n) && (Z.of_N n <=? hi)%Z.
Proof.
  intros Hhi. change (2 ^ 53)%Z with 9007199254740992%Z in Hhi.
  destruct (N.lt_ge_cases n (2 ^ 53)) as [Hn|Hn].
  - rewrite nearest_small by done. simpl.
    destruct (Z.leb_spec 1 (Z.of_N n)), (N.leb_spec 1 n); try lia; done.
  - change (2 ^ 53) with 9007199254740992 in Hn.
    assert ((Z.of_N n <=? hi)%Z = false) as -> by (apply Z.leb_gt; lia).
    rewrite andb_false_r.
    destruct (nearest_large n) as [-> | (z & -> & Hz)].
    { change (2 ^ 53) with 9007199254740992. lia. }
    + done.
    + change (2 ^ 53)%Z with 9007199254740992%Z in Hz. simpl.
      assert ((z <=? hi)%Z = false) as -> by (apply Z.leb_gt; lia).
      apply andb_false_r.
Qed.

(** X20. parseInt, and with it isValidPort, reads the leading digits of a
    text and ignores what follows: after any leading white space, a run of
    digits followed by anything that does not start with a digit is read as
    the number the digits write (exactly, when that number is below 2^53),
    so isValidPort accepts the text exactly when that number lies between 1
    and 65535, however many digits there are (" 80abc" is a valid port). *)
Theorem isValidPort_reads_leading_digits (ws : string) (d : Decimal.uint) (tail : string) :
  skip_spaces ws = EmptyString ->
  d <> Decimal.Nil ->
  digit_prefix tail = EmptyString ->
  (N.of_uint d < 2 ^ 53 ->
   parseInt (ws +:+ NilEmpty.string_of_uint d +:+ tail) = Number_ (Z.of_N (N.of_uint d))) /\
  isValidPort (ws +:+ NilEmpty.string_of_uint d +:+ tail)
  = (1 <=? N.of_uint d) && (N.of_uint d <=? 65535).
Proof.
  intros Hws Hd Htail.
  pose proof (parseInt_leading_digits ws d tail Hws Hd Htail) as Hparse.
  split.
  - intros Hsmall. rewrite Hparse. by apply nearest_small.
  - unfold isValidPort. cbv zeta. rewrite Hparse.
    rewrite nearest_between by done. f_equal.
    destruct (Z.leb_spec (Z.of_N (N.of_uint d)) 65535), (N.leb_spec (N.of_uint d) 65535);
      try lia; done.
Qed.

End DurationFields.

(** The theorem at work, on "1:75:90". *)
Lemma parseDuration_digit_fields_witness :
  Format.parseDuration "1:75:90" = Format.Number_ 8190.
Proof.
  exact (proj1 (parseDuration_digit_fields
                  (Decimal.D1 Decimal.Nil) (Decimal.D7 (Decimal.D5 Decimal.Nil))
                  (Decimal.D9 (Decimal.D0 Decimal.Nil)) eq_refl)).
Defined.

(** Beyond 2^53 the fields are rounded as every number is. *)
Example parseDuration_rounds_long_fields :
  Format.parseDuration "9007199254740993" = Format.Number_ 9007199254740992.
Proof. vm_compute. reflexivity. Qed.

Lemma isValidPort_reads_leading_digits_witness :
  FormatUse.isValidPort " 80abc" = true.
Proof.
  destruct (isValidPort_reads_leading_digits " " (Decimal.D8 (Decimal.D0 Decimal.Nil)) "abc")
    as [_ H]; [reflexivity | discriminate | reflexivity |].
  exact H.
Defined.

Lemma form_and_fields_witness :
  Validation.success
    (Validation.validateForm (fun _ => true) ValidationUse.loginSchema
       (Validation.Object_ (<["username" := Js.Str "admin"]>
                              (<["password" := Js.Str "secret1"]> ∅)))) = true <->
  forall key t, ValidationUse.shape_lookup key ValidationUse.loginSchema = Some t ->
    ValidationUse.field_success
      (ValidationUse.validateField (fun _ => true) ValidationUse.loginSchema key
         (Js.get (<["username" := Js.Str "admin"]> (<["password" := Js.Str "secret1"]> ∅))
            key)) = true.
Proof.
  apply (validateForm_iff_every_field (fun _ => true) ValidationUse.loginSchema).
  apply (bool_decide_unpack (NoDup (map fst ValidationUse.loginSchema))).
  vm_compute. reflexivity.
Defined.

(* ===================================================================== *)
(** * The regular expressions and the validators built on them *)
(* ===================================================================== *)

Section RegExpMatching.

Import RegExp.

Lemma append_cons (a : ascii) (s t : string) :
  String a s +:+ t = String a (s +:+ t).
Proof. reflexivity. Qed.

Lemma append_nil_l (t : string) : EmptyString +:+ t = t.
Proof. reflexivity. Qed.

Lemma append_assoc (s t u : string) : (s +:+ t) +:+ u = s +:+ (t +:+ u).
Proof.
  induction s as [|a s IH]; [done|]. rewrite !append_cons. by rewrite IH.
Qed.

Lemma append_eq_nil (s t : string) :
  s +:+ t = EmptyString -> s = EmptyString /\ t = EmptyString.
Proof. destruct s; [done|]. rewrite append_cons. done. Qed.

Lemma nullable_lang (r : regex) : nullable r = true <-> lang r EmptyString.
Proof.
  induction r as [| |p|r1 IH1 r2 IH2|r1 IH1 r2 IH2|r IH]; simpl.
  - split; [done | inversion 1].
  - split; [constructor | done].
  - split; [done | inversion 1].
  - rewrite andb_true_iff, IH1, IH2. split.
    + intros [H1 H2]. apply (lang_Seq r1 r2 EmptyString EmptyString H1 H2).
    + inversion 1 as [| |? ? s1 s2 H1 H2 E1 E2| | | |]; subst.
      apply append_eq_nil in E2 as [-> ->]. done.
  - rewrite orb_true_iff, IH1, IH2. split.
    + intros [H|H]; [by apply lang_Alt_l | by apply lang_Alt_r].
    + inversion 1; subst; [by left | by right].
  - split; [constructor | done].
Qed.

(** A non-empty match of [r*] starts with a non-empty match of [r]. *)
Lemma lang_Star_head (r : regex) (w : string) :
  lang (Star r) w ->
  forall a s, w = String a s ->
  exists s1 s2, s = s1 +:+ s2 /\ lang r (String a s1) /\ lang (Star r) s2.
Proof.
  intros H. remember (Star r) as r' eqn:Er.
  induction H as [| | | | | |r0 s1 s2 H1 _ H2 IH2]; try discriminate.
  injection Er as ->. intros a s E.
  destruct s1 as [|b s1].
  - rewrite append_nil_l in E. by apply IH2.
  - rewrite append_cons in E. injection E as -> <-. eauto.
Qed.

Lemma deriv_lang (r : regex) (a : ascii) (s : string) :
  lang (deriv a r) s <-> lang r (String a s).
Proof.
  revert s. induction r as [| |p|r1 IH1 r2 IH2|r1 IH1 r2 IH2|r IH]; intros s; simpl.
  - split; inversion 1.
  - split; inversion 1.
  - destruct (p a) eqn:E; split.
    + inversion 1; subst. by constructor.
    + inversion 1; subst. constructor.
    + inversion 1.
    + inversion 1; subst. congruence.
  - assert (lang (Seq (deriv a r1) r2) s -> lang (Seq r1 r2) (String a s)) as Hfirst.
    { inversion 1 as [| |? ? s1 s2 H1 H2| | | |]; subst.
      rewrite <- append_cons. constructor; [by apply IH1 | done]. }
    assert (lang (Seq r1 r2) (String a s) ->
            lang (Seq (deriv a r1) r2) s \/
            (lang r1 EmptyString /\ lang (deriv a r2) s)) as Hback.
    { inversion 1 as [| |? ? s1 s2 H1 H2 E1 E2| | | |]; subst.
      destruct s1 as [|b s1].
      - rewrite append_nil_l in E2. subst. right. split; [done | by apply IH2].
      - rewrite append_cons in E2. injection E2 as -> <-.
        left. constructor; [by apply IH1 | done]. }
    destruct (nullable r1) eqn:En; split.
    + inversion 1; subst; [by apply Hfirst|].
      apply (lang_Seq r1 r2 EmptyString (String a s)); [by apply nullable_lang|].
      by apply IH2.
    + intros H. destruct (Hback H) as [H'|[_ H']];
        [by apply lang_Alt_l | by apply lang_Alt_r].
    + apply Hfirst.
    + intros H. destruct (Hback H) as [H'|[H' _]]; [done|].
      apply nullable_lang in H'. congruence.
  - split.
    + inversion 1; subst; [apply lang_Alt_l | apply lang_Alt_r];
        [by apply IH1 | by apply IH2].
    + inversion 1; subst; [apply lang_Alt_l | apply lang_Alt_r];
        [by apply IH1 | by apply IH2].
  - split.
    + inversion 1 as [| |? ? s1 s2 H1 H2| | | |]; subst.
      rewrite <- append_cons. constructor; [by apply IH | done].
    + intros H.
      destruct (lang_Star_head r _ H a s eq_refl) as (s1 & s2 & -> & H1 & H2).
      constructor; [by apply IH | done].
Qed.

(** The matcher accepts exactly the language of the expression. *)
Lemma test_lang (r : regex) (s : string) : test r s = true <-> lang r s.
Proof.
  revert r. induction s as [|a s IH]; intros r; simpl.
  - apply nullable_lang.
  - rewrite IH. apply deriv_lang.
Qed.

Lemma lang_Class_inv (p : ascii -> bool) (s : string) :
  lang (Class p) s <-> exists a, s = String a EmptyString /\ p a = true.
Proof.
  split.
  - inversion 1; subst. eauto.
  - intros (a & -> & H). by constructor.
Qed.

Lemma lang_Seq_inv (r1 r2 : regex) (s : string) :
  lang (Seq r1 r2) s <-> exists s1 s2, s = s1 +:+ s2 /\ lang r1 s1 /\ lang r2 s2.
Proof.
  split.
  - inversion 1; subst. eauto.
  - intros (s1 & s2 & -> & H1 & H2). by constructor.
Qed.

Lemma lang_Alt_inv (r1 r2 : regex) (s : string) :
  lang (Alt r1 r2) s <-> lang r1 s \/ lang r2 s.
Proof.
  split.
  - inversion 1; subst; [by left | by right].
  - intros [H|H]; [by apply lang_Alt_l | by apply lang_Alt_r].
Qed.

Lemma lang_Empty_inv (s : string) : lang Empty s <-> s = EmptyString.
Proof. split; [by inversion 1 | intros ->; constructor]. Qed.

End RegExpMatching.

Section CountedRepetition.

Import RegExp Validators.

Variable p : ascii -> bool.

Lemma length_append (s t : string) :
  String.length (s +:+ t) = String.length s + String.length t.
Proof.
  induction s as [|a s IH]; [done|]. rewrite append_cons. simpl. by rewrite IH.
Qed.

Lemma all_chars_append (s t : string) :
  all_chars p (s +:+ t) = all_chars p s && all_chars p t.
Proof.
  induction s as [|a s IH]; [done|]. rewrite append_cons. simpl.
  by rewrite IH, andb_assoc.
Qed.

Lemma lang_Times (n : nat) (s : string) :
  lang (Times n (Class p)) s <-> String.length s = n /\ all_chars p s = true.
Proof.
  revert s. induction n as [|n IH]; intros s; simpl.
  - rewrite lang_Empty_inv. split; [by intros -> |].
    destruct s; [done | by intros [? _]].
  - rewrite lang_Seq_inv. split.
    + intros (s1 & s2 & -> & H1 & H2).
      apply lang_Class_inv in H1 as (a & -> & Ha). apply IH in H2 as [<- H2].
      rewrite append_cons, append_nil_l. simpl. by rewrite Ha, H2.
    + destruct s as [|a s]; [by intros [? _]|]. simpl.
      intros [[= Hlen] Hall]. apply andb_true_iff in Hall as [Ha Hall].
      exists (String a EmptyString), s. split; [done|].
      split; [by constructor | by apply IH].
Qed.

Lemma lang_UpTo (n : nat) (s : string) :
  lang (UpTo n (Class p)) s <-> String.length s <= n /\ all_chars p s = true.
Proof.
  revert s. induction n as [|n IH]; intros s; simpl.
  - rewrite lang_Empty_inv. split; [by intros -> |].
    destruct s; simpl; [done | intros [? _]; lia].
  - unfold Opt. rewrite lang_Alt_inv, lang_Empty_inv, lang_Seq_inv. split.
    + intros [-> | (s1 & s2 & -> & H1 & H2)]; [simpl; split; [lia | done]|].
      apply lang_Class_inv in H1 as (a & -> & Ha). apply IH in H2 as [Hlen H2].
      rewrite append_cons, append_nil_l. simpl. rewrite Ha, H2. split; [lia | done].
    + destruct s as [|a s]; [by left|]. simpl.
      intros [Hlen Hall]. apply andb_true_iff in Hall as [Ha Hall]. right.
      exists (String a EmptyString), s. split; [done|].
      split; [by constructor | apply IH; split; [lia | done]].
Qed.

Lemma take_drop_string (n : nat) (s : string) :
  n <= String.length s ->
  exists s1 s2, s = s1 +:+ s2 /\ String.length s1 = n.
Proof.
  revert s. induction n as [|n IH]; intros s Hn.
  - by exists EmptyString, s.
  - destruct s as [|a s]; simpl in Hn; [lia|].
    destruct (IH s) as (s1 & s2 & -> & Hlen); [lia|].
    exists (String a s1), s2. split; [done | simpl; by rewrite Hlen].
Qed.

Lemma lang_Between (lo hi : nat) (s : string) :
  lo <= hi ->
  lang (Between lo hi (Class p)) s <->
  (lo <= String.length s <= hi) /\ all_chars p s = true.
Proof.
  intros Hle. unfold Between. rewrite lang_Seq_inv. split.
  - intros (s1 & s2 & -> & H1 & H2).
    apply lang_Times in H1 as [Hl1 Ha1]. apply lang_UpTo in H2 as [Hl2 Ha2].
    rewrite length_append, all_chars_append, Ha1, Ha2. split; [lia | done].
  - intros [[Hlo Hhi] Hall].
    destruct (take_drop_string lo s Hlo) as (s1 & s2 & -> & Hlen).
    rewrite all_chars_append in Hall. apply andb_true_iff in Hall as [Ha1 Ha2].
    rewrite length_append in Hhi.
    exists s1, s2. split; [done|]. split.
    + by apply lang_Times.
    + apply lang_UpTo. split; [lia | done].
Qed.

Lemma lang_Star_Class (s : string) :
  lang (Star (Class p)) s <-> all_chars p s = true.
Proof.
  split.
  - intros H. remember (Star (Class p)) as r eqn:Er.
    induction H as [| | | | | |r0 s1 s2 H1 _ H2 IH2]; try discriminate; [done|].
    injection Er as ->. apply lang_Class_inv in H1 as (a & -> & Ha).
    rewrite append_cons, append_nil_l. simpl. by rewrite Ha, IH2.
  - induction s as [|a s IH]; simpl; [constructor|].
    intros Hall. apply andb_true_iff in Hall as [Ha Hall].
    apply (lang_Star_cons (Class p) (String a EmptyString) s);
      [by constructor | by apply IH].
Qed.

Lemma lang_Plus_Class (s : string) :
  lang (Plus (Class p)) s <-> s <> EmptyString /\ all_chars p s = true.
Proof.
  unfold Plus. rewrite lang_Seq_inv. split.
  - intros (s1 & s2 & -> & H1 & H2).
    apply lang_Class_inv in H1 as (a & -> & Ha). apply lang_Star_Class in H2.
    rewrite append_cons, append_nil_l. simpl. by rewrite Ha, H2.
  - destruct s as [|a s]; [by intros [? _]|]. simpl. intros [_ Hall].
    apply andb_true_iff in Hall as [Ha Hall].
    exists (String a EmptyString), s. split; [done|].
    split; [by constructor | by apply lang_Star_Class].
Qed.

End CountedRepetition.

Section DigitTexts.

Import RegExp Format FormatUse Validators.

Lemma digit_char (c : ascii) :
  is_digit c = true ->
  exists k : Decimal.uint -> Decimal.uint,
    forall d, NilEmpty.string_of_uint (k d) = String c (NilEmpty.string_of_uint d) /\
              Decimal.nb_digits (k d) = S (Decimal.nb_digits d).
Proof.
  destruct c as [[] [] [] [] [] [] [] []]; try discriminate; intros _;
    first [ by exists Decimal.D0 | by exists Decimal.D1 | by exists Decimal.D2
          | by exists Decimal.D3 | by exists Decimal.D4 | by exists Decimal.D5
          | by exists Decimal.D6 | by exists Decimal.D7 | by exists Decimal.D8
          | by exists Decimal.D9 ].
Qed.

Lemma digits_uint (s : string) :
  all_chars is_digit s = true ->
  exists d, s = NilEmpty.string_of_uint d /\ Decimal.nb_digits d = String.length s.
Proof.
  induction s as [|c s IH]; simpl.
  - intros _. by exists Decimal.Nil.
  - intros H. apply andb_true_iff in H as [Hc Hs].
    destruct (IH Hs) as (d & -> & Hlen). destruct (digit_char c Hc) as [k Hk].
    exists (k d). destruct (Hk d) as [-> ->]. by rewrite Hlen.
Qed.

Lemma uint_digits (d : Decimal.uint) :
  all_chars is_digit (NilEmpty.string_of_uint d) = true /\
  String.length (NilEmpty.string_of_uint d) = Decimal.nb_digits d.
Proof. induction d; simpl; [done|..]; destruct IHd as [-> ->]; done. Qed.

Lemma digits_between_uint (lo hi : nat) (s : string) :
  digits_between lo hi s <->
  exists d, s = NilEmpty.string_of_uint d /\ lo <= Decimal.nb_digits d <= hi.
Proof.
  unfold digits_between. split.
  - intros [Hlen Hall]. destruct (digits_uint s Hall) as (d & -> & Hd).
    exists d. split; [done | lia].
  - intros (d & -> & Hd). destruct (uint_digits d) as [-> ->]. done.
Qed.

Lemma digits_without (c : ascii) (s : string) :
  is_digit c = false -> all_chars is_digit s = true -> contains c s = false.
Proof.
  intros Hc. induction s as [|a s IH]; simpl; [done|].
  intros H. apply andb_true_iff in H as [Ha Hs]. rewrite (IH Hs).
  destruct (Ascii.eqb_spec a c); [congruence | done].
Qed.

Lemma lang_chr (c : ascii) (s : string) :
  lang (chr c) s <-> s = String c EmptyString.
Proof.
  unfold chr. rewrite lang_Class_inv. split.
  - intros (a & -> & Ha). apply Ascii.eqb_eq in Ha. by subst.
  - intros ->. exists c. by rewrite Ascii.eqb_refl.
Qed.

Lemma nonempty_uint (d : Decimal.uint) :
  1 <= Decimal.nb_digits d -> d <> Decimal.Nil.
Proof. destruct d; simpl; [lia | done..]. Qed.

Lemma parseInt_uint (d : Decimal.uint) :
  d <> Decimal.Nil ->
  parseInt (NilEmpty.string_of_uint d) = nearest (N.of_uint d) 1.
Proof.
  intros Hd.
  pose proof (parseInt_leading_digits EmptyString d EmptyString eq_refl Hd eq_refl) as H.
  by rewrite append_nil_l, append_empty in H.
Qed.

End DigitTexts.

Section Addresses.

Import RegExp Format FormatUse Validators.
Local Open Scope N_scope.

Lemma dotted_cons (a b c d : string) :
  dotted a b c d = a +:+ String "." (b +:+ String "." (c +:+ String "." d)).
Proof. reflexivity. Qed.

Lemma lang_ipRegex (s : string) :
  lang ipRegex s <->
  exists o1 o2 o3 o4,
    s = dotted o1 o2 o3 o4 /\
    digits_between 1 3 o1 /\ digits_between 1 3 o2 /\
    digits_between 1 3 o3 /\ digits_between 1 3 o4.
Proof.
  assert (forall o, lang (Between 1 3 digit) o <-> digits_between 1 3 o) as Hoct.
  { intros o. unfold digit, digits_between. apply lang_Between. lia. }
  assert (forall g, lang (Seq (Between 1 3 digit) (chr ".")) g <->
                    exists o, g = o +:+ String "." EmptyString /\ digits_between 1 3 o)
    as Hgroup.
  { intros g. rewrite lang_Seq_inv. split.
    - intros (o & dt & -> & Ho & Hdt). apply lang_chr in Hdt as ->.
      exists o. split; [done | by apply Hoct].
    - intros (o & -> & Ho). exists o, (String "." EmptyString).
      split; [done|]. split; [by apply Hoct | by apply lang_chr]. }
  unfold ipRegex. simpl Times. split.
  - intros H. apply lang_Seq_inv in H as (t & o4 & -> & Ht & H4).
    apply lang_Seq_inv in Ht as (g1 & t1 & -> & Hg1 & Ht1).
    apply lang_Seq_inv in Ht1 as (g2 & t2 & -> & Hg2 & Ht2).
    apply lang_Seq_inv in Ht2 as (g3 & t3 & -> & Hg3 & Ht3).
    apply lang_Empty_inv in Ht3 as ->.
    apply Hgroup in Hg1 as (o1 & -> & H1). apply Hgroup in Hg2 as (o2 & -> & H2).
    apply Hgroup in Hg3 as (o3 & -> & H3). apply Hoct in H4.
    exists o1, o2, o3, o4. split; [|done].
    rewrite dotted_cons, append_empty, !append_assoc.
    by rewrite !append_cons, !append_nil_l.
  - intros (o1 & o2 & o3 & o4 & -> & H1 & H2 & H3 & H4).
    replace (dotted o1 o2 o3 o4)
      with (((o1 +:+ String "." EmptyString) +:+
             ((o2 +:+ String "." EmptyString) +:+
              ((o3 +:+ String "." EmptyString) +:+ EmptyString))) +:+ o4).
    + apply lang_Seq; [|by apply Hoct].
      apply lang_Seq; [apply Hgroup; eauto|].
      apply lang_Seq; [apply Hgroup; eauto|].
      apply lang_Seq; [apply Hgroup; eauto | constructor].
    + rewrite dotted_cons, append_empty, !append_assoc.
      by rewrite !append_cons, !append_nil_l.
Qed.

Lemma split_dotted (a b c d : string) :
  all_chars is_digit a = true -> all_chars is_digit b = true ->
  all_chars is_digit c = true -> all_chars is_digit d = true ->
  split "." (dotted a b c d) = [a; b; c; d].
Proof.
  intros Ha Hb Hc Hd. rewrite dotted_cons.
  rewrite !split_at_sep, split_without_sep; try done;
    by apply digits_without.
Qed.

Lemma octet_check (d : Decimal.uint) :
  d <> Decimal.Nil ->
  at_least (parseInt (NilEmpty.string_of_uint d)) 0
  && at_most (parseInt (NilEmpty.string_of_uint d)) 255
  = (N.of_uint d <=? 255).
Proof.
  intros Hd. rewrite parseInt_uint by done.
  destruct (N.lt_ge_cases (N.of_uint d) (2 ^ 53)) as [Hn|Hn].
  - rewrite nearest_small by done. simpl.
    destruct (Z.leb_spec 0 (Z.of_N (N.of_uint d))),
      (Z.leb_spec (Z.of_N (N.of_uint d)) 255), (N.leb_spec (N.of_uint d) 255);
      try lia; done.
  - change (2 ^ 53) with 9007199254740992 in Hn.
    assert ((N.of_uint d <=? 255) = false) as -> by (apply N.leb_gt; lia).
    destruct (nearest_large (N.of_uint d)) as [-> | (z & -> & Hz)].
    { change (2 ^ 53) with 9007199254740992. lia. }
    + done.
    + change (2 ^ 53)%Z with 9007199254740992%Z in Hz. simpl.
      assert ((z <=? 255)%Z = false) as -> by (apply Z.leb_gt; lia).
      apply andb_false_r.
Qed.

Lemma small_numbers_print_short (n : N) :
  n <= 255 -> (1 <= Decimal.nb_digits (N.to_uint n) <= 3)%nat.
Proof.
  intros Hn.
  assert (forallb (fun k => let len := Decimal.nb_digits (N.to_uint (N.of_nat k)) in
                            Nat.leb 1 len && Nat.leb len 3)
            (seq 0 256) = true) as Hall by (vm_compute; reflexivity).
  rewrite forallb_forall in Hall.
  specialize (Hall (N.to_nat n)). rewrite N2Nat.id in Hall.
  assert (In (N.to_nat n) (seq 0 256)) as Hin by (apply in_seq; lia).
  specialize (Hall Hin). cbv beta zeta in Hall.
  apply andb_true_iff in Hall as [H1 H2].
  apply Nat.leb_le in H1. apply Nat.leb_le in H2. done.
Qed.

(** X21. isValidIP accepts exactly the texts made of four fields of one to
    three decimal digits, separated by dots, each field writing a number of
    at most 255 (leading zeros are allowed: "001.002.003.004" is valid). In
    particular it accepts every address printed from four numbers between 0
    and 255. *)
Theorem isValidIP_iff_four_octets (s : string) :
  (isValidIP s = true <->
   exists a b c d : Decimal.uint,
     s = dotted (NilEmpty.string_of_uint a) (NilEmpty.string_of_uint b)
                (NilEmpty.string_of_uint c) (NilEmpty.string_of_uint d) /\
     Forall (fun o => (1 <= Decimal.nb_digits o <= 3)%nat /\ N.of_uint o <= 255)
            [a; b; c; d]) /\
  (forall n1 n2 n3 n4 : N,
     n1 <= 255 -> n2 <= 255 -> n3 <= 255 -> n4 <= 255 ->
     isValidIP (dotted (String_of n1) (String_of n2) (String_of n3) (String_of n4)) = true).
Proof.
  assert (forall a b c d : Decimal.uint,
            Forall (fun o => (1 <= Decimal.nb_digits o <= 3)%nat /\ N.of_uint o <= 255)
                   [a; b; c; d] ->
            isValidIP (dotted (NilEmpty.string_of_uint a) (NilEmpty.string_of_uint b)
                         (NilEmpty.string_of_uint c) (NilEmpty.string_of_uint d)) = true)
    as Hback.
  { intros a b c d Hall. rewrite !Forall_cons in Hall.
    destruct Hall as ([La Va] & [Lb Vb] & [Lc Vc] & [Ld Vd] & _).
    unfold isValidIP.
    assert (test ipRegex (dotted (NilEmpty.string_of_uint a) (NilEmpty.string_of_uint b)
                            (NilEmpty.string_of_uint c) (NilEmpty.string_of_uint d))
            = true) as ->.
    { apply test_lang, lang_ipRegex. do 4 eexists. split; [done|].
      split; [|split; [|split]]; apply digits_between_uint; eauto. }
    simpl negb. cbv iota.
    rewrite split_dotted by apply uint_digits. cbn [forallb].
    rewrite !octet_check by (apply nonempty_uint; lia).
    rewrite !andb_true_iff, !N.leb_le. done. }
  split; [split|].
  - unfold isValidIP. destruct (test ipRegex s) eqn:Htest; simpl; [|done].
    apply test_lang, lang_ipRegex in Htest
      as (o1 & o2 & o3 & o4 & -> & H1 & H2 & H3 & H4).
    apply digits_between_uint in H1 as (a & -> & La).
    apply digits_between_uint in H2 as (b & -> & Lb).
    apply digits_between_uint in H3 as (c & -> & Lc).
    apply digits_between_uint in H4 as (d & -> & Ld).
    rewrite split_dotted by apply uint_digits. cbn [forallb].
    rewrite !octet_check by (apply nonempty_uint; lia).
    rewrite !andb_true_iff, !N.leb_le. intros (Va & Vb & Vc & Vd & _).
    exists a, b, c, d. split; [done|].
    rewrite !Forall_cons. do 4 (split; [done|]). constructor.
  - intros (a & b & c & d & -> & Hall). by apply Hback.
  - intros n1 n2 n3 n4 H1 H2 H3 H4. unfold String_of. apply Hback.
    rewrite !Forall_cons, !DecimalN.Unsigned.of_to.
    do 4 (split; [split; [by apply small_numbers_print_short | done]|]).
    constructor.
Qed.

End Addresses.

Section Times.

Import RegExp Format FormatUse Validators.
Local Open Scope N_scope.

Ltac concrete_char c H :=
  destruct c as [[] [] [] [] [] [] [] []]; try discriminate H; clear H.

Ltac give_uint :=
  match goal with
  | |- exists d, ?s = NilEmpty.string_of_uint d /\ _ =>
      let r := eval vm_compute in (NilEmpty.uint_of_string s) in
      match r with
      | Some ?x => exists x
      end
  end;
  split; [reflexivity|]; split; [simpl; lia | vm_compute; reflexivity].

Lemma nb_digits_0 (d : Decimal.uint) : Decimal.nb_digits d = O -> d = Decimal.Nil.
Proof. by destruct d. Qed.

Lemma hour_lang (hs : string) :
  lang hourRegex hs <->
  exists h, hs = NilEmpty.string_of_uint h /\
            (1 <= Decimal.nb_digits h <= 2)%nat /\ N.of_uint h < 24.
Proof.
  split.
  - unfold hourRegex, Opt. rewrite lang_Alt_inv, !lang_Seq_inv.
    intros [(x & y & -> & Hx & Hy) | (x & y & -> & Hx & Hy)].
    + apply lang_Class_inv in Hy as (c1 & -> & H1).
      apply lang_Alt_inv in Hx as [Hx|Hx].
      * apply lang_Empty_inv in Hx as ->. concrete_char c1 H1; give_uint.
      * apply lang_Class_inv in Hx as (c0 & -> & H0).
        concrete_char c0 H0; concrete_char c1 H1; give_uint.
    + apply lang_chr in Hx as ->. apply lang_Class_inv in Hy as (c1 & -> & H1).
      concrete_char c1 H1; give_uint.
  - intros (h & -> & Hlen & Hval). apply test_lang.
    destruct h as [|h|h|h|h|h|h|h|h|h|h]; simpl in Hlen; try lia;
      (destruct h as [|h|h|h|h|h|h|h|h|h|h]; simpl in Hlen;
       [ reflexivity
       | assert (h = Decimal.Nil) as -> by (apply nb_digits_0; lia);
         first [ reflexivity | vm_compute in Hval; discriminate Hval ] .. ]).
Qed.

Lemma minute_lang (ms : string) :
  lang minuteRegex ms <->
  exists m, ms = NilEmpty.string_of_uint m /\
            (2 <= Decimal.nb_digits m <= 2)%nat /\ N.of_uint m < 60.
Proof.
  split.
  - unfold minuteRegex. rewrite lang_Seq_inv.
    intros (x & y & -> & Hx & Hy).
    apply lang_Class_inv in Hx as (c0 & -> & H0).
    apply lang_Class_inv in Hy as (c1 & -> & H1).
    concrete_char c0 H0; concrete_char c1 H1; give_uint.
  - intros (m & -> & Hlen & Hval). apply test_lang.
    destruct m as [|m|m|m|m|m|m|m|m|m|m]; simpl in Hlen; try lia;
      (destruct m as [|m|m|m|m|m|m|m|m|m|m]; simpl in Hlen; try lia;
       assert (m = Decimal.Nil) as -> by (apply nb_digits_0; lia);
       first [ reflexivity | vm_compute in Hval; discriminate Hval ]).
Qed.

End Times.

Section TimesAndEmails.

Import RegExp Format FormatUse Validators.
Local Open Scope N_scope.

Lemma time_texts_accepted :
  forallb (fun h =>
     forallb (fun m =>
        isValidTime (String_of (N.of_nat h) +:+ ":" +:+ padStart0 2 (String_of (N.of_nat m)))
        && isValidTime (padStart0 2 (String_of (N.of_nat h)) +:+ ":"
                        +:+ padStart0 2 (String_of (N.of_nat m))))
       (seq 0 60))
    (seq 0 24) = true.
Proof. vm_compute. reflexivity. Qed.

(** X22. isValidTime accepts exactly the texts "H:MM" and "HH:MM": one or
    two digits writing an hour below 24, a colon, and exactly two digits
    writing a minute below 60. In particular it accepts every time of day
    printed with or without a leading zero in the hour. *)
Theorem isValidTime_iff_hour_and_minute (s : string) :
  (isValidTime s = true <->
   exists h m : Decimal.uint,
     s = NilEmpty.string_of_uint h +:+ ":" +:+ NilEmpty.string_of_uint m /\
     (1 <= Decimal.nb_digits h <= 2)%nat /\ Decimal.nb_digits m = 2%nat /\
     N.of_uint h < 24 /\ N.of_uint m < 60) /\
  (forall h m : N, h < 24 -> m < 60 ->
     isValidTime (String_of h +:+ ":" +:+ padStart0 2 (String_of m)) = true /\
     isValidTime (padStart0 2 (String_of h) +:+ ":" +:+ padStart0 2 (String_of m)) = true).
Proof.
  split.
  - unfold isValidTime. rewrite test_lang. unfold timeRegex.
    rewrite lang_Seq_inv. split.
    + intros (hs & rest & -> & Hh & Hrest).
      apply lang_Seq_inv in Hrest as (colon & ms & -> & Hc & Hm).
      apply lang_chr in Hc as ->.
      apply hour_lang in Hh as (h & -> & Hlh & Hvh).
      apply minute_lang in Hm as (m & -> & Hlm & Hvm).
      exists h, m. repeat split; try done; lia.
    + intros (h & m & -> & Hlh & Hlm & Hvh & Hvm).
      exists (NilEmpty.string_of_uint h), (":" +:+ NilEmpty.string_of_uint m).
      split; [done|]. split; [apply hour_lang; eauto|].
      apply lang_Seq_inv. exists ":", (NilEmpty.string_of_uint m).
      split; [done|]. split; [by apply lang_chr|].
      apply minute_lang. exists m. repeat split; try done; lia.
  - intros h m Hh Hm. pose proof time_texts_accepted as Hall.
    rewrite forallb_forall in Hall.
    assert (In (N.to_nat h) (seq 0 24)) as Hin by (apply in_seq; lia).
    specialize (Hall (N.to_nat h) Hin). rewrite forallb_forall in Hall.
    assert (In (N.to_nat m) (seq 0 60)) as Hin' by (apply in_seq; lia).
    specialize (Hall (N.to_nat m) Hin').
    rewrite !N2Nat.id in Hall. by apply andb_true_iff in Hall.
Qed.

(** X23. isValidEmail accepts exactly the texts of the form
    local@host.tld whose three parts are non-empty and contain neither
    white space nor "@"; the host and the last part may contain further
    dots, and nothing else is checked. *)
Theorem isValidEmail_iff_three_parts (s : string) :
  isValidEmail s = true <->
  exists local host tld : string,
    s = local +:+ "@" +:+ host +:+ "." +:+ tld /\
    Forall (fun part => part <> EmptyString /\ all_chars not_space_or_at part = true)
           [local; host; tld].
Proof.
  unfold isValidEmail. rewrite test_lang. unfold emailRegex.
  rewrite lang_Seq_inv. split.
  - intros (local & r1 & -> & Hl & H1).
    apply lang_Seq_inv in H1 as (at_ & r2 & -> & Hat & H2).
    apply lang_Seq_inv in H2 as (host & r3 & -> & Hh & H3).
    apply lang_Seq_inv in H3 as (dot & tld & -> & Hdot & Ht).
    apply lang_chr in Hat as ->. apply lang_chr in Hdot as ->.
    apply lang_Plus_Class in Hl, Hh, Ht.
    exists local, host, tld. split; [done|].
    rewrite !Forall_cons. do 3 (split; [done|]). constructor.
  - intros (local & host & tld & -> & Hall).
    rewrite !Forall_cons in Hall. destruct Hall as (Hl & Hh & Ht & _).
    exists local, ("@" +:+ host +:+ "." +:+ tld). split; [done|].
    split; [by apply lang_Plus_Class|].
    apply lang_Seq_inv. exists "@", (host +:+ "." +:+ tld).
    split; [done|]. split; [by apply lang_chr|].
    apply lang_Seq_inv. exists host, ("." +:+ tld).
    split; [done|]. split; [by apply lang_Plus_Class|].
    apply lang_Seq_inv. exists ".", tld.
    split; [done|]. split; [by apply lang_chr | by apply lang_Plus_Class].
Qed.

End TimesAndEmails.

Example isValidEmail_examples :
  Validators.isValidEmail "op@cam.example.org" = true /\
  Validators.isValidEmail "op@cam" = false /\
  Validators.isValidEmail "o p@cam.org" = false /\
  Validators.isValidIP "192.168.001.10" = true /\
  Validators.isValidIP "192.168.1.256" = false /\
  Validators.isValidTime "24:00" = false.
Proof. vm_compute. repeat split; reflexivity. Qed.
